(** * pyesgf.multidict: an ordered multi-valued dictionary and its wrappers

    A shallow embedding of [src/pyesgf/multidict.py] (MultiDict,
    TrackableMultiDict, NestedMultiDict, NoVars) over an explicit Python
    store, followed by the properties of the container family.

    Python objects live in a heap indexed by references.  A MultiDict holds a
    reference to its backing list [_items], so two handles may share one
    list ([view_list]) and [clear] rebinds the attribute to a new list.
    Every method is a computation in a state-and-exception monad: an
    exception keeps the mutations made before it was raised, as in Python. *)

From stdpp Require Import gmap strings pretty list fin_maps.

Abbreviation loc := positive.

(** [hash(key)]: a dict takes a key that can be hashed, and building one
    over a key that cannot (a list, a tuple that holds a list) raises
    [TypeError].  The containers themselves compare keys with [==] only. *)
Class Hashable (K : Type) := hashable : K → bool.

Section multidict.

(** Keys and values are opaque.  Python's [==] on keys is modelled by a
    decidable equality; [repr_key] and [repr_val] stand for [repr()], which
    the error messages apply to keys and values.  A key may be a tuple:
    [tuple_reprs] gives the [repr] of its elements then, and [None] for a
    key that is not a tuple. *)
Context {K V : Type} `{EqDecision K} `{Hashable K}.
Variable repr_key : K → string.
Variable repr_val : V → string.
Variable tuple_reprs : K → option (list string).

(** ** Python values of the model *)

(** [repr] of a Python list: the elements' [repr], comma separated, in
    brackets. *)
Fixpoint join_reprs (rs : list string) : string :=
  match rs with
  | [] => ""
  | [r] => r
  | r :: rest => r +:+ ", " +:+ join_reprs rest
  end.

Definition repr_list (vs : list V) : string :=
  "[" +:+ join_reprs (repr_val <$> vs) +:+ "]".

(** The argument of a [KeyError]: the key itself ([raise KeyError(key)]) or a
    formatted message. *)
Inductive key_error_arg :=
| KeyArg (key : K)
| MsgArg (msg : string).

Inductive exn :=
| KeyError (arg : key_error_arg)
| TypeError (msg : string)
| IndexError (msg : string)
| AttributeError (msg : string)
| RuntimeError (msg : string).

(** An external callable (the tracker of a TrackableMultiDict) is known by an
    identifier; calling it is recorded in the trace with the positional
    arguments it received after [self]. *)
Abbreviation callback := nat.

Inductive tracker_arg :=
| AKey (key : K)
| AVal (value : V).

Inductive event :=
| Call (cb : callback) (self : loc) (args : list tracker_arg).

Inductive pyobj :=
| PyList (l : list (K * V))
| MultiDictObj (_items : loc)
| TrackableObj (_items : loc) (tracker : option callback) (name : option string)
| NestedObj (dicts : list loc)
| NoVarsObj (reason : string).

Record state := State {
  heap : gmap positive pyobj;
  calls : list event;
  warnings : list string
}.

Definition set_heap (f : gmap positive pyobj → gmap positive pyobj) (s : state) : state :=
  {| heap := f (heap s); calls := calls s; warnings := warnings s |}.

(** What a method returns: [None], a value, a (key, value) pair. *)
Inductive retval :=
| RNone
| RVal (v : V)
| RItem (k : K) (v : V).

(** ** The monad of methods *)

Definition M (A : Type) : Type := state → (exn + A) * state.

Definition ret {A} (a : A) : M A := λ s, (inr a, s).

Definition raise {A} (e : exn) : M A := λ s, (inl e, s).

Definition bind {A B} (c : M A) (k : A → M B) : M B := λ s,
  match c s with
  | (inr a, s') => k a s'
  | (inl e, s') => (inl e, s')
  end.

Notation "x <- c ;; k" := (bind c (λ x, k))
  (at level 100, c at next level, right associativity).
Notation "c ;;; k" := (bind c (λ _, k))
  (at level 100, right associativity).

(** [try: c  except KeyError: handler] *)
Definition try_except_KeyError {A} (c : M A) (handler : M A) : M A := λ s,
  match c s with
  | (inl (KeyError _), s') => handler s'
  | r => r
  end.

(** ** Store primitives *)

(** [self._items] *)
Definition attr_items (self : loc) : M loc := λ s,
  match heap s !! self with
  | Some (MultiDictObj l) | Some (TrackableObj l _ _) => (inr l, s)
  | _ => (inl (AttributeError "_items"), s)
  end.

(** [self._items = l] *)
Definition set_attr_items (self : loc) (l : loc) : M unit := λ s,
  match heap s !! self with
  | Some (MultiDictObj _) => (inr (), set_heap <[self := MultiDictObj l]> s)
  | Some (TrackableObj _ t n) => (inr (), set_heap <[self := TrackableObj l t n]> s)
  | _ => (inl (AttributeError "_items"), s)
  end.

(** The contents of the list object at [l]. *)
Definition read_list (l : loc) : M (list (K * V)) := λ s,
  match heap s !! l with
  | Some (PyList xs) => (inr xs, s)
  | _ => (inl (TypeError "not a list"), s)
  end.

(** In-place mutation of the list object at [l]. *)
Definition write_list (l : loc) (xs : list (K * V)) : M unit := λ s,
  match heap s !! l with
  | Some (PyList _) => (inr (), set_heap <[l := PyList xs]> s)
  | _ => (inl (TypeError "not a list"), s)
  end.

(** A new object, at a reference not in use. *)
Definition alloc (o : pyobj) : M loc := λ s,
  let l := fresh (dom (heap s)) in (inr l, set_heap <[l := o]> s).

(** [warnings.warn(msg, UserWarning)] *)
Definition warn (msg : string) : M unit := λ s,
  (inr (), {| heap := heap s; calls := calls s; warnings := warnings s ++ [msg] |}).

(** ** MultiDict *)

(** [__getitem__]: [for k, v in reversed(self._items): if k == key: return v] *)
Fixpoint getitem_scan (key : K) (reversed_items : list (K * V)) : option V :=
  match reversed_items with
  | [] => None
  | (k, v) :: rest => if decide (k = key) then Some v else getitem_scan key rest
  end.

Definition MultiDict_getitem (self : loc) (key : K) : M V :=
  l <- attr_items self ;;
  items <- read_list l ;;
  match getitem_scan key (reverse items) with
  | Some v => ret v
  | None => raise (KeyError (KeyArg key))
  end.

(** [add]: [self._items.append((key, value))] *)
Definition MultiDict_add (self : loc) (key : K) (value : V) : M unit :=
  l <- attr_items self ;;
  items <- read_list l ;;
  write_list l (items ++ [(key, value)]).

(** [getall]: the loop appends to [result] each value whose key matches. *)
Fixpoint getall_loop (key : K) (items : list (K * V)) (result : list V) : list V :=
  match items with
  | [] => result
  | (k, v) :: rest =>
      getall_loop key rest (if decide (key = k) then result ++ [v] else result)
  end.

Definition MultiDict_getall (self : loc) (key : K) : M (list V) :=
  l <- attr_items self ;;
  items <- read_list l ;;
  ret (getall_loop key items []).

(** [prefix + '%r' % key]: the operand of [%] is the key itself, so a key
    that is a tuple is taken as the tuple of the arguments of the format,
    which has one [%r]. *)
Definition format_key (prefix : string) (key : K) : exn + string :=
  match tuple_reprs key with
  | None => inr (prefix +:+ repr_key key)
  | Some [r] => inr (prefix +:+ r)
  | Some [] => inl (TypeError "not enough arguments for format string")
  | Some (_ :: _ :: _) =>
      inl (TypeError "not all arguments converted during string formatting")
  end.

(** [getone], over the [getall] of the object's class.  The second message
    is formatted with [% (key, v)]. *)
Definition getone_of (getall : loc → K → M (list V)) (self : loc) (key : K) : M V :=
  v <- getall self key ;;
  match v with
  | [] =>
      match format_key "Key not found: " key with
      | inr msg => raise (KeyError (MsgArg msg))
      | inl e => raise e
      end
  | v0 :: rest =>
      if decide (1 < length v) then
        raise (KeyError (MsgArg ("Multiple values match " +:+ repr_key key
                                   +:+ ": " +:+ repr_list v)))
      else ret v0
  end.

Definition MultiDict_getone : loc → K → M V := getone_of MultiDict_getall.

(** [__delitem__]: [for i in range(len(items)-1, -1, -1)], deleting in place
    every index whose key matches. *)
Fixpoint delitem_loop (key : K) (indices : list nat) (items : list (K * V))
    (found : bool) : exn + (list (K * V) * bool) :=
  match indices with
  | [] => inr (items, found)
  | i :: rest =>
      match items !! i with
      | Some (k, _) =>
          if decide (k = key) then delitem_loop key rest (delete i items) true
          else delitem_loop key rest items found
      | None => inl (IndexError "list index out of range")
      end
  end.

Definition MultiDict_delitem (self : loc) (key : K) : M unit :=
  l <- attr_items self ;;
  items <- read_list l ;;
  match delitem_loop key (reverse (seq 0 (length items))) items false with
  | inl e => raise e
  | inr (items', found) =>
      write_list l items' ;;;
      if found then ret () else raise (KeyError (KeyArg key))
  end.

(** [__contains__] *)
Fixpoint contains_scan (key : K) (items : list (K * V)) : bool :=
  match items with
  | [] => false
  | (k, _) :: rest => if decide (k = key) then true else contains_scan key rest
  end.

Definition MultiDict_contains (self : loc) (key : K) : M bool :=
  l <- attr_items self ;;
  items <- read_list l ;;
  ret (contains_scan key items).

(** [clear]: [self._items = []], a new list; the old one is left as it is. *)
Definition MultiDict_clear (self : loc) : M unit :=
  l <- alloc (PyList []) ;;
  set_attr_items self l.

(** [setdefault] *)
Fixpoint setdefault_scan (key : K) (items : list (K * V)) : option V :=
  match items with
  | [] => None
  | (k, v) :: rest => if decide (key = k) then Some v else setdefault_scan key rest
  end.

Definition MultiDict_setdefault (self : loc) (key : K) (default : V) : M V :=
  l <- attr_items self ;;
  items <- read_list l ;;
  match setdefault_scan key items with
  | Some v => ret v
  | None => write_list l (items ++ [(key, default)]) ;;; ret default
  end.

(** [pop]: [for i in range(len(self._items))], the first index whose key
    matches is deleted and its value returned. *)
Fixpoint pop_loop (key : K) (indices : list nat) (items : list (K * V))
    : exn + option (V * list (K * V)) :=
  match indices with
  | [] => inr None
  | i :: rest =>
      match items !! i with
      | Some (k, v) =>
          if decide (k = key) then inr (Some (v, delete i items))
          else pop_loop key rest items
      | None => inl (IndexError "list index out of range")
      end
  end.

Definition MultiDict_pop (self : loc) (key : K) (args : list V) : M V :=
  if decide (1 < length args) then
    raise (TypeError ("pop expected at most 2 arguments, got "
                      +:+ pretty (1 + length args)))
  else
    l <- attr_items self ;;
    items <- read_list l ;;
    match pop_loop key (seq 0 (length items)) items with
    | inl e => raise e
    | inr (Some (v, items')) => write_list l items' ;;; ret v
    | inr None =>
        match args with
        | default :: _ => ret default
        | [] => raise (KeyError (KeyArg key))
        end
    end.

(** [popitem]: [self._items.pop()]; [list.pop] raises [IndexError] on an
    empty list. *)
Definition list_pop (items : list (K * V)) : exn + ((K * V) * list (K * V)) :=
  match last items with
  | Some x => inr (x, removelast items)
  | None => inl (IndexError "pop from empty list")
  end.

Definition MultiDict_popitem (self : loc) : M (K * V) :=
  l <- attr_items self ;;
  items <- read_list l ;;
  match list_pop items with
  | inl e => raise e
  | inr (item, items') => write_list l items' ;;; ret item
  end.

(** [__len__] *)
Definition MultiDict_len (self : loc) : M nat :=
  l <- attr_items self ;;
  items <- read_list l ;;
  ret (length items).

(** [items]: [self._items[:]], a new list object with the same pairs. *)
Definition MultiDict_items (self : loc) : M loc :=
  l <- attr_items self ;;
  items <- read_list l ;;
  alloc (PyList items).

(** [list(self.iteritems())]: the pairs of the backing list, in order. *)
Definition MultiDict_iteritems (self : loc) : M (list (K * V)) :=
  l <- attr_items self ;;
  read_list l.

(** [keys] and [values] *)
Definition MultiDict_keys (self : loc) : M (list K) :=
  l <- attr_items self ;;
  items <- read_list l ;;
  ret (items.*1).

Definition MultiDict_values (self : loc) : M (list V) :=
  l <- attr_items self ;;
  items <- read_list l ;;
  ret (items.*2).

(** [extend] with a sequence of pairs: [for k, v in other:
    self._items.append((k, v))].  [self._items] is read in the body of the
    loop, so not at all when the sequence is empty.  ([other] left out is
    [None].) *)
Definition extend_loop (items other : list (K * V)) : list (K * V) :=
  foldl (λ acc kv, acc ++ [kv]) items other.

Definition MultiDict_extend (self : loc) (other : option (list (K * V))) : M unit :=
  match other with
  | None | Some [] => ret ()
  | Some pairs =>
      l <- attr_items self ;;
      items <- read_list l ;;
      write_list l (extend_loop items pairs)
  end.

(** ** The calls that mutate a container, with their arguments *)

Inductive mutation :=
| m_setitem (key : K) (value : V)
| m_add (key : K) (value : V)
| m_delitem (key : K)
| m_clear
| m_setdefault (key : K) (default : V)
| m_pop (key : K) (args : list V)
| m_popitem
| m_update (other : option (list (K * V)))
| m_extend (other : option (list (K * V))).

(** ** NestedMultiDict: the read-only methods *)

(** [_readonly(self, *args, **kw)], bound to [__setitem__], [add],
    [__delitem__], [clear], [setdefault], [pop], [popitem] and [update]. *)
Definition NestedMultiDict__readonly {A} (self : loc) (call : mutation) : M A :=
  raise (KeyError (MsgArg "NestedMultiDict objects are read-only")).

(** ** NoVars *)

(** [self.reason] *)
Definition attr_reason (self : loc) : M string := λ s,
  match heap s !! self with
  | Some (NoVarsObj reason) => (inr reason, s)
  | _ => (inl (AttributeError "reason"), s)
  end.

(** [NoVars(reason)]: [self.reason = reason or 'N/A'] *)
Definition NoVars_new (reason : option string) : M loc :=
  alloc (NoVarsObj (match reason with
                    | Some r => if decide (r = "") then "N/A" else r
                    | None => "N/A"
                    end)).

Definition NoVars_getitem (self : loc) (key : K) : M V :=
  reason <- attr_reason self ;;
  raise (KeyError (MsgArg ("No key " +:+ repr_key key +:+ ": " +:+ reason))).

(** [__setitem__(self, *args, **kw)], also bound to [add], [setdefault] and
    [update]. *)
Definition NoVars_setitem {A} (self : loc) (call : mutation) : M A :=
  reason <- attr_reason self ;;
  raise (KeyError (MsgArg ("Cannot add variables: " +:+ reason))).

(** [__delitem__(self, *args, **kw)], also bound to [clear], [pop] and
    [popitem]. *)
Definition NoVars_delitem {A} (self : loc) (call : mutation) : M A :=
  reason <- attr_reason self ;;
  raise (KeyError (MsgArg ("No keys to delete: " +:+ reason))).

(** [get(self, key, default)]: the default, here [None] of the option. *)
Definition NoVars_get (self : loc) (key : K) : M (option V) := ret None.

Definition NoVars_getall (self : loc) (key : K) : M (list V) := ret [].

Definition NoVars_getone (self : loc) (key : K) : M V := NoVars_getitem self key.

Definition NoVars_contains (self : loc) (key : K) : M bool := ret false.

Definition NoVars_copy (self : loc) : M loc := ret self.

Definition NoVars_len (self : loc) : M nat := ret 0.

Definition NoVars_keys (self : loc) : M (list K) := ret [].

(** ** TrackableMultiDict *)

(** [self.tracker(self, *args)]: the class attribute [tracker = None] is
    what an instance without a registered tracker calls. *)
Definition call_tracker (self : loc) (args : list tracker_arg) : M unit := λ s,
  match heap s !! self with
  | Some (TrackableObj _ (Some cb) _) =>
      (inr (), {| heap := heap s;
                  calls := calls s ++ [Call cb self args];
                  warnings := warnings s |})
  | Some (TrackableObj _ None _) =>
      (inl (TypeError "'NoneType' object is not callable"), s)
  | _ => (inl (AttributeError "tracker"), s)
  end.

Definition TrackableMultiDict_add (self : loc) (key : K) (value : V) : M unit :=
  MultiDict_add self key value ;;;
  call_tracker self [AKey key; AVal value].

Definition TrackableMultiDict_delitem (self : loc) (key : K) : M unit :=
  MultiDict_delitem self key ;;;
  call_tracker self [AKey key].

Definition TrackableMultiDict_clear (self : loc) : M unit :=
  MultiDict_clear self ;;;
  call_tracker self [].

Definition TrackableMultiDict_setdefault (self : loc) (key : K) (default : V) : M V :=
  result <- MultiDict_setdefault self key default ;;
  call_tracker self [AKey key; AVal result] ;;;
  ret result.

Definition TrackableMultiDict_pop (self : loc) (key : K) (args : list V) : M V :=
  result <- MultiDict_pop self key args ;;
  call_tracker self [AKey key] ;;;
  ret result.

Definition TrackableMultiDict_popitem (self : loc) : M (K * V) :=
  result <- MultiDict_popitem self ;;
  call_tracker self [] ;;;
  ret result.

(** ** Method resolution for the calls a method makes on [self] *)

(** [del self[key]], by the class of [self]. *)
Definition delitem (self : loc) (key : K) : M unit := λ s,
  match heap s !! self with
  | Some (MultiDictObj _) => MultiDict_delitem self key s
  | Some (TrackableObj _ _ _) => TrackableMultiDict_delitem self key s
  | Some (NestedObj _) => NestedMultiDict__readonly self (m_delitem key) s
  | Some (NoVarsObj _) => NoVars_delitem self (m_delitem key) s
  | _ => (inl (TypeError "object does not support item deletion"), s)
  end.

(** [MultiDict.__setitem__]: [del self[key]] is resolved on the class of
    [self], and a [KeyError] from it is swallowed. *)
Definition MultiDict_setitem (self : loc) (key : K) (value : V) : M unit :=
  try_except_KeyError (delitem self key) (ret ()) ;;;
  l <- attr_items self ;;
  items <- read_list l ;;
  write_list l (items ++ [(key, value)]).

Definition TrackableMultiDict_setitem (self : loc) (key : K) (value : V) : M unit :=
  MultiDict_setitem self key value ;;;
  call_tracker self [AKey key; AVal value].

(** [self[key] = value], by the class of [self]. *)
Definition setitem (self : loc) (key : K) (value : V) : M unit := λ s,
  match heap s !! self with
  | Some (MultiDictObj _) => MultiDict_setitem self key value s
  | Some (TrackableObj _ _ _) => TrackableMultiDict_setitem self key value s
  | Some (NestedObj _) => NestedMultiDict__readonly self (m_setitem key value) s
  | Some (NoVarsObj _) => NoVars_setitem self (m_setitem key value) s
  | _ => (inl (TypeError "object does not support item assignment"), s)
  end.

(** [DictMixin.update] of the Python standard library, for a sequence of
    pairs: [for k, v in other: self[k] = v]. *)
Fixpoint DictMixin_update_loop (self : loc) (other : list (K * V)) : M unit :=
  match other with
  | [] => ret ()
  | (k, v) :: rest => setitem self k v ;;; DictMixin_update_loop self rest
  end.

Definition DictMixin_update (self : loc) (other : option (list (K * V))) : M unit :=
  match other with
  | None => ret ()
  | Some pairs => DictMixin_update_loop self pairs
  end.

(** [MultiDict.update]: [dict(lst)] hashes the keys of [lst] and raises
    [TypeError('unhashable type: ...')] when one of them cannot be hashed
    (the name of the type, which ends the message, is left out), before
    anything is assigned.  Otherwise [len(lst) != len(dict(lst))] holds
    when a key occurs twice in [lst]; the warning is emitted and the update
    goes on. *)
Definition MultiDict_update (self : loc) (other : option (list (K * V))) : M unit :=
  match other with
  | Some lst =>
      if forallb hashable (lst.*1) then
        if decide (length lst ≠ length (remove_dups (lst.*1))) then
          warn "Behavior of MultiDict.update() has changed and overwrites duplicate keys. Consider using .extend()"
        else ret ()
      else raise (TypeError "unhashable type")
  | None => ret ()
  end ;;;
  DictMixin_update self other.

Definition TrackableMultiDict_update (self : loc) (other : option (list (K * V))) : M unit :=
  MultiDict_update self other ;;;
  call_tracker self [].

(** ** A mutating call on an object, by its class

    MultiDict defines all nine; TrackableMultiDict overrides eight of them
    and inherits [extend]; NestedMultiDict binds eight to [_readonly] and
    inherits [extend]; NoVars binds eight and has no [extend]. *)

Definition MultiDict_call (self : loc) (m : mutation) : M retval :=
  match m with
  | m_setitem key value => MultiDict_setitem self key value ;;; ret RNone
  | m_add key value => MultiDict_add self key value ;;; ret RNone
  | m_delitem key => MultiDict_delitem self key ;;; ret RNone
  | m_clear => MultiDict_clear self ;;; ret RNone
  | m_setdefault key default => v <- MultiDict_setdefault self key default ;; ret (RVal v)
  | m_pop key args => v <- MultiDict_pop self key args ;; ret (RVal v)
  | m_popitem => kv <- MultiDict_popitem self ;; ret (RItem kv.1 kv.2)
  | m_update other => MultiDict_update self other ;;; ret RNone
  | m_extend other => MultiDict_extend self other ;;; ret RNone
  end.

Definition TrackableMultiDict_call (self : loc) (m : mutation) : M retval :=
  match m with
  | m_setitem key value => TrackableMultiDict_setitem self key value ;;; ret RNone
  | m_add key value => TrackableMultiDict_add self key value ;;; ret RNone
  | m_delitem key => TrackableMultiDict_delitem self key ;;; ret RNone
  | m_clear => TrackableMultiDict_clear self ;;; ret RNone
  | m_setdefault key default =>
      v <- TrackableMultiDict_setdefault self key default ;; ret (RVal v)
  | m_pop key args => v <- TrackableMultiDict_pop self key args ;; ret (RVal v)
  | m_popitem => kv <- TrackableMultiDict_popitem self ;; ret (RItem kv.1 kv.2)
  | m_update other => TrackableMultiDict_update self other ;;; ret RNone
  | m_extend other => MultiDict_extend self other ;;; ret RNone
  end.

Definition NestedMultiDict_call (self : loc) (m : mutation) : M retval :=
  match m with
  | m_extend other => MultiDict_extend self other ;;; ret RNone
  | _ => NestedMultiDict__readonly self m
  end.

Definition NoVars_call (self : loc) (m : mutation) : M retval :=
  match m with
  | m_setitem _ _ | m_add _ _ | m_setdefault _ _ | m_update _ => NoVars_setitem self m
  | m_delitem _ | m_clear | m_pop _ _ | m_popitem => NoVars_delitem self m
  | m_extend _ => raise (AttributeError "'NoVars' object has no attribute 'extend'")
  end.

Definition call (self : loc) (m : mutation) : M retval := λ s,
  match heap s !! self with
  | Some (MultiDictObj _) => MultiDict_call self m s
  | Some (TrackableObj _ _ _) => TrackableMultiDict_call self m s
  | Some (NestedObj _) => NestedMultiDict_call self m s
  | Some (NoVarsObj _) => NoVars_call self m s
  | _ => (inl (AttributeError "not a container"), s)
  end.

(** ** NestedMultiDict: the reads

    A component is any container of the family, a NestedMultiDict among
    them, so the reads recurse through the components.  [fuel] bounds the
    depth of that recursion, as Python's recursion limit does. *)

(** [self.dicts] *)
Definition attr_dicts (self : loc) : M (list loc) := λ s,
  match heap s !! self with
  | Some (NestedObj dicts) => (inr dicts, s)
  | _ => (inl (AttributeError "dicts"), s)
  end.

(** [DictMixin.get] of the Python standard library: [try: return self[key]
    except KeyError: return default].  The default passed by
    [NestedMultiDict.__getitem__] is the private object [_dummy], which no
    container holds as a value: [None] stands for it. *)
Definition DictMixin_get (getitem : loc → K → M V) (self : loc) (key : K)
    : M (option V) :=
  try_except_KeyError (v <- getitem self key ;; ret (Some v)) (ret None).

(** [d.get(key, _dummy)], by the class of [d]. *)
Definition get_of (getitem : loc → K → M V) (d : loc) (key : K) : M (option V) := λ s,
  match heap s !! d with
  | Some (NoVarsObj _) => NoVars_get d key s
  | Some (PyList _) | None => (inl (AttributeError "get"), s)
  | Some _ => DictMixin_get getitem d key s
  end.

(** [__getitem__]: the first component whose [get] does not answer [_dummy]. *)
Fixpoint NestedMultiDict_getitem_loop (get : loc → K → M (option V))
    (dicts : list loc) (key : K) : M V :=
  match dicts with
  | [] => raise (KeyError (KeyArg key))
  | d :: rest =>
      value <- get d key ;;
      match value with
      | Some v => ret v
      | None => NestedMultiDict_getitem_loop get rest key
      end
  end.

Definition NestedMultiDict_getitem (get : loc → K → M (option V))
    (self : loc) (key : K) : M V :=
  dicts <- attr_dicts self ;;
  NestedMultiDict_getitem_loop get dicts key.

(** [getall]: [result.extend(d.getall(key))] for each component. *)
Fixpoint NestedMultiDict_getall_loop (getall : loc → K → M (list V))
    (dicts : list loc) (key : K) (result : list V) : M (list V) :=
  match dicts with
  | [] => ret result
  | d :: rest =>
      r <- getall d key ;;
      NestedMultiDict_getall_loop getall rest key (result ++ r)
  end.

Definition NestedMultiDict_getall (getall : loc → K → M (list V))
    (self : loc) (key : K) : M (list V) :=
  dicts <- attr_dicts self ;;
  NestedMultiDict_getall_loop getall dicts key [].

(** [__contains__] *)
Fixpoint NestedMultiDict_contains_loop (contains : loc → K → M bool)
    (dicts : list loc) (key : K) : M bool :=
  match dicts with
  | [] => ret false
  | d :: rest =>
      b <- contains d key ;;
      if b then ret true else NestedMultiDict_contains_loop contains rest key
  end.

Definition NestedMultiDict_contains (contains : loc → K → M bool)
    (self : loc) (key : K) : M bool :=
  dicts <- attr_dicts self ;;
  NestedMultiDict_contains_loop contains dicts key.

(** [__len__]: [v += len(d)] for each component. *)
Fixpoint NestedMultiDict_len_loop (len : loc → M nat) (dicts : list loc) (v : nat)
    : M nat :=
  match dicts with
  | [] => ret v
  | d :: rest => n <- len d ;; NestedMultiDict_len_loop len rest (v + n)
  end.

Definition NestedMultiDict_len (len : loc → M nat) (self : loc) : M nat :=
  dicts <- attr_dicts self ;;
  NestedMultiDict_len_loop len dicts 0.

(** [list(self.iteritems())]: the components' items, one component after
    the other. *)
Fixpoint NestedMultiDict_iteritems_loop (iteritems : loc → M (list (K * V)))
    (dicts : list loc) : M (list (K * V)) :=
  match dicts with
  | [] => ret []
  | d :: rest =>
      xs <- iteritems d ;;
      ys <- NestedMultiDict_iteritems_loop iteritems rest ;;
      ret (xs ++ ys)
  end.

Definition NestedMultiDict_iteritems (iteritems : loc → M (list (K * V)))
    (self : loc) : M (list (K * V)) :=
  dicts <- attr_dicts self ;;
  NestedMultiDict_iteritems_loop iteritems dicts.

(** [NestedMultiDict.__init__]: [self.dicts = dicts], the positional
    arguments. *)
Definition NestedMultiDict_new (dicts : list loc) : M loc :=
  alloc (NestedObj dicts).

(** ** The reads of a container, by its class *)

Definition too_deep {A} : M A :=
  raise (RuntimeError "maximum recursion depth exceeded").

(** [self[key]] *)
Fixpoint getitem (fuel : nat) (self : loc) (key : K) : M V :=
  match fuel with
  | 0 => too_deep
  | S fuel' => λ s,
      match heap s !! self with
      | Some (MultiDictObj _) | Some (TrackableObj _ _ _) => MultiDict_getitem self key s
      | Some (NestedObj _) => NestedMultiDict_getitem (get_of (getitem fuel')) self key s
      | Some (NoVarsObj _) => NoVars_getitem self key s
      | _ => (inl (TypeError "object is not subscriptable"), s)
      end
  end.

(** [self.get(key, _dummy)] *)
Definition get (fuel : nat) (self : loc) (key : K) : M (option V) :=
  get_of (getitem fuel) self key.

(** [self.getall(key)] *)
Fixpoint getall (fuel : nat) (self : loc) (key : K) : M (list V) :=
  match fuel with
  | 0 => too_deep
  | S fuel' => λ s,
      match heap s !! self with
      | Some (MultiDictObj _) | Some (TrackableObj _ _ _) => MultiDict_getall self key s
      | Some (NestedObj _) => NestedMultiDict_getall (getall fuel') self key s
      | Some (NoVarsObj _) => NoVars_getall self key s
      | _ => (inl (AttributeError "getall"), s)
      end
  end.

(** [self.getone(key)]: NestedMultiDict inherits MultiDict's, over its own
    [getall]. *)
Definition getone (fuel : nat) (self : loc) (key : K) : M V := λ s,
  match heap s !! self with
  | Some (NoVarsObj _) => NoVars_getone self key s
  | Some (PyList _) | None => (inl (AttributeError "getone"), s)
  | Some _ => getone_of (getall fuel) self key s
  end.

(** [key in self] *)
Fixpoint contains (fuel : nat) (self : loc) (key : K) : M bool :=
  match fuel with
  | 0 => too_deep
  | S fuel' => λ s,
      match heap s !! self with
      | Some (MultiDictObj _) | Some (TrackableObj _ _ _) => MultiDict_contains self key s
      | Some (NestedObj _) => NestedMultiDict_contains (contains fuel') self key s
      | Some (NoVarsObj _) => NoVars_contains self key s
      | _ => (inl (AttributeError "not a container"), s)
      end
  end.

(** [len(self)] *)
Fixpoint len (fuel : nat) (self : loc) : M nat :=
  match fuel with
  | 0 => too_deep
  | S fuel' => λ s,
      match heap s !! self with
      | Some (PyList xs) => (inr (length xs), s)
      | Some (MultiDictObj _) | Some (TrackableObj _ _ _) => MultiDict_len self s
      | Some (NestedObj _) => NestedMultiDict_len (len fuel') self s
      | Some (NoVarsObj _) => NoVars_len self s
      | None => (inl (TypeError "object has no len()"), s)
      end
  end.

(** [list(self.iteritems())] *)
Fixpoint iteritems (fuel : nat) (self : loc) : M (list (K * V)) :=
  match fuel with
  | 0 => too_deep
  | S fuel' => λ s,
      match heap s !! self with
      | Some (MultiDictObj _) | Some (TrackableObj _ _ _) => MultiDict_iteritems self s
      | Some (NestedObj _) => NestedMultiDict_iteritems (iteritems fuel') self s
      | Some (NoVarsObj _) => (inr [], s)
      | _ => (inl (AttributeError "iteritems"), s)
      end
  end.

(** ** Construction and copies *)

(** A list object built by the caller. *)
Definition new_list (xs : list (K * V)) : M loc := alloc (PyList xs).

(** The items [MultiDict.__init__] takes from its argument: every container
    of the family has [iteritems], a list is enumerated as it is. *)
Definition init_items (fuel : nat) (arg : loc) : M (list (K * V)) := λ s,
  match heap s !! arg with
  | Some (PyList xs) => (inr xs, s)
  | Some _ => iteritems fuel arg s
  | None => (inl (TypeError "object is not iterable"), s)
  end.

(** [MultiDict.__init__] with positional arguments [args]: [self._items]
    is a list of its own ([list(...)]).  Keyword arguments, whose keys are
    strings, are outside the model, here and in [update] and [extend]. *)
Definition MultiDict_new (fuel : nat) (args : list loc) : M loc :=
  match args with
  | _ :: _ :: _ =>
      raise (TypeError "MultiDict can only be called with one positional argument")
  | [arg] =>
      items <- init_items fuel arg ;;
      l <- alloc (PyList items) ;;
      alloc (MultiDictObj l)
  | [] =>
      l <- alloc (PyList []) ;;
      alloc (MultiDictObj l)
  end.

(** [TrackableMultiDict.__init__], with the keywords [__tracker] and
    [__name]. *)
Definition TrackableMultiDict_new (fuel : nat) (args : list loc)
    (tracker : option callback) (name : option string) : M loc :=
  match args with
  | _ :: _ :: _ =>
      raise (TypeError "MultiDict can only be called with one positional argument")
  | [arg] =>
      items <- init_items fuel arg ;;
      l <- alloc (PyList items) ;;
      alloc (TrackableObj l tracker name)
  | [] =>
      l <- alloc (PyList []) ;;
      alloc (TrackableObj l tracker name)
  end.

(** [MultiDict.view_list(lst)]: the new object's [_items] is [lst] itself.
    (The message of the [TypeError] ends with the [repr] of the object
    passed, left out here.) *)
Definition MultiDict_view_list (lst : loc) : M loc := λ s,
  match heap s !! lst with
  | Some (PyList _) =>
      (obj <- MultiDict_new 0 [] ;; set_attr_items obj lst ;;; ret obj) s
  | _ => (inl (TypeError "MultiDict.view_list(obj) takes only actual list objects"), s)
  end.

(** [copy]: [self.__class__(self)] for a MultiDict, [MultiDict(self)] for a
    TrackableMultiDict and a NestedMultiDict, [self] for a NoVars. *)
Definition copy (fuel : nat) (self : loc) : M loc := λ s,
  match heap s !! self with
  | Some (MultiDictObj _) | Some (TrackableObj _ _ _) | Some (NestedObj _) =>
      MultiDict_new fuel [self] s
  | Some (NoVarsObj _) => NoVars_copy self s
  | _ => (inl (AttributeError "copy"), s)
  end.

(** [self.items()]: always a new list. *)
Definition items (fuel : nat) (self : loc) : M loc := λ s,
  match heap s !! self with
  | Some (MultiDictObj _) | Some (TrackableObj _ _ _) => MultiDict_items self s
  | Some (NestedObj _) => (xs <- iteritems fuel self ;; alloc (PyList xs)) s
  | Some (NoVarsObj _) => alloc (PyList []) s
  | _ => (inl (AttributeError "items"), s)
  end.

(** ** Truth value *)

(** [NestedMultiDict.__nonzero__]: [if d: return True] over the components. *)
Fixpoint NestedMultiDict_nonzero_loop (truth : loc → M bool) (dicts : list loc)
    : M bool :=
  match dicts with
  | [] => ret false
  | d :: rest =>
      b <- truth d ;;
      if b then ret true else NestedMultiDict_nonzero_loop truth rest
  end.

Definition NestedMultiDict_nonzero (truth : loc → M bool) (self : loc) : M bool :=
  dicts <- attr_dicts self ;;
  NestedMultiDict_nonzero_loop truth dicts.

(** [bool(self)], as [if d:] takes it: a NestedMultiDict has [__nonzero__];
    MultiDict, TrackableMultiDict and NoVars have [__len__] only, and so has
    a list; any other object is true. *)
Fixpoint truth (fuel : nat) (self : loc) : M bool :=
  match fuel with
  | 0 => too_deep
  | S fuel' => λ s,
      match heap s !! self with
      | Some (PyList xs) => (inr (bool_decide (length xs ≠ 0)), s)
      | Some (MultiDictObj _) | Some (TrackableObj _ _ _) =>
          (n <- MultiDict_len self ;; ret (bool_decide (n ≠ 0))) s
      | Some (NestedObj _) => NestedMultiDict_nonzero (truth fuel') self s
      | Some (NoVarsObj _) => (n <- NoVars_len self ;; ret (bool_decide (n ≠ 0))) s
      | None => (inr true, s)
      end
  end.

(** ** Vocabulary of the statements *)

(** In [s], [self] is a TrackableMultiDict made without [__tracker]: its
    [tracker] is the class attribute, [None]. *)
Definition is_untracked (s : state) (self l : loc) (name : option string)
    (xs : list (K * V)) : Prop :=
  heap s !! self = Some (TrackableObj l None name)
  ∧ heap s !! l = Some (PyList xs).

(** The values stored under [key], in the order of the pairs. *)
Definition values_of (key : K) (items : list (K * V)) : list V :=
  (filter (λ kv, kv.1 = key) items).*2.

(** The pairs whose key is not [key], in their order. *)
Definition without (key : K) (items : list (K * V)) : list (K * V) :=
  filter (λ kv, kv.1 ≠ key) items.

(** The list object a MultiDict or TrackableMultiDict is backed by. *)
Definition backing (s : state) (self : loc) : option loc :=
  match heap s !! self with
  | Some (MultiDictObj l) | Some (TrackableObj l _ _) => Some l
  | _ => None
  end.

(** In [s], [self] is a MultiDict (or TrackableMultiDict) whose [_items] is
    the list object [l], holding the pairs [xs]. *)
Definition has_items (s : state) (self l : loc) (xs : list (K * V)) : Prop :=
  backing s self = Some l ∧ heap s !! l = Some (PyList xs).

(** [s] with the list object at [l] holding [xs]. *)
Definition store (l : loc) (xs : list (K * V)) (s : state) : state :=
  set_heap <[l := PyList xs]> s.

(** [s] after the calls [evs] of a tracker. *)
Definition notified (evs : list event) (s : state) : state :=
  {| heap := heap s; calls := calls s ++ evs; warnings := warnings s |}.

Definition is_extend (m : mutation) : bool :=
  match m with
  | m_extend _ => true
  | _ => false
  end.

(** In [s], [self] is a plain MultiDict backed by the list object [l], which
    holds the pairs [xs]. *)
Definition is_plain (s : state) (self l : loc) (xs : list (K * V)) : Prop :=
  heap s !! self = Some (MultiDictObj l) ∧ heap s !! l = Some (PyList xs).

(** In [s], [self] is a TrackableMultiDict with the registered tracker [cb],
    backed by the list object [l], which holds the pairs [xs]. *)
Definition is_tracked (s : state) (self l : loc) (cb : callback)
    (name : option string) (xs : list (K * V)) : Prop :=
  heap s !! self = Some (TrackableObj l (Some cb) name)
  ∧ heap s !! l = Some (PyList xs).

(** The pairs of [self] in [s], when [self] is a MultiDict. *)
Definition entries (s : state) (self : loc) : option (list (K * V)) :=
  match backing s self with
  | Some l =>
      match heap s !! l with
      | Some (PyList xs) => Some xs
      | _ => None
      end
  | None => None
  end.

(** The arguments a TrackableMultiDict passes to its tracker after [self],
    at the end of the call [m] that returned [r]. *)
Definition notification (m : mutation) (r : retval) : list tracker_arg :=
  match m, r with
  | m_setitem key value, _ | m_add key value, _ => [AKey key; AVal value]
  | m_delitem key, _ | m_pop key _, _ => [AKey key]
  | m_setdefault key _, RVal result => [AKey key; AVal result]
  | _, _ => []
  end.

(** The pairs after [self[key] = value]. *)
Definition set_entries (key : K) (value : V) (xs : list (K * V)) : list (K * V) :=
  without key xs ++ [(key, value)].

(** [self[key] = value] on a TrackableMultiDict runs [del self[key]] of its
    own class, which calls the tracker when the key was there. *)
Definition set_extra (cb : callback) (self : loc) (key : K) (xs : list (K * V))
    : list event :=
  if bool_decide (key ∈ xs.*1) then [Call cb self [AKey key]] else [].

(** The pairs after [update] with the pairs [pairs], and the calls of the
    tracker its assignments make on a TrackableMultiDict. *)
Fixpoint update_entries (pairs xs : list (K * V)) : list (K * V) :=
  match pairs with
  | [] => xs
  | (k, v) :: rest => update_entries rest (set_entries k v xs)
  end.

Fixpoint update_events (cb : callback) (self : loc) (pairs xs : list (K * V))
    : list event :=
  match pairs with
  | [] => []
  | (k, v) :: rest =>
      set_extra cb self k xs ++ [Call cb self [AKey k; AVal v]]
        ++ update_events cb self rest (set_entries k v xs)
  end.

(** The calls of the tracker a call makes before the one it ends with. *)
Definition extra_events (cb : callback) (self : loc) (m : mutation)
    (xs : list (K * V)) : list event :=
  match m with
  | m_setitem key _ => set_extra cb self key xs
  | m_update (Some pairs) => update_events cb self pairs xs
  | _ => []
  end.

(** What a call does on the pairs [xs] of a plain MultiDict: the exception,
    or the value returned and the pairs left. *)
Definition apply_mutation (m : mutation) (xs : list (K * V))
    : exn + (retval * list (K * V)) :=
  match m with
  | m_setitem key value => inr (RNone, set_entries key value xs)
  | m_add key value => inr (RNone, xs ++ [(key, value)])
  | m_delitem key =>
      if bool_decide (key ∈ xs.*1) then inr (RNone, without key xs)
      else inl (KeyError (KeyArg key))
  | m_clear => inr (RNone, [])
  | m_setdefault key default =>
      match setdefault_scan key xs with
      | Some v => inr (RVal v, xs)
      | None => inr (RVal default, xs ++ [(key, default)])
      end
  | m_pop key args =>
      if decide (1 < length args) then
        inl (TypeError ("pop expected at most 2 arguments, got "
                        +:+ pretty (1 + length args)))
      else
        match pop_loop key (seq 0 (length xs)) xs with
        | inl e => inl e
        | inr (Some (v, xs')) => inr (RVal v, xs')
        | inr None =>
            match args with
            | default :: _ => inr (RVal default, xs)
            | [] => inl (KeyError (KeyArg key))
            end
        end
  | m_popitem =>
      match list_pop xs with
      | inl e => inl e
      | inr (kv, xs') => inr (RItem kv.1 kv.2, xs')
      end
  | m_update other =>
      match other with
      | Some pairs =>
          if forallb hashable (pairs.*1) then inr (RNone, update_entries pairs xs)
          else inl (TypeError "unhashable type")
      | None => inr (RNone, xs)
      end
  | m_extend other =>
      inr (RNone, match other with
                  | Some pairs => xs ++ pairs
                  | None => xs
                  end)
  end.

(** The pairs a call leaves on a TrackableMultiDict without a tracker, for
    a call that on a plain MultiDict with the pairs [xs] returns and leaves
    [ys]: the call stops at the first call of the tracker, which for an
    assignment to a key that is there is the one of [del self[key]], and
    for [update] the one of its first assignment. *)
Definition untracked_entries (m : mutation) (xs ys : list (K * V)) : list (K * V) :=
  match m with
  | m_setitem key _ =>
      if bool_decide (key ∈ xs.*1) then without key xs else ys
  | m_update (Some ((key, value) :: _)) =>
      if bool_decide (key ∈ xs.*1) then without key xs else xs ++ [(key, value)]
  | _ => ys
  end.

(** A computation that leaves the store as it finds it, whatever it
    returns or raises. *)
Definition pure_read {A} (c : M A) : Prop := ∀ s, (c s).2 = s.

(** [sub] occurs in [msg]. *)
Definition includes (msg sub : string) : Prop :=
  ∃ pre post, msg = pre +:+ sub +:+ post.

End multidict.

Notation "x <- c ;; k" := (bind c (λ x, k))
  (at level 100, c at next level, right associativity).
Notation "c ;;; k" := (bind c (λ _, k))
  (at level 100, right associativity).

(** * The conversions to a Python dict

    [mixed] and [dict_of_lists] build a [dict]: a finite map, so the keys
    are hashable. *)

Section dictionaries.

Context {K V : Type} `{Countable K}.



(** A value of the dict [mixed] returns: a value of the MultiDict, or a
    list that [mixed] built. *)
#[local] Unset Elimination Schemes.
#[local] Set Elimination Schemes.






End dictionaries.

(** * [repr] of the containers

    [_hide_passwd] tests [in] on the key, which is the substring test when
    keys are strings. *)

Section representation.

Context {V : Type}.
Variable repr_key : string → string.
Variable repr_val : V → string.

(** [sub in k] for two strings. *)
Fixpoint str_in (sub k : string) : bool :=
  String.prefix sub k
  || match k with
     | EmptyString => false
     | String _ k' => str_in sub k'
     end.

(** The test of [_hide_passwd] on a key. *)
Definition hidden (k : string) : bool :=
  str_in "password" k || str_in "passwd" k || str_in "pwd" k.

(** [_hide_passwd(items)]: a value is left as it is or replaced by the
    string ['******']. *)
Definition _hide_passwd (items : list (string * V)) : list (string * (V + string)) :=
  (λ kv, if hidden kv.1 then (kv.1, inr "******") else (kv.1, inl kv.2)) <$> items.

(** ['(%r, %r)'.__mod__] on a pair. *)
Definition repr_item (kv : string * (V + string)) : string :=
  "(" +:+ repr_key kv.1 +:+ ", "
      +:+ match kv.2 with
          | inl v => repr_val v
          | inr str => repr_key str
          end
      +:+ ")".

(** ['%s([%s])' % (name, ', '.join(items))] *)
Definition repr_items (name : string) (items : list (string * V)) : string :=
  name +:+ "([" +:+ join_reprs (repr_item <$> _hide_passwd items) +:+ "])".

(** [self.name or self.__class__.__name__] *)
Definition display_name (name : option string) : string :=
  match name with
  | None | Some "" => "TrackableMultiDict"
  | Some n => n
  end.

(** [repr(self)], by the class of [self]: MultiDict's for a MultiDict and a
    NestedMultiDict, over [self.iteritems()]. *)
Definition repr (fuel : nat) (self : loc) : @M string V string := λ s,
  match heap s !! self with
  | Some (MultiDictObj _) =>
      (items <- iteritems fuel self ;; ret (repr_items "MultiDict" items)) s
  | Some (TrackableObj _ _ name) =>
      (items <- iteritems fuel self ;; ret (repr_items (display_name name) items)) s
  | Some (NestedObj _) =>
      (items <- iteritems fuel self ;; ret (repr_items "NestedMultiDict" items)) s
  | Some (NoVarsObj _) =>
      (reason <- attr_reason self ;; ret ("<NoVars: " +:+ reason +:+ ">")) s
  | _ => (inl (AttributeError "not a container"), s)
  end.

(** Two sequences of pairs with the same keys, whose values agree wherever
    the key is not hidden. *)
Definition same_shown (xs ys : list (string * V)) : Prop :=
  Forall2 (λ a b, a.1 = b.1 ∧ (hidden a.1 = false → a.2 = b.2)) xs ys.

End representation.

(** * A store of examples

    Keys are strings and values are numbers.  The store holds
    [d1 = MultiDict([('a', 1)])], [d2 = MultiDict([('a', 2), ('b', 3)])],
    [view = NestedMultiDict(d1, d2)], [novars = NoVars('no request body')],
    [tracked = TrackableMultiDict([('a', 1), ('b', 2), ('b', 3)])] with the
    tracker [0], [plain = MultiDict([('a', 1), ('b', 2), ('b', 3)])] and
    [empty = MultiDict()]. *)

Definition repr_str (k : string) : string := "'" +:+ k +:+ "'".

Definition repr_nat (n : nat) : string := pretty n.

(** A string is not a tuple. *)
Definition not_a_tuple (k : string) : option (list string) := None.

(** Every string can be hashed. *)
#[global] Instance string_hashable : Hashable string := λ _, true.

(** Keys that are strings or pairs of numbers, as in [d[(1, 2)]], and the
    store of [none = MultiDict()] over such keys. *)
Inductive pykey :=
| KStr (k : string)
| KPair (a b : nat).

#[global] Instance pykey_eq_dec : EqDecision pykey.
Proof. solve_decision. Defined.

(** A string and a pair of numbers can be hashed. *)
#[global] Instance pykey_hashable : Hashable pykey := λ _, true.

Definition repr_pykey (k : pykey) : string :=
  match k with
  | KStr k => repr_str k
  | KPair a b => "(" +:+ pretty a +:+ ", " +:+ pretty b +:+ ")"
  end.

Definition pykey_tuple (k : pykey) : option (list string) :=
  match k with
  | KStr _ => None
  | KPair a b => Some [pretty a; pretty b]
  end.

Definition ex_none : loc := 2%positive.

Definition ex_state_pykey : @state pykey nat :=
  {| heap := list_to_map [(1%positive, PyList []); (ex_none, MultiDictObj 1)];
     calls := [];
     warnings := [] |}.

Definition ex_pairs : list (string * nat) := [("a", 1); ("b", 2); ("b", 3)].

Definition ex_d1 : loc := 2%positive.
Definition ex_d2 : loc := 4%positive.
Definition ex_view : loc := 5%positive.
Definition ex_novars : loc := 6%positive.
Definition ex_tracked : loc := 8%positive.
Definition ex_plain : loc := 10%positive.
Definition ex_empty : loc := 12%positive.

Definition ex_heap : gmap positive (@pyobj string nat) :=
  list_to_map
    [ (1%positive, PyList [("a", 1)]);
      (ex_d1, MultiDictObj 1);
      (3%positive, PyList [("a", 2); ("b", 3)]);
      (ex_d2, MultiDictObj 3);
      (ex_view, NestedObj [ex_d1; ex_d2]);
      (ex_novars, NoVarsObj "no request body");
      (7%positive, PyList ex_pairs);
      (ex_tracked, TrackableObj 7 (Some 0) None);
      (9%positive, PyList ex_pairs);
      (ex_plain, MultiDictObj 9);
      (11%positive, PyList []);
      (ex_empty, MultiDictObj 11) ].

Definition ex_state : @state string nat :=
  {| heap := ex_heap; calls := []; warnings := [] |}.

(** [untracked = TrackableMultiDict([('a', 1), ('b', 2), ('b', 3)])], made
    without [__tracker]. *)
Definition ex_untracked : loc := 2%positive.

Definition ex_state_untracked : @state string nat :=
  {| heap := list_to_map [(1%positive, PyList ex_pairs);
                          (ex_untracked, TrackableObj 1 None None)];
     calls := [];
     warnings := [] |}.

(** [view_nv = NestedMultiDict(d1, novars, d2)], beside [view]. *)
Definition ex_view_nv : loc := 13%positive.

Definition ex_state_nv : @state string nat :=
  {| heap := <[ex_view_nv := NestedObj [ex_d1; ex_novars; ex_d2]]> ex_heap;
     calls := [];
     warnings := [] |}.

(** Keys that are strings or lists of strings, as in [d.add(['x'], 1)]: a
    list cannot be hashed.  [lists = MultiDict([('a', 1)])] over such
    keys. *)
Inductive lkey :=
| LStr (k : string)
| LList (ks : list string).

#[global] Instance lkey_eq_dec : EqDecision lkey.
Proof. solve_decision. Defined.

#[global] Instance lkey_hashable : Hashable lkey := λ k,
  match k with
  | LStr _ => true
  | LList _ => false
  end.



(** Two login forms, with strings as values: the same user and two
    passwords. *)
Definition ex_form1 : loc := 2%positive.
Definition ex_form2 : loc := 4%positive.

Definition ex_state_forms : @state string string :=
  {| heap := list_to_map
       [ (1%positive, PyList [("user", "ann"); ("password", "hunter2")]);
         (ex_form1, MultiDictObj 1);
         (3%positive, PyList [("user", "ann"); ("password", "12345")]);
         (ex_form2, MultiDictObj 3) ];
     calls := [];
     warnings := [] |}.

(** * Properties *)

Section properties.

Context {K V : Type} `{EqDecision K} `{Hashable K}.
Variable repr_key : K → string.
Variable repr_val : V → string.
Variable tuple_reprs : K → option (list string).

Implicit Types (s : @state K V) (self l : loc) (key k : K) (v : V)
  (xs ys items pre suf post passed : list (K * V)).

(** ** The loops over the pairs *)

Lemma values_of_app key xs ys :
  values_of key (xs ++ ys) = values_of key xs ++ values_of key ys.
Proof. unfold values_of. by rewrite filter_app, fmap_app. Qed.

Lemma values_of_nil key : values_of key [] = @nil V.
Proof. done. Qed.

Lemma values_of_cons key k v xs :
  values_of key ((k, v) :: xs) =
  if decide (k = key) then v :: values_of key xs else values_of key xs.
Proof.
  unfold values_of. rewrite filter_cons. simpl.
  by destruct (decide (k = key)).
Qed.

Lemma values_of_nil_iff key xs : values_of key xs = [] ↔ key ∉ xs.*1.
Proof.
  induction xs as [|[k v] xs IH]; simpl.
  - split; [intros _; apply not_elem_of_nil | done].
  - rewrite values_of_cons, not_elem_of_cons.
    destruct (decide (k = key)) as [->|Hne].
    + split; [done | by intros [? _]].
    + rewrite IH. split; [by intros; split; [congruence|] | by intros [_ ?]].
Qed.

Lemma getall_loop_spec key items result :
  getall_loop key items result = result ++ values_of key items.
Proof.
  revert result. induction items as [|[k v] items IH]; intros result; simpl.
  - by rewrite app_nil_r.
  - rewrite IH, values_of_cons.
    destruct (decide (key = k)), (decide (k = key)); try congruence.
    by rewrite <- app_assoc.
Qed.

Lemma getitem_scan_last key items :
  getitem_scan key (reverse items) = last (values_of key items).
Proof.
  induction items as [|[k v] items IH] using rev_ind; [done|].
  rewrite reverse_snoc, values_of_app, values_of_cons, values_of_nil. simpl.
  destruct (decide (k = key)).
  - by rewrite last_snoc.
  - by rewrite app_nil_r.
Qed.

Lemma last_values_of_Some key items v :
  last (values_of key items) = Some v ↔
  ∃ pre post, items = pre ++ (key, v) :: post ∧ key ∉ post.*1.
Proof.
  split.
  - induction items as [|[k v'] items IH] using rev_ind; [done|].
    rewrite values_of_app, values_of_cons, values_of_nil.
    destruct (decide (k = key)) as [->|Hne].
    + rewrite last_snoc. intros [= ->]. exists items, []. split; [done|].
      apply not_elem_of_nil.
    + rewrite app_nil_r. intros (pre & post & -> & Hpost)%IH.
      exists pre, (post ++ [(k, v')]). split; [by rewrite <- app_assoc|].
      rewrite fmap_app, not_elem_of_app. split; [done|].
      simpl. rewrite not_elem_of_cons. split; [done | apply not_elem_of_nil].
  - intros (pre & post & -> & Hpost).
    rewrite values_of_app, values_of_cons, decide_True by done.
    apply values_of_nil_iff in Hpost. rewrite Hpost.
    apply last_snoc.
Qed.

Lemma last_values_of_None key items :
  last (values_of key items) = None ↔ key ∉ items.*1.
Proof.
  rewrite <- values_of_nil_iff. destruct (values_of key items) as [|v vs] using rev_ind.
  - done.
  - rewrite last_snoc. split; [done|]. by destruct vs.
Qed.

Lemma without_app key xs ys :
  without key (xs ++ ys) = without key xs ++ without key ys.
Proof. apply filter_app. Qed.

Lemma without_cons key k v xs :
  without key ((k, v) :: xs) =
  if decide (k = key) then without key xs else (k, v) :: without key xs.
Proof.
  unfold without. rewrite filter_cons. simpl.
  destruct (decide (k = key)), (decide (k ≠ key)); done.
Qed.

Lemma values_of_without key xs : values_of key (without key xs) = [].
Proof.
  induction xs as [|[k v] xs IH]; [done|].
  rewrite without_cons. destruct (decide (k = key)) as [->|Hne]; [done|].
  by rewrite values_of_cons, decide_False.
Qed.

Lemma without_absent key xs : key ∉ xs.*1 → without key xs = xs.
Proof.
  induction xs as [|[k v] xs IH]; [done|].
  simpl. rewrite not_elem_of_cons. intros [Hne Hxs].
  rewrite without_cons, decide_False by done. by rewrite IH.
Qed.

(** [__delitem__]'s loop visits the indices from the last to the first; when
    it has reached index [length pre], the pairs after it that match are
    gone. *)
Lemma delitem_loop_spec key pre suf found :
  delitem_loop key (reverse (seq 0 (length pre))) (pre ++ suf) found =
  inr (without key pre ++ suf, found || bool_decide (key ∈ pre.*1)).
Proof.
  revert suf found.
  induction pre as [|[k v] pre IH] using rev_ind; intros suf found.
  - rewrite (bool_decide_eq_false_2 (key ∈ [].*1)) by apply not_elem_of_nil.
    by rewrite orb_false_r.
  - rewrite length_app. simpl. rewrite Nat.add_1_r, seq_S, reverse_snoc. simpl.
    rewrite <- app_assoc. simpl.
    rewrite list_lookup_middle by done.
    rewrite without_app, without_cons, fmap_app. simpl.
    destruct (decide (k = key)) as [->|Hne].
    + rewrite delete_middle, IH, app_nil_r.
      rewrite (bool_decide_eq_true_2 (key ∈ pre.*1 ++ [key]))
        by (rewrite elem_of_app, elem_of_cons; auto).
      by rewrite orb_true_r.
    + rewrite IH, <- app_assoc. simpl. do 3 f_equal.
      apply bool_decide_ext.
      rewrite elem_of_app, elem_of_cons, elem_of_nil.
      clear -Hne. intuition congruence.
Qed.

Lemma delitem_loop_all key items :
  delitem_loop key (reverse (seq 0 (length items))) items false =
  inr (without key items, bool_decide (key ∈ items.*1)).
Proof.
  pose proof (delitem_loop_spec key items [] false) as Hloop.
  by rewrite !app_nil_r in Hloop.
Qed.

(** [pop]'s loop has passed the pairs [passed], none of which matches. *)
Lemma pop_loop_found key v pre post passed :
  key ∉ pre.*1 →
  pop_loop key (seq (length passed) (length (pre ++ (key, v) :: post)))
    (passed ++ pre ++ (key, v) :: post) =
  inr (Some (v, passed ++ pre ++ post)).
Proof.
  revert passed. induction pre as [|[k v'] pre IH]; intros passed Hpre; simpl.
  - rewrite list_lookup_middle by done.
    by rewrite decide_True, delete_middle.
  - simpl in Hpre. apply not_elem_of_cons in Hpre as [Hne Hpre].
    rewrite list_lookup_middle by done.
    rewrite decide_False by done.
    specialize (IH (passed ++ [(k, v')]) Hpre).
    rewrite length_app, <- !app_assoc in IH. simpl in IH.
    by rewrite Nat.add_1_r in IH.
Qed.

Lemma pop_loop_absent key items passed :
  key ∉ items.*1 →
  pop_loop key (seq (length passed) (length items)) (passed ++ items) = inr None.
Proof.
  revert passed. induction items as [|[k v] items IH]; intros passed Hitems; simpl.
  - done.
  - simpl in Hitems. apply not_elem_of_cons in Hitems as [Hne Hitems].
    rewrite list_lookup_middle by done.
    rewrite decide_False by done.
    specialize (IH (passed ++ [(k, v)]) Hitems).
    rewrite length_app, <- !app_assoc in IH. simpl in IH.
    by rewrite Nat.add_1_r in IH.
Qed.

Lemma list_pop_snoc (init : list (K * V)) (x : K * V) :
  list_pop (init ++ [x]) = inr (x, init).
Proof. unfold list_pop. by rewrite last_snoc, removelast_last. Qed.

Lemma list_pop_nil : @list_pop K V [] = inl (IndexError "pop from empty list").
Proof. done. Qed.

Lemma extend_loop_app (items other : list (K * V)) :
  extend_loop items other = items ++ other.
Proof.
  unfold extend_loop. revert items.
  induction other as [|kv other IH]; intros items; simpl.
  - by rewrite app_nil_r.
  - by rewrite IH, <- app_assoc.
Qed.

(** ** A MultiDict in the store *)

Lemma has_items_attr s self l xs :
  has_items s self l xs → attr_items self s = (inr l, s).
Proof.
  intros [Hself _]. unfold backing in Hself. unfold attr_items.
  destruct (heap s !! self) as [[]|]; by simplify_eq.
Qed.

Lemma has_items_read s self l xs :
  has_items s self l xs → read_list l s = (inr xs, s).
Proof. intros [_ Hl]. unfold read_list. by rewrite Hl. Qed.

Lemma has_items_write s self l xs ys :
  has_items s self l xs → write_list l ys s = (inr (), store l ys s).
Proof. intros [_ Hl]. unfold write_list. by rewrite Hl. Qed.

Lemma has_items_ne s self l xs : has_items s self l xs → self ≠ l.
Proof.
  intros [Hself Hl] ->. unfold backing in Hself. by rewrite Hl in Hself.
Qed.

Lemma has_items_store s self l xs ys :
  has_items s self l xs → has_items (store l ys s) self l ys.
Proof.
  intros Hs. pose proof (has_items_ne _ _ _ _ Hs) as Hne.
  destruct Hs as [Hself Hl]. split.
  - unfold backing in *. simpl. by rewrite lookup_insert_ne.
  - simpl. by rewrite lookup_insert_eq.
Qed.

Lemma has_items_notified s self l xs evs :
  has_items s self l xs → has_items (notified evs s) self l xs.
Proof. done. Qed.

Lemma has_items_inj s self l1 l2 xs1 xs2 :
  has_items s self l1 xs1 → has_items s self l2 xs2 → l1 = l2 ∧ xs1 = xs2.
Proof.
  intros [Hb1 Hl1] [Hb2 Hl2]. rewrite Hb1 in Hb2. injection Hb2 as <-.
  rewrite Hl1 in Hl2. by injection Hl2 as <-.
Qed.

Lemma store_id s l xs : heap s !! l = Some (PyList xs) → store l xs s = s.
Proof.
  intros Hl. destruct s as [h c w]. unfold store, set_heap. simpl in *.
  by rewrite insert_id.
Qed.

Lemma store_store s l xs ys : store l ys (store l xs s) = store l ys s.
Proof.
  destruct s as [h c w]. unfold store, set_heap. simpl.
  by rewrite insert_insert_eq.
Qed.

(** Running a method on a MultiDict whose pairs are known. *)
Ltac run Hs :=
  unfold bind;
  repeat first
    [ rewrite (has_items_attr _ _ _ _ Hs)
    | rewrite (has_items_read _ _ _ _ Hs)
    | rewrite (has_items_write _ _ _ _ _ Hs) ];
  try done.

Lemma MultiDict_getitem_run s self l xs key :
  has_items s self l xs →
  MultiDict_getitem self key s =
  (match last (values_of key xs) with
   | Some v => inr v
   | None => inl (KeyError (KeyArg key))
   end, s).
Proof.
  intros Hs. unfold MultiDict_getitem. run Hs.
  rewrite getitem_scan_last. by destruct (last _).
Qed.

Lemma MultiDict_getall_run s self l xs key :
  has_items s self l xs →
  MultiDict_getall self key s = (inr (values_of key xs), s).
Proof.
  intros Hs. unfold MultiDict_getall. run Hs.
  by rewrite getall_loop_spec.
Qed.

Lemma MultiDict_add_run s self l xs key v :
  has_items s self l xs →
  MultiDict_add self key v s = (inr (), store l (xs ++ [(key, v)]) s).
Proof. intros Hs. unfold MultiDict_add. run Hs. Qed.

Lemma MultiDict_len_run s self l xs :
  has_items s self l xs → MultiDict_len self s = (inr (length xs), s).
Proof. intros Hs. unfold MultiDict_len. run Hs. Qed.

Lemma contains_scan_spec key xs :
  contains_scan key xs = bool_decide (key ∈ xs.*1).
Proof.
  induction xs as [|[k v] xs IH].
  - symmetry. apply bool_decide_eq_false_2, not_elem_of_nil.
  - rewrite fmap_cons. cbn [contains_scan].
    destruct (decide (k = key)) as [->|Hne].
    + symmetry. apply bool_decide_eq_true_2, elem_of_cons. auto.
    + rewrite IH. apply bool_decide_ext. rewrite elem_of_cons. simpl.
      clear -Hne. intuition congruence.
Qed.

Lemma MultiDict_contains_run s self l xs key :
  has_items s self l xs →
  MultiDict_contains self key s = (inr (bool_decide (key ∈ xs.*1)), s).
Proof.
  intros Hs. unfold MultiDict_contains. run Hs.
  by rewrite contains_scan_spec.
Qed.

Lemma MultiDict_delitem_run s self l xs key :
  has_items s self l xs →
  MultiDict_delitem self key s =
  if bool_decide (key ∈ xs.*1) then (inr (), store l (without key xs) s)
  else (inl (KeyError (KeyArg key)), s).
Proof.
  intros Hs. unfold MultiDict_delitem. run Hs.
  rewrite delitem_loop_all. unfold bind.
  rewrite (has_items_write _ _ _ _ _ Hs).
  destruct (decide (key ∈ xs.*1)) as [Hin|Hout].
  - by rewrite bool_decide_eq_true_2.
  - rewrite bool_decide_eq_false_2 by done.
    unfold raise. rewrite without_absent by done.
    rewrite store_id; [done | apply Hs].
Qed.

Lemma MultiDict_pop_found s self l pre post key v args :
  has_items s self l (pre ++ (key, v) :: post) →
  key ∉ pre.*1 →
  length args ≤ 1 →
  MultiDict_pop self key args s = (inr v, store l (pre ++ post) s).
Proof.
  intros Hs Hpre Hargs. unfold MultiDict_pop.
  rewrite decide_False by lia. run Hs.
  pose proof (pop_loop_found key v pre post [] Hpre) as Hloop.
  simpl in Hloop. rewrite Hloop. run Hs.
Qed.

Lemma MultiDict_pop_absent s self l xs key args :
  has_items s self l xs →
  key ∉ xs.*1 →
  length args ≤ 1 →
  MultiDict_pop self key args s =
  (match args with
   | default :: _ => inr default
   | [] => inl (KeyError (KeyArg key))
   end, s).
Proof.
  intros Hs Hxs Hargs. unfold MultiDict_pop.
  rewrite decide_False by lia. run Hs.
  pose proof (pop_loop_absent key xs [] Hxs) as Hloop.
  simpl in Hloop. rewrite Hloop. by destruct args.
Qed.

Lemma MultiDict_popitem_run s self l xs :
  has_items s self l xs →
  MultiDict_popitem self s =
  match list_pop xs with
  | inl e => (inl e, s)
  | inr (item, xs') => (inr item, store l xs' s)
  end.
Proof.
  intros Hs. unfold MultiDict_popitem. run Hs.
  destruct (list_pop xs) as [e|[item xs']]; [done|]. run Hs.
Qed.

Lemma MultiDict_extend_run s self l xs pairs :
  has_items s self l xs →
  MultiDict_extend self (Some pairs) s = (inr (), store l (xs ++ pairs) s).
Proof.
  intros Hs. unfold MultiDict_extend. destruct pairs as [|kv pairs].
  - unfold ret. rewrite app_nil_r, store_id; [done | apply Hs].
  - run Hs. by rewrite extend_loop_app.
Qed.

Lemma MultiDict_add_twice s self l xs key v1 v2 :
  has_items s self l xs →
  (MultiDict_add self key v1 ;;; MultiDict_add self key v2) s =
  (inr (), store l (xs ++ [(key, v1); (key, v2)]) s).
Proof.
  intros Hs. unfold bind. rewrite (MultiDict_add_run _ _ _ _ _ _ Hs).
  rewrite (MultiDict_add_run _ _ _ _ _ _ (has_items_store _ _ _ _ _ Hs)).
  by rewrite store_store, <- app_assoc.
Qed.

(** ** MultiDict: single and multiple lookup *)

(** C1. [__getitem__] returns the value of the last pair whose key is
    [key], and raises [KeyError(key)] exactly when no pair has that key;
    [getall] returns the values stored under [key] in the order of the
    pairs (the empty list when there are none).  After [add(key, v1)] and
    [add(key, v2)], [__getitem__] returns [v2] and [getall] returns the
    earlier values followed by [v1, v2], which is [[v1, v2]] when [key] was
    not there before. *)
Theorem C1_getitem_last_getall_in_order s self l xs key :
  has_items s self l xs →
  (∀ v, MultiDict_getitem self key s = (inr v, s) ↔
        ∃ pre post, xs = pre ++ (key, v) :: post ∧ key ∉ post.*1)
  ∧ (MultiDict_getitem self key s = (inl (KeyError (KeyArg key)), s) ↔
     key ∉ xs.*1)
  ∧ MultiDict_getall self key s = (inr (values_of key xs), s)
  ∧ (key ∉ xs.*1 → MultiDict_getall self key s = (inr [], s))
  ∧ (∀ v1 v2, ∃ s2,
        (MultiDict_add self key v1 ;;; MultiDict_add self key v2) s = (inr (), s2)
        ∧ has_items s2 self l (xs ++ [(key, v1); (key, v2)])
        ∧ MultiDict_getitem self key s2 = (inr v2, s2)
        ∧ MultiDict_getall self key s2 = (inr (values_of key xs ++ [v1; v2]), s2)
        ∧ (key ∉ xs.*1 → MultiDict_getall self key s2 = (inr [v1; v2], s2))).
Proof.
  intros Hs. repeat split.
  - rewrite (MultiDict_getitem_run _ _ _ _ _ Hs).
    destruct (last (values_of key xs)) as [v'|] eqn:Hlast; [|done].
    intros [= ->]. by apply last_values_of_Some.
  - intros Hsplit%last_values_of_Some.
    by rewrite (MultiDict_getitem_run _ _ _ _ _ Hs), Hsplit.
  - rewrite (MultiDict_getitem_run _ _ _ _ _ Hs).
    destruct (last (values_of key xs)) as [v'|] eqn:Hlast; [done|].
    intros _. by apply last_values_of_None.
  - intros Hout%last_values_of_None.
    by rewrite (MultiDict_getitem_run _ _ _ _ _ Hs), Hout.
  - by apply (MultiDict_getall_run _ _ l).
  - intros Hout%values_of_nil_iff.
    by rewrite (MultiDict_getall_run _ _ _ _ _ Hs), Hout.
  - intros v1 v2.
    pose proof (has_items_store _ _ _ _ (xs ++ [(key, v1); (key, v2)]) Hs) as Hs2.
    assert (values_of key (xs ++ [(key, v1); (key, v2)]) =
            values_of key xs ++ [v1; v2]) as Hvals.
    { rewrite values_of_app, !values_of_cons, !decide_True by done.
      by rewrite values_of_nil. }
    eexists. split; [by apply MultiDict_add_twice|].
    split; [done|]. split; [|split].
    + rewrite (MultiDict_getitem_run _ _ _ _ _ Hs2), Hvals.
      replace (values_of key xs ++ [v1; v2])
        with ((values_of key xs ++ [v1]) ++ [v2]) by (by rewrite <- app_assoc).
      by rewrite last_snoc.
    + by rewrite (MultiDict_getall_run _ _ _ _ _ Hs2), Hvals.
    + intros Hout%values_of_nil_iff.
      by rewrite (MultiDict_getall_run _ _ _ _ _ Hs2), Hvals, Hout.
Qed.

Lemma MultiDict_getall_pure s self key : (MultiDict_getall self key s).2 = s.
Proof.
  unfold MultiDict_getall, bind, attr_items, read_list, ret.
  repeat case_match; by simplify_eq.
Qed.

Lemma MultiDict_getone_pure s self key :
  (MultiDict_getone repr_key repr_val tuple_reprs self key s).2 = s.
Proof.
  unfold MultiDict_getone, getone_of, bind.
  pose proof (MultiDict_getall_pure s self key) as Hpure.
  destruct (MultiDict_getall self key s) as [[e|vs] s']; simpl in Hpure; subst s'.
  - done.
  - destruct vs as [|v0 rest]; [by destruct (format_key _ _ _ _)|].
    by case_decide.
Qed.

Lemma MultiDict_getone_run s self l xs key :
  has_items s self l xs →
  MultiDict_getone repr_key repr_val tuple_reprs self key s =
  (match values_of key xs with
   | [] =>
       match format_key repr_key tuple_reprs "Key not found: " key with
       | inr msg => inl (KeyError (MsgArg msg))
       | inl e => inl e
       end
   | [v] => inr v
   | vs => inl (KeyError (MsgArg ("Multiple values match " +:+ repr_key key
                                    +:+ ": " +:+ repr_list repr_val vs)))
   end, s).
Proof.
  intros Hs. unfold MultiDict_getone, getone_of, bind.
  rewrite (MultiDict_getall_run _ _ _ _ _ Hs).
  destruct (values_of key xs) as [|v0 [|v1 rest]].
  - by destruct (format_key _ _ _ _).
  - by rewrite decide_False by (simpl; lia).
  - by rewrite decide_True by (simpl; lia).
Qed.

(** C2. [getone] returns the value when [getall] has exactly one element
    and raises [KeyError('Multiple values match ...')], whose message holds
    the [repr] of the whole list of matching values, when [getall] has two
    or more.  When [getall] is empty it raises [KeyError('Key not found:
    ...')] for a key that is not a tuple; for a key that is a tuple of two
    or more elements, or the empty tuple, formatting the message with
    [% key] raises [TypeError] instead.  The store after [getone] is the
    store before it, whatever the outcome. *)
Theorem C2_getone_zero_one_many s self l xs key :
  has_items s self l xs →
  MultiDict_getall self key s = (inr (values_of key xs), s)
  ∧ (values_of key xs = [] → tuple_reprs key = None →
     MultiDict_getone repr_key repr_val tuple_reprs self key s =
     (inl (KeyError (MsgArg ("Key not found: " +:+ repr_key key))), s))
  ∧ (values_of key xs = [] →
     ∀ rs, tuple_reprs key = Some rs → length rs ≠ 1 →
     ∃ msg, MultiDict_getone repr_key repr_val tuple_reprs self key s =
            (inl (TypeError msg), s))
  ∧ (2 ≤ length (values_of key xs) →
     MultiDict_getone repr_key repr_val tuple_reprs self key s =
     (inl (KeyError (MsgArg ("Multiple values match " +:+ repr_key key +:+ ": "
                               +:+ repr_list repr_val (values_of key xs)))), s))
  ∧ (∀ v, values_of key xs = [v] →
     MultiDict_getone repr_key repr_val tuple_reprs self key s = (inr v, s))
  ∧ (∀ s' self' key',
       (MultiDict_getone repr_key repr_val tuple_reprs self' key' s').2 = s').
Proof.
  intros Hs. split; [by apply (MultiDict_getall_run _ _ l)|].
  rewrite (MultiDict_getone_run _ _ _ _ _ Hs).
  split; [|split; [|split; [|split]]].
  - intros -> Hnone. unfold format_key. by rewrite Hnone.
  - intros -> rs Hrs Hlen. unfold format_key. rewrite Hrs.
    destruct rs as [|r [|r' rs]]; [by eexists|done|by eexists].
  - destruct (values_of key xs) as [|v0 [|v1 rest]]; simpl; [lia|lia|done].
  - by intros v ->.
  - intros. apply MultiDict_getone_pure.
Qed.

(** ** MultiDict: removal *)

(** C3. [pop(key)] deletes the first pair whose key is [key] and returns its
    value; the pairs after it stay, so [getall(key)] then returns the values
    of the later pairs with that key.  When no pair has the key, [pop(key,
    default)] returns [default] and [pop(key)] raises [KeyError(key)], the
    store being left as it was. *)
Theorem C3_pop_first_match s self l xs key :
  has_items s self l xs →
  (∀ pre v post args,
      xs = pre ++ (key, v) :: post → key ∉ pre.*1 → length args ≤ 1 →
      MultiDict_pop self key args s = (inr v, store l (pre ++ post) s)
      ∧ has_items (store l (pre ++ post) s) self l (pre ++ post)
      ∧ values_of key xs = v :: values_of key post
      ∧ MultiDict_getall self key (store l (pre ++ post) s) =
        (inr (values_of key post), store l (pre ++ post) s))
  ∧ (key ∉ xs.*1 → ∀ default,
      MultiDict_pop self key [default] s = (inr default, s))
  ∧ (key ∉ xs.*1 →
      MultiDict_pop self key [] s = (inl (KeyError (KeyArg key)), s)).
Proof.
  intros Hs. split; [|split].
  - intros pre v post args -> Hpre Hargs.
    pose proof (has_items_store _ _ _ _ (pre ++ post) Hs) as Hs'.
    assert (values_of key pre = []) as Hnone by by apply values_of_nil_iff.
    split; [by apply MultiDict_pop_found|]. split; [done|]. split.
    + by rewrite values_of_app, values_of_cons, decide_True, Hnone.
    + rewrite (MultiDict_getall_run _ _ _ _ _ Hs').
      by rewrite values_of_app, Hnone.
  - intros Hout default.
    by rewrite (MultiDict_pop_absent _ _ _ _ _ [default] Hs Hout)
      by (simpl; lia).
  - intros Hout.
    by rewrite (MultiDict_pop_absent _ _ _ _ _ [] Hs Hout) by (simpl; lia).
Qed.

(** C4. On a MultiDict with at least one pair, [popitem] deletes the last
    pair and returns it.  On an empty one [self._items.pop()] raises
    [IndexError('pop from empty list')], which is no [KeyError], and the
    store is left as it was. *)
Theorem C4_popitem_last_or_IndexError s self l xs :
  has_items s self l xs →
  (∀ init k v, xs = init ++ [(k, v)] →
      MultiDict_popitem self s = (inr (k, v), store l init s)
      ∧ has_items (store l init s) self l init)
  ∧ (xs = [] →
      MultiDict_popitem self s = (inl (IndexError "pop from empty list"), s)
      ∧ ∀ arg s', MultiDict_popitem self s ≠ (inl (KeyError arg), s')).
Proof.
  intros Hs. rewrite (MultiDict_popitem_run _ _ _ _ Hs). split.
  - intros init k v ->. rewrite list_pop_snoc.
    split; [done | by apply (has_items_store _ _ _ (init ++ [(k, v)]))].
  - by intros ->.
Qed.

(** ** Construction from [items()] *)

Lemma alloc_fresh (o : @pyobj K V) s :
  ∃ p, alloc o s = (inr p, set_heap <[p := o]> s) ∧ heap s !! p = None.
Proof.
  eexists. split; [done|]. apply not_elem_of_dom, is_fresh.
Qed.

Lemma has_items_alloc s self l xs p (o : @pyobj K V) :
  has_items s self l xs → heap s !! p = None →
  has_items (set_heap <[p := o]> s) self l xs.
Proof.
  intros [Hself Hl] Hp. split.
  - unfold backing in *. simpl. rewrite lookup_insert_ne; [done|].
    intros ->. by rewrite Hp in Hself.
  - simpl. rewrite lookup_insert_ne; [done|]. intros ->. by rewrite Hp in Hl.
Qed.

Lemma has_items_store_other s self l xs l' ys zs :
  has_items s self l xs → heap s !! l' = Some (PyList ys) → l ≠ l' →
  has_items (store l' zs s) self l xs.
Proof.
  intros [Hself Hl] Hl' Hne. split.
  - unfold backing in *. simpl. rewrite lookup_insert_ne; [done|].
    intros ->. by rewrite Hl' in Hself.
  - simpl. by rewrite lookup_insert_ne.
Qed.

(** C5. [MultiDict(m.items())] is a new MultiDict with the pairs of [m] in
    the same order.  It is backed by a list object of its own: new
    references for the object and for its list, every object of the store
    before left as it was, and an [add] on either container not seen by the
    other. *)
Theorem C5_roundtrip_items_independent fuel s m l xs :
  has_items s m l xs →
  ∃ n l' s',
    (lst <- MultiDict_items m ;; MultiDict_new fuel [lst]) s = (inr n, s')
    ∧ has_items s' n l' xs
    ∧ has_items s' m l xs
    ∧ n ≠ m ∧ l' ≠ l
    ∧ heap s !! n = None ∧ heap s !! l' = None
    ∧ (∀ p, is_Some (heap s !! p) → heap s' !! p = heap s !! p)
    ∧ (∀ k v, ∃ s'',
          MultiDict_add n k v s' = (inr (), s'')
          ∧ has_items s'' n l' (xs ++ [(k, v)]) ∧ has_items s'' m l xs)
    ∧ (∀ k v, ∃ s'',
          MultiDict_add m k v s' = (inr (), s'')
          ∧ has_items s'' m l (xs ++ [(k, v)]) ∧ has_items s'' n l' xs).
Proof.
  intros Hs.
  destruct (alloc_fresh (PyList xs) s) as (l1 & Hrun1 & Hl1).
  set (s1 := set_heap <[l1 := PyList xs]> s) in *.
  destruct (alloc_fresh (PyList xs) s1) as (l2 & Hrun2 & Hl2).
  set (s2 := set_heap <[l2 := PyList xs]> s1) in *.
  destruct (alloc_fresh (MultiDictObj l2) s2) as (n & Hrun3 & Hn).
  set (s3 := set_heap <[n := MultiDictObj l2]> s2) in *.
  assert (heap s1 !! l1 = Some (PyList xs)) as Hl1' by apply lookup_insert_eq.
  assert (heap s2 !! l2 = Some (PyList xs)) as Hl2' by apply lookup_insert_eq.
  assert (l2 ≠ l1) as Hne21 by (intros ->; by rewrite Hl2 in Hl1').
  assert (n ≠ l2) as Hnen2 by (intros ->; by rewrite Hn in Hl2').
  assert (heap s2 !! l1 = Some (PyList xs)) as Hl1''
    by (simpl; by rewrite lookup_insert_ne).
  assert (n ≠ l1) as Hnen1 by (intros ->; by rewrite Hn in Hl1'').
  assert (heap s !! l2 = None) as Hl2s.
  { simpl in Hl2. by rewrite lookup_insert_ne in Hl2. }
  assert (heap s !! n = None) as Hns.
  { simpl in Hn. by rewrite !lookup_insert_ne in Hn. }
  assert (∀ p, is_Some (heap s !! p) → heap s3 !! p = heap s !! p) as Hold.
  { intros p [o Hp]. simpl.
    assert (l1 ≠ p) by (intros ->; congruence).
    assert (l2 ≠ p) by (intros ->; congruence).
    assert (n ≠ p) by (intros ->; congruence).
    by rewrite !lookup_insert_ne. }
  assert (has_items s3 m l xs) as Hm.
  { repeat apply has_items_alloc; done. }
  assert (has_items s3 n l2 xs) as Hnew.
  { split.
    - unfold backing. simpl. by rewrite lookup_insert_eq.
    - simpl. rewrite lookup_insert_ne by done. apply lookup_insert_eq. }
  assert (l2 ≠ l) as Hnel.
  { intros ->. destruct Hs as [_ Hl]. by rewrite Hl in Hl2s. }
  exists n, l2, s3. split; [|split; [done|split; [done|]]].
  - unfold MultiDict_items. run Hs. rewrite Hrun1.
    unfold MultiDict_new, init_items, bind. fold s1. rewrite Hl1'.
    rewrite Hrun2. fold s2. by rewrite Hrun3.
  - split. { intros ->. destruct Hs as [Hself _]. unfold backing in Hself.
             by rewrite Hns in Hself. }
    split; [done|]. split; [done|]. split; [done|]. split; [done|]. split.
    + intros k v. eexists. split; [by apply MultiDict_add_run|].
      split; [by apply (has_items_store _ _ _ xs)|].
      apply (has_items_store_other _ _ _ _ _ xs); [done| apply Hnew | done].
    + intros k v. eexists. split; [by apply MultiDict_add_run|].
      split; [by apply (has_items_store _ _ _ xs)|].
      apply (has_items_store_other _ _ _ _ _ xs); [done| apply Hm | done].
Qed.

(** ** Reads leave the store as it is *)

Lemma pure_ret {A} (a : A) : pure_read (@ret K V A a).
Proof. done. Qed.

Lemma pure_raise {A} e : pure_read (@raise K V A e).
Proof. done. Qed.

Lemma pure_bind {A B} (c : @M K V A) (k : A → @M K V B) :
  pure_read c → (∀ a, pure_read (k a)) → pure_read (bind c k).
Proof.
  intros Hc Hk s. unfold bind. specialize (Hc s).
  destruct (c s) as [[e|a] s']; simpl in *; subst s'; [done|]. apply Hk.
Qed.

Lemma pure_try_except_KeyError {A} (c handler : @M K V A) :
  pure_read c → pure_read handler → pure_read (try_except_KeyError c handler).
Proof.
  intros Hc Hh s. unfold try_except_KeyError. specialize (Hc s).
  destruct (c s) as [[[]|a] s']; simpl in *; subst s'; first [done | apply Hh].
Qed.

Lemma pure_attr_items self : pure_read (@attr_items K V self).
Proof. intros s. unfold attr_items. by repeat case_match. Qed.

Lemma pure_read_list l : pure_read (@read_list K V l).
Proof. intros s. unfold read_list. by repeat case_match. Qed.

Lemma pure_attr_dicts self : pure_read (@attr_dicts K V self).
Proof. intros s. unfold attr_dicts. by repeat case_match. Qed.

Lemma pure_attr_reason self : pure_read (@attr_reason K V self).
Proof. intros s. unfold attr_reason. by repeat case_match. Qed.

Create HintDb pure discriminated.
#[local] Hint Resolve pure_ret pure_raise pure_attr_items pure_read_list
  pure_attr_dicts pure_attr_reason : pure.
#[local] Hint Extern 2 (pure_read (bind _ _)) =>
  apply pure_bind; [|intros ?] : pure.
#[local] Hint Extern 2 (pure_read (try_except_KeyError _ _)) =>
  apply pure_try_except_KeyError : pure.
#[local] Hint Extern 3 (pure_read (match ?x with _ => _ end)) =>
  destruct x : pure.

Lemma pure_MultiDict_getitem self key : pure_read (@MultiDict_getitem K V _ self key).
Proof. unfold MultiDict_getitem. auto 10 with pure. Qed.

Lemma pure_MultiDict_getall self key : pure_read (@MultiDict_getall K V _ self key).
Proof. unfold MultiDict_getall. auto 10 with pure. Qed.

Lemma pure_MultiDict_contains self key :
  pure_read (@MultiDict_contains K V _ self key).
Proof. unfold MultiDict_contains. auto 10 with pure. Qed.

Lemma pure_MultiDict_len self : pure_read (@MultiDict_len K V self).
Proof. unfold MultiDict_len. auto 10 with pure. Qed.

Lemma pure_NoVars_getitem self key :
  pure_read (@NoVars_getitem K V repr_key self key).
Proof. unfold NoVars_getitem. auto 10 with pure. Qed.

Lemma pure_get_of (getitem : loc → K → M V) d key :
  (∀ d' key', pure_read (getitem d' key')) → pure_read (get_of getitem d key).
Proof.
  intros Hget s. unfold get_of.
  destruct (heap s !! d) as [[]|]; try done;
    apply pure_try_except_KeyError; auto 10 with pure.
Qed.

Lemma pure_getitem_loop (get : loc → K → M (option V)) dicts key :
  (∀ d key', pure_read (get d key')) →
  pure_read (NestedMultiDict_getitem_loop get dicts key).
Proof.
  intros Hget. induction dicts as [|d rest IH]; simpl; auto 10 with pure.
Qed.

Lemma pure_getall_loop (getall : loc → K → M (list V)) dicts key result :
  (∀ d key', pure_read (getall d key')) →
  pure_read (NestedMultiDict_getall_loop getall dicts key result).
Proof.
  intros Hget. revert result.
  induction dicts as [|d rest IH]; intros result; simpl; auto 10 with pure.
Qed.

Lemma pure_contains_loop (contains : loc → K → @M K V bool) dicts key :
  (∀ d key', pure_read (contains d key')) →
  pure_read (NestedMultiDict_contains_loop contains dicts key).
Proof.
  intros Hc. induction dicts as [|d rest IH]; simpl; auto 10 with pure.
Qed.

Lemma pure_len_loop (len : loc → @M K V nat) dicts n :
  (∀ d, pure_read (len d)) → pure_read (NestedMultiDict_len_loop len dicts n).
Proof.
  intros Hlen. revert n.
  induction dicts as [|d rest IH]; intros n; simpl; auto 10 with pure.
Qed.

Lemma pure_getitem fuel self key :
  pure_read (@getitem K V _ repr_key fuel self key).
Proof.
  revert self key. induction fuel as [|fuel IH]; intros self key s; [done|].
  simpl. destruct (heap s !! self) as [[]|] eqn:Hself; try done.
  - apply pure_MultiDict_getitem.
  - apply pure_MultiDict_getitem.
  - unfold NestedMultiDict_getitem.
    apply pure_bind; [apply pure_attr_dicts|]. intros ds.
    apply pure_getitem_loop. intros d key'. by apply pure_get_of.
  - apply pure_NoVars_getitem.
Qed.

Lemma pure_get fuel self key : pure_read (@get K V _ repr_key fuel self key).
Proof. apply pure_get_of. intros. apply pure_getitem. Qed.

Lemma pure_getall fuel self key : pure_read (@getall K V _ fuel self key).
Proof.
  revert self key. induction fuel as [|fuel IH]; intros self key s; [done|].
  simpl. destruct (heap s !! self) as [[]|] eqn:Hself; try done.
  - apply pure_MultiDict_getall.
  - apply pure_MultiDict_getall.
  - unfold NestedMultiDict_getall.
    apply pure_bind; [apply pure_attr_dicts|]. intros ds.
    by apply pure_getall_loop.
Qed.

Lemma pure_contains fuel self key : pure_read (@contains K V _ fuel self key).
Proof.
  revert self key. induction fuel as [|fuel IH]; intros self key s; [done|].
  simpl. destruct (heap s !! self) as [[]|] eqn:Hself; try done.
  - apply pure_MultiDict_contains.
  - apply pure_MultiDict_contains.
  - unfold NestedMultiDict_contains.
    apply pure_bind; [apply pure_attr_dicts|]. intros ds.
    by apply pure_contains_loop.
Qed.

Lemma pure_len fuel self : pure_read (@len K V fuel self).
Proof.
  revert self. induction fuel as [|fuel IH]; intros self s; [done|].
  simpl. destruct (heap s !! self) as [[]|] eqn:Hself; try done.
  - apply pure_MultiDict_len.
  - apply pure_MultiDict_len.
  - unfold NestedMultiDict_len.
    apply pure_bind; [apply pure_attr_dicts|]. intros ds.
    by apply pure_len_loop.
Qed.

Lemma pure_run {A} (c : @M K V A) s r s' : pure_read c → c s = (r, s') → s' = s.
Proof. intros Hc Hrun. specialize (Hc s). by rewrite Hrun in Hc. Qed.

(** ** [key in d] and [d.get(key, _dummy)] agree *)

Lemma get_of_getitem_value fuel d key s v :
  @getitem K V _ repr_key fuel d key s = (inr v, s) →
  get repr_key fuel d key s = (inr (Some v), s).
Proof.
  intros Hget. unfold get, get_of. destruct fuel as [|fuel]; [done|].
  simpl in Hget.
  destruct (heap s !! d) as [[xs|l|l t n|ds|r]|] eqn:Hd; try done.
  - unfold DictMixin_get, try_except_KeyError, bind. simpl. by rewrite Hd, Hget.
  - unfold DictMixin_get, try_except_KeyError, bind. simpl. by rewrite Hd, Hget.
  - unfold DictMixin_get, try_except_KeyError, bind. simpl. by rewrite Hd, Hget.
  - unfold NoVars_getitem, bind, attr_reason in Hget. by rewrite Hd in Hget.
Qed.

Lemma get_of_getitem_KeyError fuel d key s arg :
  @getitem K V _ repr_key fuel d key s = (inl (KeyError arg), s) →
  get repr_key fuel d key s = (inr None, s).
Proof.
  intros Hget. unfold get, get_of. destruct fuel as [|fuel]; [done|].
  simpl in Hget.
  destruct (heap s !! d) as [[xs|l|l t n|ds|r]|] eqn:Hd; try done.
  - unfold DictMixin_get, try_except_KeyError, bind. simpl. by rewrite Hd, Hget.
  - unfold DictMixin_get, try_except_KeyError, bind. simpl. by rewrite Hd, Hget.
  - unfold DictMixin_get, try_except_KeyError, bind. simpl. by rewrite Hd, Hget.
Qed.

Lemma MultiDict_contains_inv s self key b s' :
  MultiDict_contains self key s = (inr b, s') →
  ∃ l xs, has_items s self l xs.
Proof.
  unfold MultiDict_contains, bind, attr_items, read_list, has_items, backing.
  destruct (heap s !! self) as [[xs|l|l t n|ds|r]|]; try done;
    destruct (heap s !! l) as [[xs| | | |]|] eqn:Hl; try done;
    intros _; by exists l, xs.
Qed.

Lemma MultiDict_contains_getitem s self key b :
  MultiDict_contains self key s = (inr b, s) →
  if b then ∃ v, MultiDict_getitem self key s = (inr v, s)
  else MultiDict_getitem self key s = (inl (KeyError (KeyArg key)), s).
Proof.
  intros Hc. destruct (MultiDict_contains_inv _ _ _ _ _ Hc) as (l & xs & Hs).
  rewrite (MultiDict_contains_run _ _ _ _ _ Hs) in Hc.
  rewrite (MultiDict_getitem_run _ _ _ _ _ Hs).
  injection Hc as <-.
  destruct (last (values_of key xs)) as [v|] eqn:Hlast.
  - apply last_values_of_Some in Hlast as (pre & post & -> & _).
    rewrite bool_decide_eq_true_2; [by exists v|].
    rewrite fmap_app, elem_of_app. right. apply elem_of_cons. by left.
  - apply last_values_of_None in Hlast. by rewrite bool_decide_eq_false_2.
Qed.

(** The two loops of a NestedMultiDict over the same components. *)
Lemma nested_loops_agree fuel dicts key s b :
  (∀ d b', @contains K V _ fuel d key s = (inr b', s) →
      if b' then ∃ v, get repr_key fuel d key s = (inr (Some v), s)
      else get repr_key fuel d key s = (inr None, s)) →
  NestedMultiDict_contains_loop (contains fuel) dicts key s = (inr b, s) →
  if b
  then ∃ v, NestedMultiDict_getitem_loop (get repr_key fuel) dicts key s = (inr v, s)
  else NestedMultiDict_getitem_loop (get repr_key fuel) dicts key s =
       (inl (KeyError (KeyArg key)), s).
Proof.
  intros Hagree. induction dicts as [|d rest IH]; simpl.
  - by intros [= <-].
  - unfold bind.
    destruct (contains fuel d key s) as [[e|b'] s'] eqn:Hc; [done|].
    assert (s' = s) as -> by (eapply pure_run; [apply pure_contains | done]).
    specialize (Hagree d b' Hc). destruct b'.
    + intros [= <-]. destruct Hagree as [v ->]. by exists v.
    + rewrite Hagree. apply IH.
Qed.

Lemma contains_getitem fuel : ∀ d key s b,
  @contains K V _ fuel d key s = (inr b, s) →
  if b then ∃ v, getitem repr_key fuel d key s = (inr v, s)
  else ∃ arg, getitem repr_key fuel d key s = (inl (KeyError arg), s).
Proof.
  induction fuel as [|fuel IH]; intros d key s b Hc; [done|].
  simpl in *.
  destruct (heap s !! d) as [[xs|l|l t n|ds|r]|] eqn:Hd; try done.
  - apply MultiDict_contains_getitem in Hc. destruct b; eauto.
  - apply MultiDict_contains_getitem in Hc. destruct b; eauto.
  - unfold NestedMultiDict_contains, NestedMultiDict_getitem, bind, attr_dicts in *.
    rewrite Hd in *.
    apply (nested_loops_agree fuel ds key s b) in Hc.
    + destruct b; eauto.
    + intros d' b' Hc'. specialize (IH d' key s b' Hc'). destruct b'.
      * destruct IH as [v Hv]. exists v. by apply get_of_getitem_value.
      * destruct IH as [arg Harg]. by eapply get_of_getitem_KeyError.
  - injection Hc as <-. unfold NoVars_getitem, bind, attr_reason. rewrite Hd.
    eauto.
Qed.

(** ** NestedMultiDict: the reads over the components *)

Lemma getitem_loop_first (get : loc → K → @M K V (option V)) before d after key s v :
  Forall (λ d', get d' key s = (inr None, s)) before →
  get d key s = (inr (Some v), s) →
  NestedMultiDict_getitem_loop get (before ++ d :: after) key s = (inr v, s).
Proof.
  intros Hbefore Hd. induction Hbefore as [|d' before Hd' _ IH]; simpl.
  - unfold bind. by rewrite Hd.
  - unfold bind. rewrite Hd'. apply IH.
Qed.

Lemma getitem_loop_none (get : loc → K → @M K V (option V)) dicts key s :
  Forall (λ d, get d key s = (inr None, s)) dicts →
  NestedMultiDict_getitem_loop get dicts key s = (inl (KeyError (KeyArg key)), s).
Proof.
  intros Hall. induction Hall as [|d dicts Hd _ IH]; simpl; [done|].
  unfold bind. rewrite Hd. apply IH.
Qed.

Lemma getall_loop_concat (getall : loc → K → @M K V (list V)) dicts key s rs result :
  Forall2 (λ d r, getall d key s = (inr r, s)) dicts rs →
  NestedMultiDict_getall_loop getall dicts key result s =
  (inr (result ++ concat rs), s).
Proof.
  intros Hall. revert result.
  induction Hall as [|d r dicts rs Hd _ IH]; intros result; simpl.
  - by rewrite app_nil_r.
  - unfold bind. rewrite Hd, IH. by rewrite <- app_assoc.
Qed.

Lemma len_loop_sum (len : loc → @M K V nat) dicts s ns (acc : nat) :
  Forall2 (λ d n, len d s = (inr n, s)) dicts ns →
  NestedMultiDict_len_loop len dicts acc s = (inr (acc + sum_list ns), s).
Proof.
  intros Hall. revert acc.
  induction Hall as [|d n dicts ns Hd _ IH]; intros acc; simpl.
  - by rewrite Nat.add_0_r.
  - unfold bind. rewrite Hd, IH. by rewrite Nat.add_assoc.
Qed.

(** C6. For a NestedMultiDict over the components [dicts]: [__getitem__]
    returns what the first component that contains the key returns for it,
    and raises [KeyError(key)] when no component contains the key;
    [getall] is the concatenation of the components' [getall], in the
    order of the components; [len] is the sum of the components' [len]. *)
Theorem C6_nested_first_match_concat_sum fuel s self dicts key :
  heap s !! self = Some (NestedObj dicts) →
  (∀ before d after,
      dicts = before ++ d :: after →
      Forall (λ d', @contains K V _ fuel d' key s = (inr false, s)) before →
      contains fuel d key s = (inr true, s) →
      ∃ v, getitem repr_key fuel d key s = (inr v, s)
         ∧ getitem repr_key (S fuel) self key s = (inr v, s))
  ∧ (Forall (λ d, @contains K V _ fuel d key s = (inr false, s)) dicts →
      getitem repr_key (S fuel) self key s = (inl (KeyError (KeyArg key)), s))
  ∧ (∀ rs, Forall2 (λ d r, @getall K V _ fuel d key s = (inr r, s)) dicts rs →
      getall (S fuel) self key s = (inr (concat rs), s))
  ∧ (∀ ns, Forall2 (λ d n, @len K V fuel d s = (inr n, s)) dicts ns →
      len (S fuel) self s = (inr (sum_list ns), s)).
Proof.
  intros Hself.
  assert (∀ ds, Forall (λ d, @contains K V _ fuel d key s = (inr false, s)) ds →
                Forall (λ d, get repr_key fuel d key s = (inr None, s)) ds)
    as Hnone.
  { intros ds Hds. eapply Forall_impl; [exact Hds|]. intros d Hc. simpl in Hc.
    apply contains_getitem in Hc as [arg Harg].
    by eapply get_of_getitem_KeyError. }
  split; [|split; [|split]].
  - intros before d after -> Hbefore Hd.
    apply contains_getitem in Hd as [v Hv]. exists v. split; [done|].
    simpl. rewrite Hself.
    unfold NestedMultiDict_getitem, bind, attr_dicts. rewrite Hself.
    apply getitem_loop_first; [by apply Hnone|].
    by apply get_of_getitem_value.
  - intros Hall. simpl. rewrite Hself.
    unfold NestedMultiDict_getitem, bind, attr_dicts. rewrite Hself.
    apply getitem_loop_none. by apply Hnone.
  - intros rs Hall. simpl. rewrite Hself.
    unfold NestedMultiDict_getall, bind, attr_dicts. rewrite Hself.
    by rewrite (getall_loop_concat _ _ _ _ rs).
  - intros ns Hall. simpl. rewrite Hself.
    unfold NestedMultiDict_len, bind, attr_dicts. rewrite Hself.
    by rewrite (len_loop_sum _ _ _ ns).
Qed.

(** C7. On a NestedMultiDict each of [__setitem__], [add], [__delitem__],
    [clear], [setdefault], [pop], [popitem] and [update] raises
    [KeyError('NestedMultiDict objects are read-only')] whatever its
    arguments, and the store after the call is the store before it: the
    tuple of components and every component are as they were. *)
Theorem C7_nested_mutations_raise_readonly s self dicts m :
  heap s !! self = Some (NestedObj dicts) →
  is_extend m = false →
  call self m s =
  (inl (KeyError (MsgArg "NestedMultiDict objects are read-only")), s).
Proof.
  intros Hself Hm. unfold call. rewrite Hself. by destruct m.
Qed.

(** ** NoVars *)

Lemma append_empty_r (a : string) : a +:+ "" = a.
Proof.
  induction a as [|c a IH]; [done|].
  change (String c (a +:+ "") = String c a). by f_equal.
Qed.

Lemma includes_suffix (pre sub : string) : includes (pre +:+ sub) sub.
Proof. exists pre, "". by rewrite append_empty_r. Qed.

Lemma includes_empty (msg : string) : includes msg "".
Proof. by exists "", msg. Qed.

Lemma NoVars_call_run s self reason m :
  heap s !! self = Some (NoVarsObj reason) →
  is_extend m = false →
  call self m s =
  (inl (KeyError (MsgArg
     ((match m with
       | m_delitem _ | m_clear | m_pop _ _ | m_popitem => "No keys to delete: "
       | _ => "Cannot add variables: "
       end) +:+ reason))), s).
Proof.
  intros Hself Hm. unfold call. rewrite Hself.
  destruct m; try done;
    unfold NoVars_call, NoVars_setitem, NoVars_delitem, bind, attr_reason;
    by rewrite Hself.
Qed.

(** C8. A NoVars is empty and stays so: for every key [__getitem__] raises
    [KeyError('No key ...')], [getall] returns the empty list,
    [__contains__] is false and [len] is 0; each of the eight mutating
    methods the class defines ([__setitem__], [add], [setdefault],
    [update], [__delitem__], [clear], [pop], [popitem]) raises a [KeyError]
    whose message ends with [self.reason] and leaves the store as it was.
    [NoVars(reason)] sets [self.reason] to the reason given, or to ['N/A']
    when none or an empty one is given, so the message includes the reason
    given.  The ninth mutating operation of a MultiDict, [extend], is not
    defined by the class: the call raises [AttributeError], whose message
    does not cite the reason, and the store is left as it was. *)
Theorem C8_novars_empty_and_readonly fuel s self reason key :
  heap s !! self = Some (NoVarsObj reason) →
  getitem repr_key (S fuel) self key s =
    (inl (KeyError (MsgArg ("No key " +:+ repr_key key +:+ ": " +:+ reason))), s)
  ∧ getall (S fuel) self key s = (inr [], s)
  ∧ contains (S fuel) self key s = (inr false, s)
  ∧ len (S fuel) self s = (inr 0, s)
  ∧ (∀ m, is_extend m = false →
       ∃ msg, call self m s = (inl (KeyError (MsgArg msg)), s)
            ∧ includes msg reason)
  ∧ (∀ other,
       call self (m_extend other) s =
       (inl (AttributeError "'NoVars' object has no attribute 'extend'"), s))
  ∧ (∀ given s0, ∃ e s1 r,
       @NoVars_new K V given s0 = (inr e, s1)
       ∧ heap s1 !! e = Some (NoVarsObj r)
       ∧ r = match given with
             | Some c => if decide (c = "") then "N/A" else c
             | None => "N/A"
             end
       ∧ ∀ m, is_extend m = false →
           ∃ msg, call e m s1 = (inl (KeyError (MsgArg msg)), s1)
                ∧ includes msg r
                ∧ ∀ c, given = Some c → includes msg c).
Proof.
  intros Hself. repeat split.
  - simpl. rewrite Hself. unfold NoVars_getitem, bind, attr_reason.
    by rewrite Hself.
  - simpl. by rewrite Hself.
  - simpl. by rewrite Hself.
  - simpl. by rewrite Hself.
  - intros m Hm. eexists. split; [by apply NoVars_call_run|].
    apply includes_suffix.
  - intros other. unfold call. by rewrite Hself.
  - intros given s0. unfold NoVars_new.
    destruct (alloc_fresh (NoVarsObj (match given with
                                      | Some c => if decide (c = "") then "N/A" else c
                                      | None => "N/A"
                                      end)) s0) as (e & Hrun & Hfresh).
    eexists e, _, _. split; [exact Hrun|].
    assert (heap (set_heap <[e := NoVarsObj
              (match given with
               | Some c => if decide (c = "") then "N/A" else c
               | None => "N/A"
               end)]> s0) !! e = Some (NoVarsObj
              (match given with
               | Some c => if decide (c = "") then "N/A" else c
               | None => "N/A"
               end))) as He by apply lookup_insert_eq.
    split; [exact He|]. split; [done|].
    intros m Hm. eexists. split; [by apply NoVars_call_run|].
    split; [apply includes_suffix|].
    intros c ->. destruct (decide (c = "")) as [->|Hc].
    + apply includes_empty.
    + apply includes_suffix.
Qed.

(** C10. [copy] of a NoVars returns the object it was called on and creates
    nothing: the reference returned is [self] and the store is the store
    before.  So every read of the copy answers as the same read of the
    original, and every mutating call on the copy ends as the same call on
    the original. *)
Theorem C10_novars_copy_is_self fuel s self reason :
  heap s !! self = Some (NoVarsObj reason) →
  @copy K V fuel self s = (inr self, s)
  ∧ ∀ c s', @copy K V fuel self s = (inr c, s') →
      c = self ∧ s' = s
      ∧ (∀ key, getitem repr_key fuel c key s' = getitem repr_key fuel self key s
              ∧ getall fuel c key s' = getall fuel self key s
              ∧ contains fuel c key s' = contains fuel self key s)
      ∧ len fuel c s' = len fuel self s
      ∧ (∀ m, call c m s' = call self m s).
Proof.
  intros Hself.
  assert (@copy K V fuel self s = (inr self, s)) as Hcopy.
  { unfold copy. by rewrite Hself. }
  split; [done|]. intros c s'. rewrite Hcopy. by intros [= <- <-].
Qed.

(** ** TrackableMultiDict: what the tracker is told *)

Lemma notified_nil s : notified [] s = s.
Proof. destruct s. unfold notified. simpl. by rewrite app_nil_r. Qed.

Lemma notified_notified evs1 evs2 s :
  notified evs2 (notified evs1 s) = notified (evs1 ++ evs2) s.
Proof. unfold notified. simpl. by rewrite app_assoc. Qed.

Lemma store_notified l ys evs s :
  store l ys (notified evs s) = notified evs (store l ys s).
Proof. done. Qed.

Lemma is_plain_has_items s self l xs : is_plain s self l xs → has_items s self l xs.
Proof. intros [Hself Hl]. split; [|done]. unfold backing. by rewrite Hself. Qed.

Lemma is_tracked_has_items s self l cb name xs :
  is_tracked s self l cb name xs → has_items s self l xs.
Proof. intros [Hself Hl]. split; [|done]. unfold backing. by rewrite Hself. Qed.

Lemma is_plain_store s self l xs ys :
  is_plain s self l xs → is_plain (store l ys s) self l ys.
Proof.
  intros Hs. pose proof (has_items_ne _ _ _ _ (is_plain_has_items _ _ _ _ Hs)).
  destruct Hs as [Hself Hl]. split; simpl.
  - by rewrite lookup_insert_ne.
  - by rewrite lookup_insert_eq.
Qed.

Lemma is_tracked_store s self l cb name xs ys :
  is_tracked s self l cb name xs → is_tracked (store l ys s) self l cb name ys.
Proof.
  intros Hs.
  pose proof (has_items_ne _ _ _ _ (is_tracked_has_items _ _ _ _ _ _ Hs)).
  destruct Hs as [Hself Hl]. split; simpl.
  - by rewrite lookup_insert_ne.
  - by rewrite lookup_insert_eq.
Qed.

Lemma is_tracked_notified s self l cb name xs evs :
  is_tracked s self l cb name xs → is_tracked (notified evs s) self l cb name xs.
Proof. done. Qed.

Lemma entries_has_items s self l xs : has_items s self l xs → entries s self = Some xs.
Proof. intros [Hself Hl]. unfold entries. by rewrite Hself, Hl. Qed.

Lemma call_tracker_run s self l cb name xs args :
  is_tracked s self l cb name xs →
  call_tracker self args s = (inr (), notified [Call cb self args] s).
Proof. intros [Hself _]. unfold call_tracker. by rewrite Hself. Qed.

Lemma MultiDict_setdefault_run s self l xs key default :
  has_items s self l xs →
  MultiDict_setdefault self key default s =
  match setdefault_scan key xs with
  | Some v => (inr v, s)
  | None => (inr default, store l (xs ++ [(key, default)]) s)
  end.
Proof.
  intros Hs. unfold MultiDict_setdefault. run Hs.
  destruct (setdefault_scan key xs); [done|]. run Hs.
Qed.

(** [self[key] = value] on a plain MultiDict. *)
Lemma plain_setitem s self l xs key v :
  is_plain s self l xs →
  MultiDict_setitem self key v s = (inr (), store l (set_entries key v xs) s).
Proof.
  intros Hp. pose proof (is_plain_has_items _ _ _ _ Hp) as Hs.
  unfold MultiDict_setitem, bind, try_except_KeyError, delitem.
  rewrite (proj1 Hp), (MultiDict_delitem_run _ _ _ _ _ Hs).
  destruct (decide (key ∈ xs.*1)) as [Hin|Hout].
  - rewrite bool_decide_eq_true_2 by done.
    pose proof (has_items_store _ _ _ _ (without key xs) Hs) as Hs'.
    run Hs'. by rewrite store_store.
  - rewrite bool_decide_eq_false_2 by done. unfold ret. run Hs.
    unfold set_entries. by rewrite without_absent.
Qed.

(** [self[key] = value] on a TrackableMultiDict: the deletion tells the
    tracker when the key was there, then the assignment tells it. *)
Lemma tracked_setitem s self l cb name xs key v :
  is_tracked s self l cb name xs →
  TrackableMultiDict_setitem self key v s =
  (inr (), notified (set_extra cb self key xs ++ [Call cb self [AKey key; AVal v]])
             (store l (set_entries key v xs) s)).
Proof.
  intros Ht. pose proof (is_tracked_has_items _ _ _ _ _ _ Ht) as Hs.
  unfold TrackableMultiDict_setitem, MultiDict_setitem, bind,
    try_except_KeyError, delitem, TrackableMultiDict_delitem, bind.
  rewrite (proj1 Ht), (MultiDict_delitem_run _ _ _ _ _ Hs). unfold set_extra.
  destruct (decide (key ∈ xs.*1)) as [Hin|Hout].
  - rewrite !bool_decide_eq_true_2 by done.
    pose proof (is_tracked_store _ _ _ _ _ _ (without key xs) Ht) as Ht1.
    rewrite (call_tracker_run _ _ _ _ _ _ _ Ht1).
    pose proof (is_tracked_notified _ _ _ _ _ _ [Call cb self [AKey key]] Ht1)
      as Ht2.
    pose proof (is_tracked_has_items _ _ _ _ _ _ Ht2) as Hs2. run Hs2.
    rewrite store_notified, store_store.
    pose proof (is_tracked_notified _ _ _ _ _ _ [Call cb self [AKey key]]
                  (is_tracked_store _ _ _ _ _ _ (without key xs ++ [(key, v)]) Ht))
      as Ht3.
    rewrite (call_tracker_run _ _ _ _ _ _ _ Ht3). by rewrite notified_notified.
  - rewrite !bool_decide_eq_false_2 by done. unfold ret. run Hs.
    pose proof (is_tracked_store _ _ _ _ _ _ (xs ++ [(key, v)]) Ht) as Ht1.
    rewrite (call_tracker_run _ _ _ _ _ _ _ Ht1).
    unfold set_entries. by rewrite without_absent.
Qed.

Lemma plain_update_loop self l pairs : ∀ s xs,
  is_plain s self l xs →
  DictMixin_update_loop self pairs s =
  (inr (), store l (update_entries pairs xs) s).
Proof.
  induction pairs as [|[k v] pairs IH]; intros s xs Hp; simpl.
  - unfold ret. rewrite store_id; [done | apply Hp].
  - unfold bind, setitem. rewrite (proj1 Hp), (plain_setitem _ _ _ _ _ _ Hp).
    rewrite (IH _ _ (is_plain_store _ _ _ _ _ Hp)). by rewrite store_store.
Qed.

Lemma tracked_update_loop self l cb name pairs : ∀ s xs,
  is_tracked s self l cb name xs →
  DictMixin_update_loop self pairs s =
  (inr (), notified (update_events cb self pairs xs)
             (store l (update_entries pairs xs) s)).
Proof.
  induction pairs as [|[k v] pairs IH]; intros s xs Ht; simpl.
  - unfold ret. rewrite notified_nil, store_id; [done | apply Ht].
  - unfold bind, setitem. rewrite (proj1 Ht), (tracked_setitem _ _ _ _ _ _ _ _ Ht).
    rewrite (IH _ (set_entries k v xs)).
    + rewrite store_notified, store_store, notified_notified.
      by rewrite <- app_assoc.
    + apply is_tracked_notified. by apply (is_tracked_store _ _ _ _ _ xs).
Qed.

Lemma MultiDict_pop_run s self l xs key args :
  has_items s self l xs →
  MultiDict_pop self key args s =
  match apply_mutation (m_pop key args) xs with
  | inl e => (inl e, s)
  | inr (RVal v, xs') =>
      (inr v, match pop_loop key (seq 0 (length xs)) xs with
              | inr (Some _) => store l xs' s
              | _ => s
              end)
  | inr _ => (inl (TypeError "unreachable"), s)
  end.
Proof.
  intros Hs. unfold MultiDict_pop, apply_mutation.
  destruct (decide (1 < length args)); [done|]. run Hs.
  destruct (pop_loop key (seq 0 (length xs)) xs) as [e|[[v xs']|]]; [done| |].
  - run Hs.
  - by destruct args.
Qed.

Lemma entries_clear s self l' (o : @pyobj K V) :
  backing (set_heap <[self := o]> s) self = Some l' →
  heap s !! l' = Some (PyList []) → self ≠ l' →
  entries (set_heap <[self := o]> s) self = Some [].
Proof.
  intros Hb Hl' Hne. unfold entries. rewrite Hb. simpl.
  by rewrite lookup_insert_ne, Hl'.
Qed.

(** A call on a plain MultiDict: the pairs change as [apply_mutation] says
    and no tracker is called. *)
Lemma plain_call_run s self l xs m :
  is_plain s self l xs →
  match apply_mutation m xs with
  | inl e => call self m s = (inl e, s)
  | inr (r, ys) =>
      ∃ s', call self m s = (inr r, s')
          ∧ entries s' self = Some ys ∧ calls s' = calls s
  end.
Proof.
  intros Hp. pose proof (is_plain_has_items _ _ _ _ Hp) as Hs.
  unfold call. rewrite (proj1 Hp).
  destruct m as [key v|key v|key| |key default|key args| |other|other];
    unfold MultiDict_call, bind; simpl.
  - rewrite (plain_setitem _ _ _ _ _ _ Hp). eexists. split; [done|].
    split; [|done]. eapply entries_has_items. by apply (has_items_store _ _ _ xs).
  - rewrite (MultiDict_add_run _ _ _ _ _ _ Hs). eexists. split; [done|].
    split; [|done]. eapply entries_has_items. by apply (has_items_store _ _ _ xs).
  - rewrite (MultiDict_delitem_run _ _ _ _ _ Hs).
    destruct (bool_decide (key ∈ xs.*1)); [|done]. eexists. split; [done|].
    split; [|done]. eapply entries_has_items. by apply (has_items_store _ _ _ xs).
  - unfold MultiDict_clear, bind.
    destruct (alloc_fresh (PyList []) s) as (l' & -> & Hl').
    unfold set_attr_items. simpl.
    assert (l' ≠ self) as Hne by (intros ->; destruct Hp; congruence).
    rewrite lookup_insert_ne, (proj1 Hp) by done.
    eexists. split; [done|]. split; [|done].
    apply (entries_clear _ _ l'); [|by apply lookup_insert_eq|done].
    unfold backing. simpl. by rewrite lookup_insert_eq.
  - rewrite (MultiDict_setdefault_run _ _ _ _ _ _ Hs).
    destruct (setdefault_scan key xs) as [v|].
    + eexists. split; [done|]. split; [|done]. by eapply entries_has_items.
    + eexists. split; [done|]. split; [|done].
      eapply entries_has_items. by apply (has_items_store _ _ _ xs).
  - rewrite (MultiDict_pop_run _ _ _ _ _ _ Hs). unfold apply_mutation.
    destruct (decide (1 < length args)); [done|].
    destruct (pop_loop key (seq 0 (length xs)) xs) as [e|[[v xs']|]]; [done| |].
    + eexists. split; [done|]. split; [|done].
      eapply entries_has_items. by apply (has_items_store _ _ _ xs).
    + destruct args as [|default args]; [done|].
      eexists. split; [done|]. split; [|done]. by eapply entries_has_items.
  - rewrite (MultiDict_popitem_run _ _ _ _ Hs).
    destruct (list_pop xs) as [e|[kv xs']]; [done|].
    eexists. split; [done|]. split; [|done].
    eapply entries_has_items. by apply (has_items_store _ _ _ xs).
  - unfold MultiDict_update, DictMixin_update, bind.
    destruct other as [pairs|]; simpl.
    + destruct (forallb hashable pairs.*1); [|done].
      destruct (decide (length pairs ≠ length (remove_dups pairs.*1))).
      * unfold warn.
        erewrite (plain_update_loop _ l pairs _ xs); [|exact Hp].
        eexists. split; [done|]. split; [|done].
        eapply entries_has_items. by apply (has_items_store _ _ _ xs).
      * unfold ret. rewrite (plain_update_loop _ _ _ _ _ Hp).
        eexists. split; [done|]. split; [|done].
        eapply entries_has_items. by apply (has_items_store _ _ _ xs).
    + eexists. split; [done|]. split; [|done]. by eapply entries_has_items.
  - destruct other as [pairs|].
    + rewrite (MultiDict_extend_run _ _ _ _ _ Hs). eexists. split; [done|].
      split; [|done]. eapply entries_has_items.
      by apply (has_items_store _ _ _ xs).
    + eexists. split; [done|]. split; [|done]. by eapply entries_has_items.
Qed.

(** A call of an overridden method on a TrackableMultiDict: the pairs change
    as on a plain MultiDict, and the tracker is called last with the
    arguments of [notification]; nothing is told when the call raises. *)
Lemma tracked_call_run s self l cb name xs m :
  is_tracked s self l cb name xs →
  is_extend m = false →
  match apply_mutation m xs with
  | inl e => call self m s = (inl e, s)
  | inr (r, ys) =>
      ∃ s', call self m s = (inr r, s')
          ∧ entries s' self = Some ys
          ∧ calls s' = calls s ++ extra_events cb self m xs
                         ++ [Call cb self (notification m r)]
  end.
Proof.
  intros Ht Hm. pose proof (is_tracked_has_items _ _ _ _ _ _ Ht) as Hs.
  unfold call. rewrite (proj1 Ht).
  destruct m as [key v|key v|key| |key default|key args| |other|other];
    [..|done]; unfold TrackableMultiDict_call, bind; simpl.
  - rewrite (tracked_setitem _ _ _ _ _ _ _ _ Ht). eexists. split; [done|].
    split; [|done]. eapply entries_has_items. apply has_items_notified.
    by apply (has_items_store _ _ _ xs).
  - unfold TrackableMultiDict_add, bind.
    rewrite (MultiDict_add_run _ _ _ _ _ _ Hs).
    rewrite (call_tracker_run _ _ _ _ _ _ _
               (is_tracked_store _ _ _ _ _ _ (xs ++ [(key, v)]) Ht)).
    eexists. split; [done|]. split; [|done].
    eapply entries_has_items. apply has_items_notified.
    by apply (has_items_store _ _ _ xs).
  - unfold TrackableMultiDict_delitem, bind.
    rewrite (MultiDict_delitem_run _ _ _ _ _ Hs).
    destruct (bool_decide (key ∈ xs.*1)); [|done].
    rewrite (call_tracker_run _ _ _ _ _ _ _
               (is_tracked_store _ _ _ _ _ _ (without key xs) Ht)).
    eexists. split; [done|]. split; [|done].
    eapply entries_has_items. apply has_items_notified.
    by apply (has_items_store _ _ _ xs).
  - unfold TrackableMultiDict_clear, MultiDict_clear, bind.
    destruct (alloc_fresh (PyList []) s) as (l' & -> & Hl').
    unfold set_attr_items. simpl.
    assert (l' ≠ self) as Hne by (intros ->; destruct Ht; congruence).
    rewrite lookup_insert_ne, (proj1 Ht) by done.
    unfold call_tracker. simpl. rewrite lookup_insert_eq.
    eexists. split; [done|]. split; [|done].
    unfold entries, backing. simpl. rewrite lookup_insert_eq.
    rewrite lookup_insert_ne by done. by rewrite lookup_insert_eq.
  - unfold TrackableMultiDict_setdefault, bind.
    rewrite (MultiDict_setdefault_run _ _ _ _ _ _ Hs).
    destruct (setdefault_scan key xs) as [v|].
    + rewrite (call_tracker_run _ _ _ _ _ _ _ Ht).
      eexists. split; [done|]. split; [|done]. by eapply entries_has_items.
    + rewrite (call_tracker_run _ _ _ _ _ _ _
                 (is_tracked_store _ _ _ _ _ _ (xs ++ [(key, default)]) Ht)).
      eexists. split; [done|]. split; [|done].
      eapply entries_has_items. apply has_items_notified.
      by apply (has_items_store _ _ _ xs).
  - unfold TrackableMultiDict_pop, bind.
    rewrite (MultiDict_pop_run _ _ _ _ _ _ Hs). unfold apply_mutation.
    destruct (decide (1 < length args)); [done|].
    destruct (pop_loop key (seq 0 (length xs)) xs) as [e|[[v xs']|]]; [done| |].
    + rewrite (call_tracker_run _ _ _ _ _ _ _
                 (is_tracked_store _ _ _ _ _ _ xs' Ht)).
      eexists. split; [done|]. split; [|done].
      eapply entries_has_items. apply has_items_notified.
      by apply (has_items_store _ _ _ xs).
    + destruct args as [|default args]; [done|].
      rewrite (call_tracker_run _ _ _ _ _ _ _ Ht).
      eexists. split; [done|]. split; [|done]. by eapply entries_has_items.
  - unfold TrackableMultiDict_popitem, bind.
    rewrite (MultiDict_popitem_run _ _ _ _ Hs).
    destruct (list_pop xs) as [e|[kv xs']]; [done|].
    rewrite (call_tracker_run _ _ _ _ _ _ _
               (is_tracked_store _ _ _ _ _ _ xs' Ht)).
    eexists. split; [done|]. split; [|done].
    eapply entries_has_items. apply has_items_notified.
    by apply (has_items_store _ _ _ xs).
  - unfold TrackableMultiDict_update, MultiDict_update, DictMixin_update, bind.
    destruct other as [pairs|]; simpl.
    + destruct (forallb hashable pairs.*1); [|done].
      destruct (decide (length pairs ≠ length (remove_dups pairs.*1))).
      * unfold warn.
        erewrite (tracked_update_loop _ l cb name pairs _ xs); [|exact Ht].
        erewrite call_tracker_run;
          [|apply is_tracked_notified, (is_tracked_store _ _ _ _ _ xs); exact Ht].
        rewrite notified_notified.
        eexists. split; [done|]. split; [|done].
        eapply entries_has_items. apply has_items_notified.
        by apply (has_items_store _ _ _ xs).
      * unfold ret. rewrite (tracked_update_loop _ _ _ _ _ _ _ Ht).
        erewrite call_tracker_run;
          [|apply is_tracked_notified, (is_tracked_store _ _ _ _ _ xs); exact Ht].
        rewrite notified_notified.
        eexists. split; [done|]. split; [|done].
        eapply entries_has_items. apply has_items_notified.
        by apply (has_items_store _ _ _ xs).
    + rewrite (call_tracker_run _ _ _ _ _ _ _ Ht).
      eexists. split; [done|]. split; [|done]. by eapply entries_has_items.
Qed.

Lemma tracked_extend_run s self l cb name xs pairs :
  is_tracked s self l cb name xs →
  call self (m_extend (Some pairs)) s = (inr RNone, store l (xs ++ pairs) s).
Proof.
  intros Ht. pose proof (is_tracked_has_items _ _ _ _ _ _ Ht) as Hs.
  unfold call. rewrite (proj1 Ht). unfold TrackableMultiDict_call, bind.
  by rewrite (MultiDict_extend_run _ _ _ _ _ Hs).
Qed.

(** C9. On a TrackableMultiDict with a registered tracker, each method the
    class overrides ([__setitem__], [add], [__delitem__], [clear],
    [setdefault], [pop], [popitem], [update]) returns what the same call
    returns on a plain MultiDict with the same pairs, leaves the same pairs,
    and ends by calling the tracker: with the key and the value for
    [__setitem__] and [add], with the key for [__delitem__], with nothing
    for [clear], [popitem] and [update].  Before that last call
    [__setitem__] has told the tracker of the deletion when the key was
    there, and [update] of each of its assignments ([extra_events]).  When
    the call raises on the plain MultiDict it raises the same on the
    TrackableMultiDict and the store, so the trace of calls, is as before.
    [extend] is inherited as it is: it appends the pairs and the tracker is
    not called. *)
Theorem C9_tracked_calls_notify_but_extend s self l cb name xs s0 b l0 m :
  is_tracked s self l cb name xs →
  is_plain s0 b l0 xs →
  (is_extend m = false →
     match call b m s0 with
     | (inr r, s0') =>
         ∃ s', call self m s = (inr r, s')
             ∧ entries s' self = entries s0' b
             ∧ calls s0' = calls s0
             ∧ calls s' = calls s ++ extra_events cb self m xs
                            ++ [Call cb self (notification m r)]
     | (inl e, s0') => s0' = s0 ∧ call self m s = (inl e, s)
     end)
  ∧ (∀ pairs, ∃ s',
        call self (m_extend (Some pairs)) s = (inr RNone, s')
        ∧ entries s' self = Some (xs ++ pairs)
        ∧ calls s' = calls s).
Proof.
  intros Ht Hp. split.
  - intros Hm.
    pose proof (plain_call_run s0 b l0 xs m Hp) as Hplain.
    pose proof (tracked_call_run s self l cb name xs m Ht Hm) as Htracked.
    destruct (apply_mutation m xs) as [e|[r ys]].
    + by rewrite Hplain.
    + destruct Hplain as (s0' & -> & Hentries0 & Hcalls0).
      destruct Htracked as (s' & Hcall & Hentries & Hcalls).
      exists s'. by rewrite Hentries0.
  - intros pairs. eexists. split; [by eapply tracked_extend_run|].
    split; [|done]. eapply entries_has_items.
    apply (has_items_store _ _ _ xs). by eapply is_tracked_has_items.
Qed.

(** ** Sharing and copies of a MultiDict *)

(** [view_list(lst)] gives a MultiDict backed by [lst] itself: an [add]
    through it is an append to [lst]. *)
Lemma view_list_shares s lst xs key v :
  heap s !! lst = Some (PyList xs) →
  ∃ obj s',
    @MultiDict_view_list K V lst s = (inr obj, s')
    ∧ has_items s' obj lst xs
    ∧ ∃ s'', MultiDict_add obj key v s' = (inr (), s'')
           ∧ heap s'' !! lst = Some (PyList (xs ++ [(key, v)])).
Proof.
  intros Hlst. unfold MultiDict_view_list. rewrite Hlst.
  unfold MultiDict_new, bind.
  destruct (alloc_fresh (PyList []) s) as (l0 & -> & Hl0).
  destruct (alloc_fresh (MultiDictObj l0) (set_heap <[l0 := PyList []]> s))
    as (obj & -> & Hobj).
  simpl in Hobj.
  assert (l0 ≠ lst) as Hne0 by (intros ->; congruence).
  assert (obj ≠ lst) as Hne.
  { intros ->. rewrite lookup_insert_ne in Hobj by done. congruence. }
  unfold set_attr_items. simpl. rewrite lookup_insert_eq.
  assert (has_items
            (set_heap <[obj := MultiDictObj lst]>
               (set_heap <[obj := MultiDictObj l0]>
                  (set_heap <[l0 := PyList []]> s))) obj lst xs) as Hs'.
  { split.
    - unfold backing. simpl. by rewrite lookup_insert_eq.
    - simpl. by rewrite !lookup_insert_ne. }
  eexists _, _. split; [done|]. split; [exact Hs'|].
  eexists. split; [by apply MultiDict_add_run|].
  simpl. by rewrite lookup_insert_eq.
Qed.

(** [copy] of a MultiDict is another object with a list of its own. *)
Lemma MultiDict_copy_is_new fuel s self l xs :
  has_items s self l xs →
  ∃ c l' s',
    @copy K V (S fuel) self s = (inr c, s')
    ∧ c ≠ self ∧ l' ≠ l
    ∧ has_items s' c l' xs ∧ has_items s' self l xs.
Proof.
  intros Hs.
  assert (MultiDict_new (S fuel) [self] s =
          (l1 <- alloc (PyList xs) ;; alloc (MultiDictObj l1)) s) as Hnew.
  { unfold MultiDict_new, bind, init_items. simpl.
    pose proof Hs as [Hself Hl]. unfold backing in Hself.
    destruct (heap s !! self) as [[]|] eqn:Hobj; try done;
      unfold MultiDict_iteritems; run Hs. }
  assert (@copy K V (S fuel) self s = MultiDict_new (S fuel) [self] s) as ->.
  { unfold copy. pose proof Hs as [Hself _]. unfold backing in Hself.
    by destruct (heap s !! self) as [[]|]. }
  rewrite Hnew. unfold bind.
  destruct (alloc_fresh (PyList xs) s) as (l1 & -> & Hl1).
  destruct (alloc_fresh (MultiDictObj l1) (set_heap <[l1 := PyList xs]> s))
    as (c & -> & Hc).
  simpl in Hc.
  assert (c ≠ l1) as Hne by (intros ->; by rewrite lookup_insert_eq in Hc).
  rewrite lookup_insert_ne in Hc by done.
  eexists c, l1, _. split; [done|]. split.
  { intros ->. destruct Hs as [Hself _]. unfold backing in Hself.
    by rewrite Hc in Hself. }
  split. { intros ->. destruct Hs as [_ Hl]. congruence. }
  split.
  - split.
    + unfold backing. simpl. by rewrite lookup_insert_eq.
    + simpl. rewrite lookup_insert_ne by done. by rewrite lookup_insert_eq.
  - apply has_items_alloc; [by apply has_items_alloc|].
    simpl. by rewrite lookup_insert_ne.
Qed.

(** * Further properties of the methods *)

(** ** MultiDict: assignment and deletion *)

Lemma values_of_without_ne key key' xs :
  key' ≠ key → values_of key' (without key xs) = values_of key' xs.
Proof.
  intros Hne. induction xs as [|[k v] xs IH]; [done|].
  rewrite without_cons, !values_of_cons.
  destruct (decide (k = key)) as [->|Hk].
  - by rewrite decide_False by done.
  - rewrite values_of_cons. destruct (decide (k = key')); by rewrite IH.
Qed.

Lemma without_keys key xs : key ∉ (without key xs).*1.
Proof. apply values_of_nil_iff, values_of_without. Qed.

Lemma length_without key xs :
  length xs = length (without key xs) + length (values_of key xs).
Proof.
  induction xs as [|[k v] xs IH]; [done|].
  rewrite without_cons, values_of_cons.
  destruct (decide (k = key)); simpl; lia.
Qed.

Lemma values_of_set_entries key k v xs :
  values_of key (set_entries k v xs) =
  if decide (key = k) then [v] else values_of key xs.
Proof.
  unfold set_entries. rewrite values_of_app, values_of_cons, values_of_nil.
  destruct (decide (key = k)) as [->|Hne].
  - by rewrite values_of_without, decide_True.
  - rewrite decide_False by done. rewrite app_nil_r.
    by apply values_of_without_ne.
Qed.

(** X1. [d[key] = value] on a MultiDict deletes every pair with the key and
    appends the new pair: afterwards [getall(key)] is [[value]] and
    [d[key]] is [value], however many values the key had; the values of
    every other key are as before, and [len] has dropped by the number of
    values the key had, less one. *)
Theorem X1_setitem_collapses_to_one_value s self l xs key v :
  is_plain s self l xs →
  let s' := store l (without key xs ++ [(key, v)]) s in
  MultiDict_setitem self key v s = (inr (), s')
  ∧ MultiDict_getall self key s' = (inr [v], s')
  ∧ MultiDict_getitem self key s' = (inr v, s')
  ∧ (∀ key', key' ≠ key →
       MultiDict_getall self key' s' = (inr (values_of key' xs), s'))
  ∧ ∃ n, MultiDict_len self s' = (inr n, s')
       ∧ n + length (values_of key xs) = length xs + 1.
Proof.
  intros Hp s'. pose proof (is_plain_has_items _ _ _ _ Hp) as Hs.
  pose proof (has_items_store _ _ _ _ (without key xs ++ [(key, v)]) Hs) as Hs'.
  fold s' in Hs'.
  split; [by apply plain_setitem|].
  rewrite (MultiDict_getitem_run _ _ _ _ _ Hs').
  rewrite (MultiDict_len_run _ _ _ _ Hs').
  pose proof (values_of_set_entries key key v xs) as Hsame.
  unfold set_entries in Hsame. rewrite decide_True in Hsame by done.
  split; [by rewrite (MultiDict_getall_run _ _ _ _ _ Hs'), Hsame|].
  split; [by rewrite Hsame|]. split.
  - intros key' Hne. rewrite (MultiDict_getall_run _ _ _ _ _ Hs').
    pose proof (values_of_set_entries key' key v xs) as Hother.
    rewrite decide_False in Hother by done. unfold set_entries in Hother.
    by rewrite Hother.
  - eexists. split; [done|]. rewrite length_app. simpl.
    pose proof (length_without key xs). lia.
Qed.

(** X2. [del d[key]] on a MultiDict that holds the key deletes every pair
    with the key and keeps the others in their order: afterwards
    [key in d] is false, [d[key]] raises [KeyError(key)] and the values of
    every other key are as before.  When no pair has the key it raises
    [KeyError(key)] and the store is as before. *)
Theorem X2_delitem_removes_every_pair s self l xs key :
  has_items s self l xs →
  (key ∈ xs.*1 →
     let s' := store l (without key xs) s in
     MultiDict_delitem self key s = (inr (), s')
     ∧ MultiDict_contains self key s' = (inr false, s')
     ∧ MultiDict_getitem self key s' = (inl (KeyError (KeyArg key)), s')
     ∧ MultiDict_getall self key s' = (inr [], s')
     ∧ ∀ key', key' ≠ key →
         MultiDict_getall self key' s' = (inr (values_of key' xs), s'))
  ∧ (key ∉ xs.*1 →
     MultiDict_delitem self key s = (inl (KeyError (KeyArg key)), s)).
Proof.
  intros Hs. rewrite (MultiDict_delitem_run _ _ _ _ _ Hs). split.
  - intros Hin s'.
    pose proof (has_items_store _ _ _ _ (without key xs) Hs) as Hs'.
    fold s' in Hs'.
    rewrite bool_decide_eq_true_2 by done. split; [done|].
    rewrite (MultiDict_contains_run _ _ _ _ _ Hs').
    rewrite (MultiDict_getitem_run _ _ _ _ _ Hs').
    rewrite (MultiDict_getall_run _ _ _ _ _ Hs').
    rewrite values_of_without.
    split; [by rewrite bool_decide_eq_false_2 by apply without_keys|].
    split; [done|]. split; [done|].
    intros key' Hne. rewrite (MultiDict_getall_run _ _ _ _ _ Hs').
    by rewrite values_of_without_ne.
  - intros Hout. by rewrite bool_decide_eq_false_2.
Qed.

(** X3. On a MultiDict [key in d] is true exactly when [d[key]] returns a
    value, which is exactly when [getall(key)] is not empty; it is false
    exactly when [d[key]] raises [KeyError(key)]. *)
Theorem X3_contains_iff_getitem_returns s self l xs key :
  has_items s self l xs →
  ∃ b, MultiDict_contains self key s = (inr b, s)
     ∧ (b = true ↔ ∃ v, MultiDict_getitem self key s = (inr v, s))
     ∧ (b = true ↔ values_of key xs ≠ [])
     ∧ (b = false ↔
        MultiDict_getitem self key s = (inl (KeyError (KeyArg key)), s)).
Proof.
  intros Hs. exists (bool_decide (key ∈ xs.*1)).
  split; [by apply (MultiDict_contains_run _ _ l)|].
  rewrite (MultiDict_getitem_run _ _ _ _ _ Hs).
  destruct (decide (key ∈ xs.*1)) as [Hin|Hout].
  - rewrite bool_decide_eq_true_2 by done.
    assert (values_of key xs ≠ []) as Hne by (by rewrite values_of_nil_iff; auto).
    destruct (last (values_of key xs)) as [v|] eqn:Hlast.
    + repeat split; try done; eauto.
    + apply last_values_of_None in Hlast. done.
  - rewrite bool_decide_eq_false_2 by done.
    pose proof Hout as Hnil%values_of_nil_iff.
    pose proof Hout as Hlast%last_values_of_None. rewrite Hlast, Hnil.
    repeat split; try done. by intros [v ?].
Qed.

Lemma setdefault_scan_head key xs : setdefault_scan key xs = head (values_of key xs).
Proof.
  induction xs as [|[k v] xs IH]; [done|].
  rewrite values_of_cons. simpl.
  destruct (decide (key = k)) as [->|Hne].
  - by rewrite decide_True.
  - by rewrite decide_False by done.
Qed.

(** X4. [setdefault(key, default)] on a MultiDict that holds the key returns
    the value of the first pair with the key and changes nothing, while
    [d[key]] is the value of the last one.  When no pair has the key it
    appends [(key, default)] and returns [default], which [d[key]] then
    is. *)
Theorem X4_setdefault_first_value_or_append s self l xs key default :
  has_items s self l xs →
  (∀ v rest, values_of key xs = v :: rest →
     MultiDict_setdefault self key default s = (inr v, s)
     ∧ ∃ w, last (v :: rest) = Some w
          ∧ MultiDict_getitem self key s = (inr w, s))
  ∧ (values_of key xs = [] →
     let s' := store l (xs ++ [(key, default)]) s in
     MultiDict_setdefault self key default s = (inr default, s')
     ∧ MultiDict_getitem self key s' = (inr default, s')
     ∧ MultiDict_getall self key s' = (inr [default], s')).
Proof.
  intros Hs. rewrite (MultiDict_setdefault_run _ _ _ _ _ _ Hs).
  rewrite setdefault_scan_head. split.
  - intros v rest Hvals. rewrite Hvals. split; [done|].
    rewrite (MultiDict_getitem_run _ _ _ _ _ Hs), Hvals.
    destruct (last (v :: rest)) as [w|] eqn:Hlast; [by exists w|].
    by apply last_None in Hlast.
  - intros Hvals s'. rewrite Hvals.
    pose proof (has_items_store _ _ _ _ (xs ++ [(key, default)]) Hs) as Hs'.
    fold s' in Hs'. split; [done|].
    rewrite (MultiDict_getitem_run _ _ _ _ _ Hs').
    rewrite (MultiDict_getall_run _ _ _ _ _ Hs').
    rewrite values_of_app, values_of_cons, values_of_nil, decide_True by done.
    by rewrite Hvals.
Qed.

(** ** MultiDict: [clear], [view_list], [copy] *)

(** X5. [clear] binds [_items] to a new empty list: afterwards [len] is 0
    and no key is found, but the list object the MultiDict had is left with
    its pairs, so another MultiDict on that list (one made by [view_list])
    still holds them. *)
Theorem X5_clear_rebinds_to_a_new_list s self l xs :
  has_items s self l xs →
  ∃ l' s',
    MultiDict_clear self s = (inr (), s')
    ∧ has_items s' self l' []
    ∧ MultiDict_len self s' = (inr 0, s')
    ∧ (∀ key, MultiDict_getall self key s' = (inr [], s')
            ∧ MultiDict_contains self key s' = (inr false, s'))
    ∧ heap s !! l' = None
    ∧ heap s' !! l = Some (PyList xs)
    ∧ ∀ d, d ≠ self → has_items s d l xs → has_items s' d l xs.
Proof.
  intros Hs. pose proof (has_items_ne _ _ _ _ Hs) as Hne.
  unfold MultiDict_clear, bind.
  destruct (alloc_fresh (PyList []) s) as (l' & -> & Hl').
  assert (l' ≠ self) as Hne'.
  { intros ->. destruct Hs as [Hself _]. unfold backing in Hself.
    by rewrite Hl' in Hself. }
  assert (l' ≠ l) as Hnel by (intros ->; destruct Hs; congruence).
  unfold set_attr_items. simpl. rewrite lookup_insert_ne by done.
  pose proof Hs as [Hself Hl]. unfold backing in Hself.
  destruct (heap s !! self) as [[ys|l0|l0 t n|ds|r]|] eqn:Hobj; try done;
    injection Hself as ->.
  - set (s' := set_heap <[self := MultiDictObj l']>
                 (set_heap <[l' := PyList []]> s)).
    assert (has_items s' self l' []) as Hs'.
    { split.
      - unfold backing. simpl. by rewrite lookup_insert_eq.
      - simpl. rewrite lookup_insert_ne by done. apply lookup_insert_eq. }
    exists l', s'. split; [done|]. split; [done|].
    split; [by rewrite (MultiDict_len_run _ _ _ _ Hs')|]. split.
    { intros key. rewrite (MultiDict_getall_run _ _ _ _ _ Hs').
      rewrite (MultiDict_contains_run _ _ _ _ _ Hs'). split; [done|].
      by rewrite bool_decide_eq_false_2 by apply not_elem_of_nil. }
    split; [done|]. split.
    { simpl. by rewrite !lookup_insert_ne. }
    intros d Hd [Hdb Hdl]. split.
    + unfold backing in *. simpl. rewrite !lookup_insert_ne; [done|..].
      * intros ->. by rewrite Hl' in Hdb.
      * done.
    + simpl. by rewrite !lookup_insert_ne.
  - set (s' := set_heap <[self := TrackableObj l' t n]>
                 (set_heap <[l' := PyList []]> s)).
    assert (has_items s' self l' []) as Hs'.
    { split.
      - unfold backing. simpl. by rewrite lookup_insert_eq.
      - simpl. rewrite lookup_insert_ne by done. apply lookup_insert_eq. }
    exists l', s'. split; [done|]. split; [done|].
    split; [by rewrite (MultiDict_len_run _ _ _ _ Hs')|]. split.
    { intros key. rewrite (MultiDict_getall_run _ _ _ _ _ Hs').
      rewrite (MultiDict_contains_run _ _ _ _ _ Hs'). split; [done|].
      by rewrite bool_decide_eq_false_2 by apply not_elem_of_nil. }
    split; [done|]. split.
    { simpl. by rewrite !lookup_insert_ne. }
    intros d Hd [Hdb Hdl]. split.
    + unfold backing in *. simpl. rewrite !lookup_insert_ne; [done|..].
      * intros ->. by rewrite Hl' in Hdb.
      * done.
    + simpl. by rewrite !lookup_insert_ne.
Qed.

(** X6. [view_list(lst)] on a list object gives a new MultiDict whose
    [_items] is [lst] itself: an [add] through it appends to [lst], and
    every other MultiDict on [lst] sees the pair.  On an object that is not
    a list it raises [TypeError] and creates nothing. *)
Theorem X6_view_list_shares_the_list s lst :
  (∀ xs, heap s !! lst = Some (PyList xs) →
     ∃ obj s',
       @MultiDict_view_list K V lst s = (inr obj, s')
       ∧ is_plain s' obj lst xs
       ∧ heap s !! obj = None
       ∧ (∀ d, has_items s d lst xs → has_items s' d lst xs)
       ∧ ∀ key v, ∃ s'',
           MultiDict_add obj key v s' = (inr (), s'')
           ∧ heap s'' !! lst = Some (PyList (xs ++ [(key, v)]))
           ∧ ∀ d, has_items s' d lst xs →
                  has_items s'' d lst (xs ++ [(key, v)]))
  ∧ ((∀ xs, heap s !! lst ≠ Some (PyList xs)) →
     ∃ msg, @MultiDict_view_list K V lst s = (inl (TypeError msg), s)).
Proof.
  split.
  - intros xs Hlst. unfold MultiDict_view_list. rewrite Hlst.
    unfold MultiDict_new, bind.
    destruct (alloc_fresh (PyList []) s) as (l0 & -> & Hl0).
    destruct (alloc_fresh (MultiDictObj l0) (set_heap <[l0 := PyList []]> s))
      as (obj & -> & Hobj).
    simpl in Hobj.
    assert (l0 ≠ lst) as Hne0 by (intros ->; congruence).
    assert (obj ≠ l0) as Hne1 by (intros ->; by rewrite lookup_insert_eq in Hobj).
    rewrite lookup_insert_ne in Hobj by done.
    assert (obj ≠ lst) as Hne by (intros ->; congruence).
    unfold set_attr_items. simpl. rewrite lookup_insert_eq.
    set (s' := set_heap <[obj := MultiDictObj lst]>
                 (set_heap <[obj := MultiDictObj l0]>
                    (set_heap <[l0 := PyList []]> s))).
    assert (is_plain s' obj lst xs) as Hp.
    { split; simpl; [by rewrite lookup_insert_eq | by rewrite !lookup_insert_ne]. }
    assert (∀ d, has_items s d lst xs → has_items s' d lst xs) as Hkeep.
    { intros d [Hdb Hdl]. split.
      - unfold backing in *. simpl.
        rewrite !lookup_insert_ne; [done|..]; intros ->.
        + by rewrite Hl0 in Hdb.
        + by rewrite Hobj in Hdb.
        + by rewrite Hobj in Hdb.
      - simpl. by rewrite !lookup_insert_ne. }
    exists obj, s'. split; [done|]. split; [done|]. split; [done|].
    split; [done|]. intros key v. eexists.
    split; [by apply (MultiDict_add_run _ _ lst xs), is_plain_has_items|].
    split; [simpl; by rewrite lookup_insert_eq|].
    intros d Hd. by apply (has_items_store _ _ _ xs).
  - intros Hnot. unfold MultiDict_view_list.
    destruct (heap s !! lst) as [[xs| | | |]|] eqn:Hlst; eauto. by destruct (Hnot xs).
Qed.

(** X7. [copy] of a MultiDict or a TrackableMultiDict is a new plain
    MultiDict with the same pairs and a list of its own: an [add] on either
    is not seen by the other, no tracker is called by the copying, and no
    call on the copy ever calls a tracker. *)
Theorem X7_copy_is_independent_and_untracked fuel s self l xs :
  has_items s self l xs →
  ∃ c l' s',
    @copy K V (S fuel) self s = (inr c, s')
    ∧ is_plain s' c l' xs ∧ c ≠ self ∧ l' ≠ l
    ∧ has_items s' self l xs
    ∧ calls s' = calls s
    ∧ (∀ key v, ∃ s'', MultiDict_add c key v s' = (inr (), s'')
                     ∧ has_items s'' self l xs)
    ∧ (∀ key v, ∃ s'', MultiDict_add self key v s' = (inr (), s'')
                     ∧ has_items s'' c l' xs)
    ∧ ∀ m r s'', call c m s' = (r, s'') → calls s'' = calls s'.
Proof.
  intros Hs.
  assert (MultiDict_new (S fuel) [self] s =
          (l1 <- alloc (PyList xs) ;; alloc (MultiDictObj l1)) s) as Hnew.
  { unfold MultiDict_new, bind, init_items. simpl.
    pose proof Hs as [Hself Hl]. unfold backing in Hself.
    destruct (heap s !! self) as [[]|] eqn:Hobj; try done;
      unfold MultiDict_iteritems; run Hs. }
  assert (@copy K V (S fuel) self s = MultiDict_new (S fuel) [self] s) as ->.
  { unfold copy. pose proof Hs as [Hself _]. unfold backing in Hself.
    by destruct (heap s !! self) as [[]|]. }
  rewrite Hnew. unfold bind.
  destruct (alloc_fresh (PyList xs) s) as (l1 & -> & Hl1).
  destruct (alloc_fresh (MultiDictObj l1) (set_heap <[l1 := PyList xs]> s))
    as (c & -> & Hc).
  simpl in Hc.
  assert (c ≠ l1) as Hne by (intros ->; by rewrite lookup_insert_eq in Hc).
  rewrite lookup_insert_ne in Hc by done.
  set (s' := set_heap <[c := MultiDictObj l1]> (set_heap <[l1 := PyList xs]> s)).
  assert (is_plain s' c l1 xs) as Hp.
  { split; simpl; [by rewrite lookup_insert_eq|].
    rewrite lookup_insert_ne by done. by rewrite lookup_insert_eq. }
  assert (has_items s' self l xs) as Hs'.
  { apply has_items_alloc; [by apply has_items_alloc|].
    simpl. by rewrite lookup_insert_ne. }
  assert (l1 ≠ l) as Hnel by (intros ->; destruct Hs; congruence).
  exists c, l1, s'. split; [done|]. split; [done|]. split.
  { intros ->. destruct Hs as [Hself _]. unfold backing in Hself.
    by rewrite Hc in Hself. }
  split; [done|]. split; [done|]. split; [done|]. split; [|split].
  - intros key v. eexists.
    split; [by apply (MultiDict_add_run _ _ l1 xs), is_plain_has_items|].
    apply (has_items_store_other _ _ _ _ _ xs); [done|apply Hp|done].
  - intros key v. eexists. split; [by apply MultiDict_add_run|].
    apply (has_items_store_other _ _ _ _ _ xs);
      [by apply is_plain_has_items|apply Hs'|done].
  - intros m r s'' Hcall. pose proof (plain_call_run s' c l1 xs m Hp) as Hrun.
    destruct (apply_mutation m xs) as [e|[r' ys]].
    + rewrite Hrun in Hcall. by injection Hcall as <- <-.
    + destruct Hrun as (s1 & Hrun & _ & Hcalls). rewrite Hrun in Hcall.
      by injection Hcall as <- <-.
Qed.

(** ** MultiDict: [extend], [update], [add] with [popitem] *)







(** X10. [add(key, value)] followed by [popitem()] returns [(key, value)]
    and leaves the store exactly as it was before the [add]. *)
Theorem X10_add_then_popitem_restores s self l xs key v :
  has_items s self l xs →
  (MultiDict_add self key v ;;; MultiDict_popitem self) s = (inr (key, v), s).
Proof.
  intros Hs. unfold bind. rewrite (MultiDict_add_run _ _ _ _ _ _ Hs).
  rewrite (MultiDict_popitem_run _ _ _ _
             (has_items_store _ _ _ _ (xs ++ [(key, v)]) Hs)).
  rewrite list_pop_snoc, store_store. rewrite store_id; [done | apply Hs].
Qed.

(** ** TrackableMultiDict: without a tracker, without a change, and new *)

Lemma is_untracked_has_items s self l name xs :
  is_untracked s self l name xs → has_items s self l xs.
Proof. intros [Hself Hl]. split; [|done]. unfold backing. by rewrite Hself. Qed.

Lemma is_untracked_store s self l name xs ys :
  is_untracked s self l name xs → is_untracked (store l ys s) self l name ys.
Proof.
  intros Hu. pose proof (has_items_ne _ _ _ _ (is_untracked_has_items _ _ _ _ _ Hu)).
  destruct Hu as [Hself Hl]. split; simpl.
  - by rewrite lookup_insert_ne.
  - by rewrite lookup_insert_eq.
Qed.

Lemma call_tracker_untracked s self l name xs args :
  is_untracked s self l name xs →
  call_tracker self args s = (inl (TypeError "'NoneType' object is not callable"), s).
Proof. intros [Hself _]. unfold call_tracker. by rewrite Hself. Qed.

Lemma is_untracked_warned s self l name xs msgs :
  is_untracked s self l name xs →
  is_untracked {| heap := heap s; calls := calls s; warnings := msgs |}
    self l name xs.
Proof. by intros [Hself Hl]. Qed.

Lemma untracked_setitem s self l name xs key v :
  is_untracked s self l name xs →
  TrackableMultiDict_setitem self key v s =
  (inl (TypeError "'NoneType' object is not callable"),
   store l (if bool_decide (key ∈ xs.*1) then without key xs
            else xs ++ [(key, v)]) s).
Proof.
  intros Hu. pose proof (is_untracked_has_items _ _ _ _ _ Hu) as Hs.
  unfold TrackableMultiDict_setitem, MultiDict_setitem, bind,
    try_except_KeyError, delitem, TrackableMultiDict_delitem, bind.
  rewrite (proj1 Hu), (MultiDict_delitem_run _ _ _ _ _ Hs).
  destruct (bool_decide (key ∈ xs.*1)).
  - by rewrite (call_tracker_untracked _ _ _ _ _ _
                  (is_untracked_store _ _ _ _ _ (without key xs) Hu)).
  - unfold ret. run Hs.
    by rewrite (call_tracker_untracked _ _ _ _ _ _
                  (is_untracked_store _ _ _ _ _ (xs ++ [(key, v)]) Hu)).
Qed.

(** A call of an overriding method on a TrackableMultiDict without a
    tracker: the exception of the base method when that raises, and
    otherwise the [TypeError] of calling [None], after the change. *)
Lemma untracked_call_run s self l name xs m :
  is_untracked s self l name xs →
  is_extend m = false →
  match apply_mutation m xs with
  | inl e => call self m s = (inl e, s)
  | inr (r, ys) =>
      ∃ s', call self m s =
            (inl (TypeError "'NoneType' object is not callable"), s')
          ∧ entries s' self = Some (untracked_entries m xs ys)
          ∧ calls s' = calls s
  end.
Proof.
  intros Hu Hm. pose proof (is_untracked_has_items _ _ _ _ _ Hu) as Hs.
  unfold call. rewrite (proj1 Hu).
  destruct m as [key v|key v|key| |key default|key args| |other|other];
    [..|done]; unfold TrackableMultiDict_call, bind; simpl.
  - rewrite (untracked_setitem _ _ _ _ _ _ _ Hu). eexists. split; [done|].
    split; [|done]. eapply entries_has_items.
    apply (has_items_store _ _ _ xs) with (ys :=
      if bool_decide (key ∈ xs.*1) then without key xs else xs ++ [(key, v)])
      in Hs.
    unfold set_entries.
    destruct (decide (key ∈ xs.*1)) as [Hin|Hout].
    + rewrite !bool_decide_eq_true_2 in * by done. exact Hs.
    + rewrite !bool_decide_eq_false_2 in * by done.
      rewrite without_absent by done. exact Hs.
  - unfold TrackableMultiDict_add, bind.
    rewrite (MultiDict_add_run _ _ _ _ _ _ Hs).
    rewrite (call_tracker_untracked _ _ _ _ _ _
               (is_untracked_store _ _ _ _ _ (xs ++ [(key, v)]) Hu)).
    eexists. split; [done|]. split; [|done].
    eapply entries_has_items. by apply (has_items_store _ _ _ xs).
  - unfold TrackableMultiDict_delitem, bind.
    rewrite (MultiDict_delitem_run _ _ _ _ _ Hs).
    destruct (bool_decide (key ∈ xs.*1)); [|done].
    rewrite (call_tracker_untracked _ _ _ _ _ _
               (is_untracked_store _ _ _ _ _ (without key xs) Hu)).
    eexists. split; [done|]. split; [|done].
    eapply entries_has_items. by apply (has_items_store _ _ _ xs).
  - unfold TrackableMultiDict_clear, MultiDict_clear, bind.
    destruct (alloc_fresh (PyList []) s) as (l' & -> & Hl').
    unfold set_attr_items. simpl.
    assert (l' ≠ self) as Hne by (intros ->; destruct Hu; congruence).
    rewrite lookup_insert_ne, (proj1 Hu) by done.
    unfold call_tracker. simpl. rewrite lookup_insert_eq.
    eexists. split; [done|]. split; [|done].
    unfold entries, backing. simpl. rewrite lookup_insert_eq.
    rewrite lookup_insert_ne by done. by rewrite lookup_insert_eq.
  - unfold TrackableMultiDict_setdefault, bind.
    rewrite (MultiDict_setdefault_run _ _ _ _ _ _ Hs).
    destruct (setdefault_scan key xs) as [v|].
    + rewrite (call_tracker_untracked _ _ _ _ _ _ Hu).
      eexists. split; [done|]. split; [|done]. by eapply entries_has_items.
    + rewrite (call_tracker_untracked _ _ _ _ _ _
                 (is_untracked_store _ _ _ _ _ (xs ++ [(key, default)]) Hu)).
      eexists. split; [done|]. split; [|done].
      eapply entries_has_items. by apply (has_items_store _ _ _ xs).
  - unfold TrackableMultiDict_pop, bind.
    rewrite (MultiDict_pop_run _ _ _ _ _ _ Hs). unfold apply_mutation.
    destruct (decide (1 < length args)); [done|].
    destruct (pop_loop key (seq 0 (length xs)) xs) as [e|[[v xs']|]]; [done| |].
    + rewrite (call_tracker_untracked _ _ _ _ _ _
                 (is_untracked_store _ _ _ _ _ xs' Hu)).
      eexists. split; [done|]. split; [|done].
      eapply entries_has_items. by apply (has_items_store _ _ _ xs).
    + destruct args as [|default args]; [done|].
      rewrite (call_tracker_untracked _ _ _ _ _ _ Hu).
      eexists. split; [done|]. split; [|done]. by eapply entries_has_items.
  - unfold TrackableMultiDict_popitem, bind.
    rewrite (MultiDict_popitem_run _ _ _ _ Hs).
    destruct (list_pop xs) as [e|[kv xs']]; [done|].
    rewrite (call_tracker_untracked _ _ _ _ _ _
               (is_untracked_store _ _ _ _ _ xs' Hu)).
    eexists. split; [done|]. split; [|done].
    eapply entries_has_items. by apply (has_items_store _ _ _ xs).
  - unfold TrackableMultiDict_update, MultiDict_update, DictMixin_update, bind.
    destruct other as [pairs|]; simpl.
    + destruct (forallb hashable pairs.*1); [|done].
      destruct pairs as [|[k v] pairs].
      * simpl. unfold ret. rewrite (call_tracker_untracked _ _ _ _ _ _ Hu).
        eexists. split; [done|]. split; [|done]. by eapply entries_has_items.
      * cbn [DictMixin_update_loop]. unfold bind, setitem.
        destruct (decide (length ((k, v) :: pairs) ≠
                          length (remove_dups ((k, v) :: pairs).*1))).
        -- unfold warn. cbn [heap]. rewrite (proj1 Hu).
           erewrite untracked_setitem; [|by apply is_untracked_warned].
           eexists. split; [done|]. split; [|done].
           eapply entries_has_items. apply (has_items_store _ _ _ xs).
           by apply is_untracked_has_items with name, is_untracked_warned.
        -- unfold ret. rewrite (proj1 Hu).
           rewrite (untracked_setitem _ _ _ _ _ _ _ Hu).
           eexists. split; [done|]. split; [|done].
           eapply entries_has_items. by apply (has_items_store _ _ _ xs).
    + rewrite (call_tracker_untracked _ _ _ _ _ _ Hu).
      eexists. split; [done|]. split; [|done]. by eapply entries_has_items.
Qed.

(** X11. On a TrackableMultiDict made without [__tracker] no call of an
    overriding method ([__setitem__], [add], [__delitem__], [clear],
    [setdefault], [pop], [popitem], [update]) returns: when the method of
    MultiDict raises, the call raises the same with the store unchanged,
    and otherwise it raises [TypeError] from calling [None], after the
    pairs were changed.  So [add] leaves the pair appended, [del] of a key
    that is there leaves the key removed, an assignment to a key that is
    not there leaves the pair appended, and an assignment to a key that is
    there raises inside [del self[key]], with the old values removed and
    the new value not stored.  Only the inherited [extend] returns. *)
Theorem X11_without_tracker_changes_then_raises s self l name xs key v pairs :
  is_untracked s self l name xs →
  let e := @TypeError K "'NoneType' object is not callable" in
  TrackableMultiDict_add self key v s = (inl e, store l (xs ++ [(key, v)]) s)
  ∧ (key ∈ xs.*1 →
       TrackableMultiDict_delitem self key s = (inl e, store l (without key xs) s)
       ∧ TrackableMultiDict_setitem self key v s = (inl e, store l (without key xs) s)
       ∧ MultiDict_contains self key (store l (without key xs) s) =
         (inr false, store l (without key xs) s))
  ∧ (key ∉ xs.*1 →
       TrackableMultiDict_setitem self key v s = (inl e, store l (xs ++ [(key, v)]) s))
  ∧ (∀ m, is_extend m = false →
       match apply_mutation m xs with
       | inl e' => call self m s = (inl e', s)
       | inr (r, ys) =>
           ∃ s', call self m s = (inl e, s')
               ∧ entries s' self = Some (untracked_entries m xs ys)
               ∧ calls s' = calls s
       end)
  ∧ (∀ m r s', is_extend m = false → call self m s ≠ (inr r, s'))
  ∧ call self (m_extend (Some pairs)) s = (inr RNone, store l (xs ++ pairs) s).
Proof.
  intros Hu e. pose proof (is_untracked_has_items _ _ _ _ _ Hu) as Hs.
  split; [|split; [|split; [|split; [|split]]]].
  - unfold TrackableMultiDict_add, bind. rewrite (MultiDict_add_run _ _ _ _ _ _ Hs).
    by rewrite (call_tracker_untracked _ _ _ _ _ _
                  (is_untracked_store _ _ _ _ _ (xs ++ [(key, v)]) Hu)).
  - intros Hin. split; [|split].
    + unfold TrackableMultiDict_delitem, bind.
      rewrite (MultiDict_delitem_run _ _ _ _ _ Hs), bool_decide_eq_true_2 by done.
      by rewrite (call_tracker_untracked _ _ _ _ _ _
                    (is_untracked_store _ _ _ _ _ (without key xs) Hu)).
    + rewrite (untracked_setitem _ _ _ _ _ _ _ Hu).
      by rewrite bool_decide_eq_true_2.
    + rewrite (MultiDict_contains_run _ _ l (without key xs)).
      * rewrite bool_decide_eq_false_2; [done|]. apply without_keys.
      * by apply has_items_store with xs.
  - intros Hout. rewrite (untracked_setitem _ _ _ _ _ _ _ Hu).
    by rewrite bool_decide_eq_false_2.
  - intros m Hm. exact (untracked_call_run s self l name xs m Hu Hm).
  - intros m r s' Hm Hcall.
    pose proof (untracked_call_run s self l name xs m Hu Hm) as Hrun.
    destruct (apply_mutation m xs) as [e'|[r' ys]].
    + by rewrite Hrun in Hcall.
    + destruct Hrun as (s1 & Hrun & _). by rewrite Hrun in Hcall.
  - unfold call. rewrite (proj1 Hu). unfold TrackableMultiDict_call, bind.
    by rewrite (MultiDict_extend_run _ _ _ _ _ Hs).
Qed.

(** X12. A TrackableMultiDict calls its tracker at the end of a call that
    returns, also when the call changed nothing: [setdefault] on a key that
    is there, [pop] with a default on a key that is not there, and [update]
    without pairs each leave the heap as it was and add one call of the
    tracker. *)
Theorem X12_tracker_called_without_a_change s self l cb name xs key default :
  is_tracked s self l cb name xs →
  (∀ v rest, values_of key xs = v :: rest →
     TrackableMultiDict_setdefault self key default s =
     (inr v, notified [Call cb self [AKey key; AVal v]] s))
  ∧ (key ∉ xs.*1 →
     TrackableMultiDict_pop self key [default] s =
     (inr default, notified [Call cb self [AKey key]] s))
  ∧ TrackableMultiDict_update self (Some []) s = (inr (), notified [Call cb self []] s)
  ∧ TrackableMultiDict_update self None s = (inr (), notified [Call cb self []] s).
Proof.
  intros Ht. pose proof (is_tracked_has_items _ _ _ _ _ _ Ht) as Hs.
  split; [|split; [|split]].
  - intros v rest Hvs. unfold TrackableMultiDict_setdefault, bind.
    rewrite (MultiDict_setdefault_run _ _ _ _ _ _ Hs).
    rewrite (setdefault_scan_head key xs), Hvs. simpl.
    by rewrite (call_tracker_run _ _ _ _ _ _ _ Ht).
  - intros Hout. unfold TrackableMultiDict_pop, bind.
    rewrite (MultiDict_pop_absent _ _ _ _ _ _ Hs Hout) by (simpl; lia).
    by rewrite (call_tracker_run _ _ _ _ _ _ _ Ht).
  - unfold TrackableMultiDict_update, MultiDict_update, bind. simpl.
    by rewrite (call_tracker_run _ _ _ _ _ _ _ Ht).
  - unfold TrackableMultiDict_update, MultiDict_update, bind. simpl.
    by rewrite (call_tracker_run _ _ _ _ _ _ _ Ht).
Qed.

(** X13. [TrackableMultiDict(d, __tracker=cb, __name=name)] on a MultiDict
    [d] is a new object with the pairs of [d] in a list of its own; [d] is
    left as it was, and the construction does not call the tracker.  More
    than one positional argument is a [TypeError], with nothing created. *)
Theorem X13_tracked_construction_is_silent fuel s d l xs cb name :
  has_items s d l xs →
  (∃ t l' s',
     @TrackableMultiDict_new K V (S fuel) [d] (Some cb) name s = (inr t, s')
     ∧ is_tracked s' t l' cb name xs
     ∧ heap s !! t = None ∧ heap s !! l' = None
     ∧ has_items s' d l xs
     ∧ calls s' = calls s)
  ∧ ∀ d', ∃ msg,
      @TrackableMultiDict_new K V (S fuel) [d; d'] (Some cb) name s =
      (inl (TypeError msg), s).
Proof.
  intros Hs. split; [|by eauto].
  assert (@TrackableMultiDict_new K V (S fuel) [d] (Some cb) name s =
          (l1 <- alloc (PyList xs) ;; alloc (TrackableObj l1 (Some cb) name)) s)
    as ->.
  { unfold TrackableMultiDict_new, bind, init_items. simpl.
    pose proof Hs as [Hself Hl]. unfold backing in Hself.
    destruct (heap s !! d) as [[]|] eqn:Hobj; try done;
      unfold MultiDict_iteritems; run Hs. }
  unfold bind.
  destruct (alloc_fresh (PyList xs) s) as (l1 & -> & Hl1).
  destruct (alloc_fresh (TrackableObj l1 (Some cb) name)
              (set_heap <[l1 := PyList xs]> s)) as (t & -> & Ht).
  simpl in Ht.
  assert (t ≠ l1) as Hne by (intros ->; by rewrite lookup_insert_eq in Ht).
  rewrite lookup_insert_ne in Ht by done.
  eexists t, l1, _. split; [done|]. split.
  { split; simpl; [by rewrite lookup_insert_eq|].
    rewrite lookup_insert_ne by done. by rewrite lookup_insert_eq. }
  split; [done|]. split; [done|]. split; [|done].
  apply has_items_alloc; [by apply has_items_alloc|].
  simpl. by rewrite lookup_insert_ne.
Qed.

(** ** A container read through its enumeration *)

Lemma pure_MultiDict_iteritems self : pure_read (@MultiDict_iteritems K V self).
Proof. unfold MultiDict_iteritems. auto 10 with pure. Qed.

Lemma pure_iteritems_loop (iteritems : loc → @M K V (list (K * V))) dicts :
  (∀ d, pure_read (iteritems d)) →
  pure_read (NestedMultiDict_iteritems_loop iteritems dicts).
Proof.
  intros Hit. induction dicts as [|d rest IH]; simpl; auto 10 with pure.
Qed.

Lemma pure_iteritems fuel self : pure_read (@iteritems K V fuel self).
Proof.
  revert self. induction fuel as [|fuel IH]; intros self s; [done|].
  simpl. destruct (heap s !! self) as [[]|] eqn:Hself; try done.
  - apply pure_MultiDict_iteritems.
  - apply pure_MultiDict_iteritems.
  - unfold NestedMultiDict_iteritems.
    apply pure_bind; [apply pure_attr_dicts|]. intros ds.
    by apply pure_iteritems_loop.
Qed.

Lemma MultiDict_iteritems_inv s self xs s' :
  MultiDict_iteritems self s = (inr xs, s') → ∃ l, has_items s self l xs.
Proof.
  unfold MultiDict_iteritems, bind, attr_items, read_list, has_items, backing.
  destruct (heap s !! self) as [[ys|l|l t n|ds|r]|]; try done;
    destruct (heap s !! l) as [[ys| | | |]|] eqn:Hl; try done;
    intros [= <- <-]; by exists l.
Qed.

(** The enumeration of a NestedMultiDict is made of the enumerations of
    its components. *)
Lemma iteritems_loop_inv (iteritems : loc → @M K V (list (K * V))) s :
  (∀ d, pure_read (iteritems d)) →
  ∀ dicts xs,
    NestedMultiDict_iteritems_loop iteritems dicts s = (inr xs, s) →
    ∃ xss, xs = concat xss
         ∧ Forall2 (λ d x, iteritems d s = (inr x, s)) dicts xss.
Proof.
  intros Hpure. induction dicts as [|d rest IH]; intros xs; simpl.
  - intros [= <-]. exists []. split; [done | constructor].
  - unfold bind.
    destruct (iteritems d s) as [[e|x] s1] eqn:Hd; [done|].
    assert (s1 = s) as -> by (eapply pure_run; [apply Hpure | done]).
    destruct (NestedMultiDict_iteritems_loop iteritems rest s) as [[e|ys] s2]
      eqn:Hrest; [done|].
    intros [= <- ->]. destruct (IH ys eq_refl) as (xss & -> & Hall).
    exists (x :: xss). split; [done|]. by constructor.
Qed.

Lemma values_of_concat key (xss : list (list (K * V))) :
  values_of key (concat xss) = concat (values_of key <$> xss).
Proof.
  induction xss as [|x xss IH]; simpl; [done|].
  by rewrite values_of_app, IH.
Qed.

Lemma length_concat_sum (xss : list (list (K * V))) :
  length (concat xss) = sum_list (length <$> xss).
Proof.
  induction xss as [|x xss IH]; simpl; [done|].
  by rewrite length_app, IH.
Qed.

Lemma contains_loop_concat (contains : loc → K → @M K V bool) dicts key s
    (xss : list (list (K * V))) :
  Forall2 (λ d x, contains d key s = (inr (bool_decide (key ∈ x.*1)), s)) dicts xss →
  NestedMultiDict_contains_loop contains dicts key s =
  (inr (bool_decide (key ∈ (concat xss).*1)), s).
Proof.
  intros Hall. induction Hall as [|d x dicts xss Hd _ IH]; simpl.
  - done.
  - unfold bind. rewrite Hd. rewrite fmap_app.
    destruct (decide (key ∈ x.*1)) as [Hin|Hout].
    + rewrite (bool_decide_eq_true_2 (key ∈ x.*1)) by done.
      rewrite bool_decide_eq_true_2; [done|]. apply elem_of_app. by left.
    + rewrite (bool_decide_eq_false_2 (key ∈ x.*1)) by done. rewrite IH.
      f_equal. f_equal. apply bool_decide_ext. rewrite elem_of_app.
      clear -Hout. intuition.
Qed.

(** The reads of a container whose enumeration is [xs]. *)
Lemma iteritems_reads fuel : ∀ self s xs key,
  @iteritems K V fuel self s = (inr xs, s) →
  @getall K V _ fuel self key s = (inr (values_of key xs), s)
  ∧ @len K V fuel self s = (inr (length xs), s)
  ∧ @contains K V _ fuel self key s = (inr (bool_decide (key ∈ xs.*1)), s).
Proof.
  induction fuel as [|fuel IH]; intros self s xs key Hit; [done|].
  simpl in *.
  destruct (heap s !! self) as [[ys|l|l t n|ds|r]|] eqn:Hself; try done.
  - destruct (MultiDict_iteritems_inv _ _ _ _ Hit) as [l' Hs].
    by rewrite (MultiDict_getall_run _ _ _ _ _ Hs), (MultiDict_len_run _ _ _ _ Hs),
      (MultiDict_contains_run _ _ _ _ _ Hs).
  - destruct (MultiDict_iteritems_inv _ _ _ _ Hit) as [l' Hs].
    by rewrite (MultiDict_getall_run _ _ _ _ _ Hs), (MultiDict_len_run _ _ _ _ Hs),
      (MultiDict_contains_run _ _ _ _ _ Hs).
  - unfold NestedMultiDict_iteritems, NestedMultiDict_getall, NestedMultiDict_len,
      NestedMultiDict_contains, bind, attr_dicts in *.
    rewrite Hself in *.
    apply iteritems_loop_inv in Hit as (xss & -> & Hall);
      [|intros d; apply pure_iteritems].
    split; [|split].
    + rewrite (getall_loop_concat _ _ _ _ (values_of key <$> xss)).
      * by rewrite values_of_concat.
      * apply Forall2_fmap_r. eapply Forall2_impl; [exact Hall|].
        intros d x Hd. by apply IH.
    + rewrite (len_loop_sum _ _ _ (length <$> xss)).
      * by rewrite length_concat_sum.
      * apply Forall2_fmap_r. eapply Forall2_impl; [exact Hall|].
        intros d x Hd. by apply (IH d s x key).
    + apply contains_loop_concat. eapply Forall2_impl; [exact Hall|].
      intros d x Hd. by apply IH.
  - by injection Hit as <-.
Qed.

Lemma get_of_Some_inv (getitem : loc → K → @M K V V) d key s v s' :
  get_of getitem d key s = (inr (Some v), s') → getitem d key s = (inr v, s').
Proof.
  unfold get_of, DictMixin_get, try_except_KeyError, bind, NoVars_get, ret.
  destruct (heap s !! d) as [[ys|l|l t n|ds|r]|]; try done;
    destruct (getitem d key s) as [[[]|w] s1]; try done; by intros [= <- <-].
Qed.

Lemma getitem_loop_member (get : loc → K → @M K V (option V)) key s :
  (∀ d, pure_read (get d key)) →
  ∀ dicts (xss : list (list (K * V))) v,
    Forall2 (λ d x, ∀ w, get d key s = (inr (Some w), s) → w ∈ values_of key x)
      dicts xss →
    NestedMultiDict_getitem_loop get dicts key s = (inr v, s) →
    v ∈ values_of key (concat xss).
Proof.
  intros Hpure dicts xss v Hall. induction Hall as [|d x dicts xss Hd _ IH]; simpl.
  - done.
  - unfold bind. destruct (get d key s) as [[e|[w|]] s1] eqn:Hget; [done|..].
    + assert (s1 = s) as -> by (eapply pure_run; [apply Hpure | done]).
      intros [= ->]. rewrite values_of_app, elem_of_app. left. by apply Hd.
    + assert (s1 = s) as -> by (eapply pure_run; [apply Hpure | done]).
      intros Hrest. rewrite values_of_app, elem_of_app. right. by apply IH.
Qed.

(** What [self[key]] returns is one of the values the enumeration holds
    for the key. *)
Lemma getitem_member fuel : ∀ self s xs key v,
  @iteritems K V fuel self s = (inr xs, s) →
  getitem repr_key fuel self key s = (inr v, s) →
  v ∈ values_of key xs.
Proof.
  induction fuel as [|fuel IH]; intros self s xs key v Hit Hget; [done|].
  simpl in *.
  destruct (heap s !! self) as [[ys|l|l t n|ds|r]|] eqn:Hself; try done.
  - destruct (MultiDict_iteritems_inv _ _ _ _ Hit) as [l' Hs].
    rewrite (MultiDict_getitem_run _ _ _ _ _ Hs) in Hget.
    destruct (last (values_of key xs)) as [w|] eqn:Hlast; [|done].
    injection Hget as ->. by apply last_Some_elem_of.
  - destruct (MultiDict_iteritems_inv _ _ _ _ Hit) as [l' Hs].
    rewrite (MultiDict_getitem_run _ _ _ _ _ Hs) in Hget.
    destruct (last (values_of key xs)) as [w|] eqn:Hlast; [|done].
    injection Hget as ->. by apply last_Some_elem_of.
  - unfold NestedMultiDict_iteritems, NestedMultiDict_getitem, bind, attr_dicts in *.
    rewrite Hself in *.
    apply iteritems_loop_inv in Hit as (xss & -> & Hall);
      [|intros d; apply pure_iteritems].
    eapply (getitem_loop_member (get_of (getitem repr_key fuel))); [| |exact Hget].
    + intros d. apply pure_get_of. intros. apply pure_getitem.
    + eapply Forall2_impl; [exact Hall|]. intros d x Hd w Hw.
      apply get_of_Some_inv in Hw. by apply (IH d s x key w).
  - unfold NoVars_getitem, bind, attr_reason in Hget. by rewrite Hself in Hget.
Qed.

(** X14. A container whose enumeration ([iteritems]) is [xs], a
    NestedMultiDict over any components among them, reads as one MultiDict
    over [xs]: [getall(key)] is the values of the key in [xs], [len] is the
    length of [xs], [key in self] holds exactly when a pair of [xs] has the
    key, and then [self[key]] returns one of these values; otherwise it
    raises [KeyError]. *)
Theorem X14_reads_follow_the_enumeration fuel self s xs key :
  @iteritems K V fuel self s = (inr xs, s) →
  getall fuel self key s = (inr (values_of key xs), s)
  ∧ len fuel self s = (inr (length xs), s)
  ∧ contains fuel self key s = (inr (bool_decide (key ∈ xs.*1)), s)
  ∧ (key ∈ xs.*1 →
       ∃ v, getitem repr_key fuel self key s = (inr v, s) ∧ v ∈ values_of key xs)
  ∧ (key ∉ xs.*1 →
       ∃ arg, getitem repr_key fuel self key s = (inl (KeyError arg), s)).
Proof.
  intros Hit. destruct (iteritems_reads fuel self s xs key Hit) as (Hall & Hlen & Hc).
  split; [done|]. split; [done|]. split; [done|]. split.
  - intros Hin. rewrite bool_decide_eq_true_2 in Hc by done.
    apply contains_getitem in Hc as [v Hv]. exists v. split; [done|].
    by apply (getitem_member fuel self s).
  - intros Hout. rewrite bool_decide_eq_false_2 in Hc by done.
    by apply contains_getitem in Hc.
Qed.

(** X15. [copy] of a NestedMultiDict is a new plain MultiDict over the
    enumeration [xs] of the view, in a list of its own; no object of the
    store is changed.  The copy can be changed ([add] returns).  Its
    [getall] is the view's, but [copy[key]] is the last value of the key in
    the whole enumeration, while [view[key]] is answered by the first
    component: the last value the first component holds for the key. *)
Theorem X15_copy_of_a_view_is_flat fuel s self dicts xs :
  heap s !! self = Some (NestedObj dicts) →
  @iteritems K V (S fuel) self s = (inr xs, s) →
  ∃ c l' s',
    copy (S fuel) self s = (inr c, s')
    ∧ is_plain s' c l' xs
    ∧ heap s !! c = None ∧ heap s !! l' = None
    ∧ (∀ p o, heap s !! p = Some o → heap s' !! p = Some o)
    ∧ (∀ key, MultiDict_getall c key s' = (inr (values_of key xs), s')
            ∧ getall (S fuel) self key s = (inr (values_of key xs), s))
    ∧ (∀ key, MultiDict_getitem c key s' =
              (match last (values_of key xs) with
               | Some v => inr v
               | None => inl (KeyError (KeyArg key))
               end, s'))
    ∧ (∀ key v, ∃ s'', MultiDict_add c key v s' = (inr (), s''))
    ∧ ∀ d rest l0 ys key v,
        dicts = d :: rest →
        has_items s d l0 ys →
        last (values_of key ys) = Some v →
        getitem repr_key (S fuel) self key s = (inr v, s).
Proof.
  intros Hself Hit.
  assert (@copy K V (S fuel) self s =
          (l1 <- alloc (PyList xs) ;; alloc (MultiDictObj l1)) s) as ->.
  { unfold copy. rewrite Hself. unfold MultiDict_new, bind, init_items.
    by rewrite Hself, Hit. }
  unfold bind.
  destruct (alloc_fresh (PyList xs) s) as (l1 & -> & Hl1).
  destruct (alloc_fresh (MultiDictObj l1) (set_heap <[l1 := PyList xs]> s))
    as (c & -> & Hc).
  simpl in Hc.
  assert (c ≠ l1) as Hne by (intros ->; by rewrite lookup_insert_eq in Hc).
  rewrite lookup_insert_ne in Hc by done.
  set (s' := set_heap <[c := MultiDictObj l1]> (set_heap <[l1 := PyList xs]> s)).
  assert (is_plain s' c l1 xs) as Hp.
  { split; simpl; [by rewrite lookup_insert_eq|].
    rewrite lookup_insert_ne by done. by rewrite lookup_insert_eq. }
  pose proof (is_plain_has_items _ _ _ _ Hp) as Hs'.
  exists c, l1, s'. split; [done|]. split; [done|]. split; [done|].
  split; [done|]. split.
  { intros p o Hp'. simpl. rewrite !lookup_insert_ne; [done|..]; intros ->; congruence. }
  split.
  { intros key. split; [by apply (MultiDict_getall_run _ _ l1)|].
    by apply (iteritems_reads (S fuel) self s xs key). }
  split; [intros key; by apply (MultiDict_getitem_run _ _ l1)|].
  split; [intros key v; eexists; by apply (MultiDict_add_run _ _ l1 xs)|].
  intros d rest l0 ys key v -> Hd Hlast.
  simpl in Hit. rewrite Hself in Hit.
  unfold NestedMultiDict_iteritems, bind, attr_dicts in Hit. rewrite Hself in Hit.
  apply iteritems_loop_inv in Hit as (xss & _ & Hall);
    [|intros d'; apply pure_iteritems].
  apply Forall2_cons_inv_l in Hall as (x & xss' & Hx & _ & _).
  destruct fuel as [|fuel]; [done|].
  change (getitem repr_key (S (S fuel)) self key s) with
    (match heap s !! self with
     | Some (MultiDictObj _) | Some (TrackableObj _ _ _) =>
         MultiDict_getitem self key s
     | Some (NestedObj _) =>
         NestedMultiDict_getitem
           (get_of (getitem repr_key (S fuel))) self key s
     | Some (NoVarsObj _) => NoVars_getitem repr_key self key s
     | _ => (inl (TypeError "object is not subscriptable"), s)
     end).
  rewrite Hself. unfold NestedMultiDict_getitem, bind, attr_dicts. rewrite Hself.
  apply (getitem_loop_first _ [] d rest); [constructor|].
  apply (get_of_getitem_value (S fuel)). simpl.
  pose proof Hd as [Hb _]. unfold backing in Hb.
  destruct (heap s !! d) as [[]|]; try done;
    by rewrite (MultiDict_getitem_run _ _ _ _ _ Hd), Hlast.
Qed.

(** X16. [getone] on a NestedMultiDict is MultiDict's over the view's
    [getall]: it returns the value when the components together hold
    exactly one value for the key, and raises [KeyError] when they hold two
    or more, also when each component holds one. *)
Theorem X16_getone_on_a_view_counts_every_component fuel s self dicts xs key :
  heap s !! self = Some (NestedObj dicts) →
  @iteritems K V fuel self s = (inr xs, s) →
  getone repr_key repr_val tuple_reprs fuel self key s =
  (match values_of key xs with
   | [] =>
       match format_key repr_key tuple_reprs "Key not found: " key with
       | inr msg => inl (KeyError (MsgArg msg))
       | inl e => inl e
       end
   | [v] => inr v
   | vs => inl (KeyError (MsgArg ("Multiple values match " +:+ repr_key key
                                    +:+ ": " +:+ repr_list repr_val vs)))
   end, s).
Proof.
  intros Hself Hit. unfold getone. rewrite Hself. unfold getone_of, bind.
  destruct (iteritems_reads fuel self s xs key Hit) as (-> & _ & _).
  destruct (values_of key xs) as [|v0 [|v1 rest]].
  - by destruct (format_key _ _ _ _).
  - by rewrite decide_False by (simpl; lia).
  - by rewrite decide_True by (simpl; lia).
Qed.

(** ** Truth value *)

Lemma nonzero_loop_len (len : loc → @M K V nat) (truth : loc → @M K V bool) s :
  (∀ d, pure_read (len d)) →
  (∀ d n, len d s = (inr n, s) → truth d s = (inr (bool_decide (n ≠ 0)), s)) →
  ∀ dicts acc n,
    NestedMultiDict_len_loop len dicts acc s = (inr n, s) →
    acc ≤ n
    ∧ NestedMultiDict_nonzero_loop truth dicts s =
      (inr (bool_decide (n - acc ≠ 0)), s).
Proof.
  intros Hpure Htruth. induction dicts as [|d rest IH]; intros acc n; simpl.
  - unfold ret. intros [= <-]. split; [lia|].
    rewrite bool_decide_eq_false_2; [done | lia].
  - unfold bind. destruct (len d s) as [[e|nd] s1] eqn:Hd; [done|].
    assert (s1 = s) as -> by (eapply pure_run; [apply Hpure | done]).
    intros Hrest. apply IH in Hrest as [Hle Hnz].
    rewrite (Htruth d nd Hd). split; [lia|].
    destruct (decide (nd ≠ 0)) as [Hpos|Hzero].
    + rewrite (bool_decide_eq_true_2 (nd ≠ 0)) by done.
      rewrite bool_decide_eq_true_2; [done | lia].
    + rewrite (bool_decide_eq_false_2 (nd ≠ 0)) by done. rewrite Hnz.
      f_equal. f_equal. apply bool_decide_ext. lia.
Qed.

(** X17. Whenever [len(self)] returns, the truth value of [self] is
    [len(self) != 0]: [NestedMultiDict.__nonzero__], which stops at the
    first true component, agrees with [__len__], which sums over all of
    them. *)
Theorem X17_truth_is_len_not_zero fuel self s n :
  @len K V fuel self s = (inr n, s) →
  truth fuel self s = (inr (bool_decide (n ≠ 0)), s).
Proof.
  revert self s n. induction fuel as [|fuel IH]; intros self s n Hlen; [done|].
  simpl in *.
  destruct (heap s !! self) as [[ys|l|l t m|ds|r]|] eqn:Hself; try done.
  - by injection Hlen as <-.
  - unfold bind. by rewrite Hlen.
  - unfold bind. by rewrite Hlen.
  - unfold NestedMultiDict_len, NestedMultiDict_nonzero, bind, attr_dicts in *.
    rewrite Hself in *.
    apply (nonzero_loop_len _ (truth fuel)) in Hlen as [_ Hnz];
      [|intros d; apply pure_len|intros d n'; apply IH].
    rewrite Hnz. f_equal. f_equal. apply bool_decide_ext. lia.
  - unfold bind. by rewrite Hlen.
Qed.

(** ** A NoVars among the components of a view *)

Lemma getitem_loop_skip (get : loc → K → @M K V (option V)) nv key s after :
  (∀ d, pure_read (get d key)) →
  get nv key s = (inr None, s) →
  ∀ before,
    NestedMultiDict_getitem_loop get (before ++ nv :: after) key s =
    NestedMultiDict_getitem_loop get (before ++ after) key s.
Proof.
  intros Hpure Hnv. induction before as [|d before IH]; simpl; unfold bind.
  - by rewrite Hnv.
  - destruct (get d key s) as [[e|[w|]] s1] eqn:Hd; [done..|].
    assert (s1 = s) as -> by (eapply pure_run; [apply Hpure | done]). apply IH.
Qed.

Lemma getall_loop_skip (getall : loc → K → @M K V (list V)) nv key s after :
  (∀ d, pure_read (getall d key)) →
  getall nv key s = (inr [], s) →
  ∀ before result,
    NestedMultiDict_getall_loop getall (before ++ nv :: after) key result s =
    NestedMultiDict_getall_loop getall (before ++ after) key result s.
Proof.
  intros Hpure Hnv. induction before as [|d before IH]; intros result; simpl;
    unfold bind.
  - by rewrite Hnv, app_nil_r.
  - destruct (getall d key s) as [[e|r] s1] eqn:Hd; [done|].
    assert (s1 = s) as -> by (eapply pure_run; [apply Hpure | done]). apply IH.
Qed.

Lemma contains_loop_skip (contains : loc → K → @M K V bool) nv key s after :
  (∀ d, pure_read (contains d key)) →
  contains nv key s = (inr false, s) →
  ∀ before,
    NestedMultiDict_contains_loop contains (before ++ nv :: after) key s =
    NestedMultiDict_contains_loop contains (before ++ after) key s.
Proof.
  intros Hpure Hnv. induction before as [|d before IH]; simpl; unfold bind.
  - by rewrite Hnv.
  - destruct (contains d key s) as [[e|[|]] s1] eqn:Hd; [done..|].
    assert (s1 = s) as -> by (eapply pure_run; [apply Hpure | done]). apply IH.
Qed.

Lemma len_loop_skip (len : loc → @M K V nat) nv s after :
  (∀ d, pure_read (len d)) →
  len nv s = (inr 0, s) →
  ∀ before acc,
    NestedMultiDict_len_loop len (before ++ nv :: after) acc s =
    NestedMultiDict_len_loop len (before ++ after) acc s.
Proof.
  intros Hpure Hnv. induction before as [|d before IH]; intros acc; simpl;
    unfold bind.
  - by rewrite Hnv, Nat.add_0_r.
  - destruct (len d s) as [[e|n] s1] eqn:Hd; [done|].
    assert (s1 = s) as -> by (eapply pure_run; [apply Hpure | done]). apply IH.
Qed.

Lemma iteritems_loop_skip (iteritems : loc → @M K V (list (K * V))) nv s after :
  (∀ d, pure_read (iteritems d)) →
  iteritems nv s = (inr [], s) →
  ∀ before,
    NestedMultiDict_iteritems_loop iteritems (before ++ nv :: after) s =
    NestedMultiDict_iteritems_loop iteritems (before ++ after) s.
Proof.
  intros Hpure Hnv. induction before as [|d before IH]; simpl; unfold bind.
  - rewrite Hnv. by destruct (NestedMultiDict_iteritems_loop iteritems after s)
      as [[e|ys] s1].
  - destruct (iteritems d s) as [[e|x] s1] eqn:Hd; [done|].
    assert (s1 = s) as -> by (eapply pure_run; [apply Hpure | done]).
    by rewrite IH.
Qed.

Lemma nested_reads fuel s self dicts key :
  heap s !! self = Some (@NestedObj K V dicts) →
  getitem repr_key (S fuel) self key s =
    NestedMultiDict_getitem_loop (get repr_key fuel) dicts key s
  ∧ getall (S fuel) self key s =
    NestedMultiDict_getall_loop (getall fuel) dicts key [] s
  ∧ contains (S fuel) self key s =
    NestedMultiDict_contains_loop (contains fuel) dicts key s
  ∧ len (S fuel) self s = NestedMultiDict_len_loop (len fuel) dicts 0 s
  ∧ iteritems (S fuel) self s =
    NestedMultiDict_iteritems_loop (iteritems fuel) dicts s.
Proof.
  intros Hself. simpl. rewrite Hself.
  unfold NestedMultiDict_getitem, NestedMultiDict_getall, NestedMultiDict_contains,
    NestedMultiDict_len, NestedMultiDict_iteritems, bind, attr_dicts.
  by rewrite Hself.
Qed.

(** X18. A NoVars among the components of a NestedMultiDict adds nothing to
    what the view reads: [self[key]], [getall], [key in self], [len] and
    the enumeration are those of the view over the other components, in
    the same order, whatever these hold and for every outcome, exceptions
    included. *)
Theorem X18_novars_component_is_neutral fuel s self self' before nv after reason key :
  heap s !! self = Some (NestedObj (before ++ nv :: after)) →
  heap s !! self' = Some (NestedObj (before ++ after)) →
  heap s !! nv = Some (@NoVarsObj K V reason) →
  getitem repr_key (S (S fuel)) self key s = getitem repr_key (S (S fuel)) self' key s
  ∧ getall (S (S fuel)) self key s = getall (S (S fuel)) self' key s
  ∧ contains (S (S fuel)) self key s = contains (S (S fuel)) self' key s
  ∧ len (S (S fuel)) self s = len (S (S fuel)) self' s
  ∧ iteritems (S (S fuel)) self s = iteritems (S (S fuel)) self' s.
Proof.
  intros Hself Hself' Hnv.
  destruct (nested_reads (S fuel) s self _ key Hself) as (-> & -> & -> & -> & ->).
  destruct (nested_reads (S fuel) s self' _ key Hself') as (-> & -> & -> & -> & ->).
  split; [|split; [|split; [|split]]].
  - apply getitem_loop_skip.
    + intros d. apply pure_get.
    + unfold get, get_of. by rewrite Hnv.
  - apply getall_loop_skip.
    + intros d. apply pure_getall.
    + simpl. by rewrite Hnv.
  - apply contains_loop_skip.
    + intros d. apply pure_contains.
    + simpl. by rewrite Hnv.
  - apply len_loop_skip.
    + intros d. apply pure_len.
    + simpl. by rewrite Hnv.
  - apply iteritems_loop_skip.
    + intros d. apply pure_iteritems.
    + simpl. by rewrite Hnv.
Qed.

End properties.

(** * Properties of the conversions to a dict *)

Section dictionary_properties.

Context {K V : Type} `{Countable K}.

Implicit Types (s : @state K V) (self : loc) (key k : K) (v : V)
  (xs items seen : list (K * V)).






End dictionary_properties.

(** * Properties of [repr] *)

Section representation_properties.

Context {V : Type}.
Variable repr_key : string → string.
Variable repr_val : V → string.

Lemma hide_passwd_same_shown (xs ys : list (string * V)) :
  same_shown xs ys → _hide_passwd xs = _hide_passwd ys.
Proof.
  intros Hsame. induction Hsame as [|[k v] [k' v'] xs ys [Hk Hv] _ IH]; [done|].
  simpl in Hk, Hv. subst k'.
  change (_hide_passwd ((k, v) :: xs)) with
    ((if hidden k then (k, inr "******") else (k, inl v)) :: _hide_passwd xs).
  change (_hide_passwd ((k, v') :: ys)) with
    ((if hidden k then (k, inr "******") else (k, inl v')) :: _hide_passwd ys).
  rewrite IH. destruct (hidden k); [done|]. by rewrite Hv.
Qed.

Lemma prefix_append (sub post : string) : String.prefix sub (sub +:+ post) = true.
Proof.
  induction sub as [|a sub IH].
  - change ("" +:+ post) with post. by destruct post.
  - change (String a sub +:+ post) with (String a (sub +:+ post)). simpl.
    destruct (Ascii.ascii_dec a a); [apply IH | done].
Qed.

Lemma str_in_prefix (sub k : string) :
  String.prefix sub k = true → str_in sub k = true.
Proof. intros Hpre. destruct k; cbn [str_in]; by rewrite Hpre. Qed.

Lemma str_in_append (sub pre post : string) :
  str_in sub (pre +:+ sub +:+ post) = true.
Proof.
  induction pre as [|a pre IH].
  - change ("" +:+ sub +:+ post) with (sub +:+ post).
    apply str_in_prefix, prefix_append.
  - change (String a pre +:+ sub +:+ post) with (String a (pre +:+ sub +:+ post)).
    cbn [str_in]. rewrite IH. apply orb_true_r.
Qed.

(** X21. [repr] of a MultiDict does not depend on the values of the keys
    that [_hide_passwd] hides: two MultiDicts with the same keys in the
    same order, whose values agree under every other key, have the same
    [repr].  The hidden keys are those in which [password], [passwd] or
    [pwd] occurs anywhere. *)
Theorem X21_repr_hides_password_values fuel (s1 s2 : @state string V) d1 l1 d2 l2 xs ys :
  is_plain s1 d1 l1 xs →
  is_plain s2 d2 l2 ys →
  same_shown xs ys →
  (∃ text,
     repr repr_key repr_val (S fuel) d1 s1 = (inr text, s1)
     ∧ repr repr_key repr_val (S fuel) d2 s2 = (inr text, s2))
  ∧ ∀ pre post,
      hidden (pre +:+ "password" +:+ post) = true
      ∧ hidden (pre +:+ "passwd" +:+ post) = true
      ∧ hidden (pre +:+ "pwd" +:+ post) = true.
Proof.
  intros Hp1 Hp2 Hsame. split.
  - assert (∀ (s : @state string V) d l zs,
              is_plain s d l zs →
              repr repr_key repr_val (S fuel) d s =
              (inr (repr_items repr_key repr_val "MultiDict" zs), s)) as Hrepr.
    { intros s d l zs Hp. pose proof (is_plain_has_items _ _ _ _ Hp) as Hs.
      unfold repr. rewrite (proj1 Hp). unfold bind. simpl. rewrite (proj1 Hp).
      unfold MultiDict_iteritems, bind.
      by rewrite (has_items_attr _ _ _ _ Hs), (has_items_read _ _ _ _ Hs). }
    exists (repr_items repr_key repr_val "MultiDict" xs).
    rewrite (Hrepr _ _ _ _ Hp1), (Hrepr _ _ _ _ Hp2). split; [done|].
    unfold repr_items. by rewrite (hide_passwd_same_shown xs ys Hsame).
  - intros pre post. unfold hidden. rewrite !str_in_append.
    by rewrite !orb_true_r.
Qed.

End representation_properties.

(** * The properties on the store of examples *)

Lemma ex_plain_has_items : has_items ex_state ex_plain 9 ex_pairs.
Proof. split; reflexivity. Defined.

Lemma ex_absent_z : "z" ∉ ex_pairs.*1.
Proof. apply (bool_decide_unpack _). by vm_compute. Defined.

(** [plain['b']] is 3, [plain.getall('b')] is [[2, 3]], [plain['z']] raises
    [KeyError('z')]. *)
Lemma C1_witness :
  has_items ex_state ex_plain 9 ex_pairs
  ∧ MultiDict_getitem ex_plain "b" ex_state = (inr 3, ex_state)
  ∧ MultiDict_getall ex_plain "b" ex_state = (inr [2; 3], ex_state)
  ∧ MultiDict_getitem ex_plain "z" ex_state =
    (inl (KeyError (KeyArg "z")), ex_state).
Proof.
  split; [exact ex_plain_has_items|].
  destruct (C1_getitem_last_getall_in_order ex_state ex_plain 9 ex_pairs "b"
              ex_plain_has_items) as (Hget & _ & Hall & _).
  destruct (C1_getitem_last_getall_in_order ex_state ex_plain 9 ex_pairs "z"
              ex_plain_has_items) as (_ & Hnone & _).
  split; [|split; [exact Hall|]].
  - apply Hget. exists [("a", 1); ("b", 2)], []. split; [reflexivity|].
    apply not_elem_of_nil.
  - apply Hnone, ex_absent_z.
Defined.

Lemma ex_none_has_items : has_items ex_state_pykey ex_none 1 [].
Proof. split; reflexivity. Defined.

(** [plain.getone('b')] raises with the two values in its message,
    [plain.getone('a')] is 1, [plain.getone('z')] raises "not found", and
    [none.getone((1, 2))] raises [TypeError]. *)
Lemma C2_witness :
  has_items ex_state ex_plain 9 ex_pairs
  ∧ MultiDict_getone repr_str repr_nat not_a_tuple ex_plain "b" ex_state =
    (inl (KeyError (MsgArg "Multiple values match 'b': [2, 3]")), ex_state)
  ∧ MultiDict_getone repr_str repr_nat not_a_tuple ex_plain "a" ex_state =
    (inr 1, ex_state)
  ∧ MultiDict_getone repr_str repr_nat not_a_tuple ex_plain "z" ex_state =
    (inl (KeyError (MsgArg "Key not found: 'z'")), ex_state)
  ∧ has_items ex_state_pykey ex_none 1 []
  ∧ ∃ msg, MultiDict_getone repr_pykey repr_nat pykey_tuple ex_none (KPair 1 2)
             ex_state_pykey = (inl (TypeError msg), ex_state_pykey).
Proof.
  split; [exact ex_plain_has_items|].
  destruct (C2_getone_zero_one_many repr_str repr_nat not_a_tuple ex_state
              ex_plain 9 ex_pairs "b" ex_plain_has_items) as (_ & _ & _ & Hmany & _).
  destruct (C2_getone_zero_one_many repr_str repr_nat not_a_tuple ex_state
              ex_plain 9 ex_pairs "a" ex_plain_has_items)
    as (_ & _ & _ & _ & Hone & _).
  destruct (C2_getone_zero_one_many repr_str repr_nat not_a_tuple ex_state
              ex_plain 9 ex_pairs "z" ex_plain_has_items) as (_ & Hzero & _).
  destruct (C2_getone_zero_one_many repr_pykey repr_nat pykey_tuple
              ex_state_pykey ex_none 1 [] (KPair 1 2) ex_none_has_items)
    as (_ & _ & Htuple & _).
  split; [|split; [|split; [|split]]].
  - apply Hmany. vm_compute. lia.
  - apply Hone. reflexivity.
  - apply Hzero; reflexivity.
  - exact ex_none_has_items.
  - apply (Htuple eq_refl [pretty 1; pretty 2] eq_refl). simpl. lia.
Defined.

(** [plain.pop('b')] is 2 and leaves [('a', 1), ('b', 3)];
    [plain.pop('z', 0)] is 0 and [plain.pop('z')] raises [KeyError('z')]. *)
Lemma C3_witness :
  has_items ex_state ex_plain 9 ex_pairs
  ∧ MultiDict_pop ex_plain "b" [] ex_state =
    (inr 2, store 9 [("a", 1); ("b", 3)] ex_state)
  ∧ MultiDict_getall ex_plain "b" (store 9 [("a", 1); ("b", 3)] ex_state) =
    (inr [3], store 9 [("a", 1); ("b", 3)] ex_state)
  ∧ MultiDict_pop ex_plain "z" [0] ex_state = (inr 0, ex_state)
  ∧ MultiDict_pop ex_plain "z" [] ex_state =
    (inl (KeyError (KeyArg "z")), ex_state).
Proof.
  split; [exact ex_plain_has_items|].
  destruct (C3_pop_first_match ex_state ex_plain 9 ex_pairs "b"
              ex_plain_has_items) as (Hfound & _).
  destruct (C3_pop_first_match ex_state ex_plain 9 ex_pairs "z"
              ex_plain_has_items) as (_ & Hdefault & Hraise).
  destruct (Hfound [("a", 1)] 2 [("b", 3)] []) as (Hpop & _ & _ & Hall).
  - reflexivity.
  - apply (bool_decide_unpack _). by vm_compute.
  - simpl. lia.
  - split; [exact Hpop|]. split; [exact Hall|].
    split; [apply Hdefault, ex_absent_z | apply Hraise, ex_absent_z].
Defined.

Lemma ex_empty_has_items : has_items ex_state ex_empty 11 [].
Proof. split; reflexivity. Defined.

(** [empty.popitem()] raises [IndexError]; [plain.popitem()] is [('b', 3)]. *)
Lemma C4_witness :
  has_items ex_state ex_empty 11 []
  ∧ MultiDict_popitem ex_empty ex_state =
    (inl (IndexError "pop from empty list"), ex_state)
  ∧ has_items ex_state ex_plain 9 ex_pairs
  ∧ MultiDict_popitem ex_plain ex_state =
    (inr ("b", 3), store 9 [("a", 1); ("b", 2)] ex_state).
Proof.
  split; [exact ex_empty_has_items|].
  destruct (C4_popitem_last_or_IndexError ex_state ex_empty 11 []
              ex_empty_has_items) as (_ & Hempty).
  destruct (C4_popitem_last_or_IndexError ex_state ex_plain 9 ex_pairs
              ex_plain_has_items) as (Hlast & _).
  split; [exact (proj1 (Hempty eq_refl))|].
  split; [exact ex_plain_has_items|].
  exact (proj1 (Hlast [("a", 1); ("b", 2)] "b" 3 eq_refl)).
Defined.

(** [MultiDict(plain.items())] has the pairs of [plain] and is another
    object with another list. *)
Lemma C5_witness :
  has_items ex_state ex_plain 9 ex_pairs
  ∧ ∃ n l' s',
      (lst <- MultiDict_items ex_plain ;; MultiDict_new 0 [lst]) ex_state =
      (inr n, s')
      ∧ has_items s' n l' ex_pairs ∧ has_items s' ex_plain 9 ex_pairs
      ∧ n ≠ ex_plain ∧ l' ≠ 9%positive.
Proof.
  split; [exact ex_plain_has_items|].
  destruct (C5_roundtrip_items_independent 0 ex_state ex_plain 9 ex_pairs
              ex_plain_has_items)
    as (n & l' & s' & Hrun & Hnew & Hold & Hn & Hl & _).
  exists n, l', s'. exact (conj Hrun (conj Hnew (conj Hold (conj Hn Hl)))).
Defined.

Lemma ex_view_is_nested : heap ex_state !! ex_view = Some (NestedObj [ex_d1; ex_d2]).
Proof. reflexivity. Defined.

(** Over [[{a:1}, {a:2, b:3}]]: [view['a']] is 1, [view.getall('a')] is
    [[1, 2]], [view.getall('b')] is [[3]] and [len(view)] is 3. *)
Lemma C6_witness :
  heap ex_state !! ex_view = Some (NestedObj [ex_d1; ex_d2])
  ∧ getitem repr_str 2 ex_view "a" ex_state = (inr 1, ex_state)
  ∧ getall 2 ex_view "a" ex_state = (inr [1; 2], ex_state)
  ∧ getall 2 ex_view "b" ex_state = (inr [3], ex_state)
  ∧ len 2 ex_view ex_state = (inr 3, ex_state)
  ∧ getitem repr_str 2 ex_view "z" ex_state =
    (inl (KeyError (KeyArg "z")), ex_state).
Proof.
  split; [exact ex_view_is_nested|].
  destruct (C6_nested_first_match_concat_sum repr_str 1 ex_state ex_view
              [ex_d1; ex_d2] "a" ex_view_is_nested)
    as (Hfirst & _ & Hall_a & Hlen).
  destruct (C6_nested_first_match_concat_sum repr_str 1 ex_state ex_view
              [ex_d1; ex_d2] "b" ex_view_is_nested) as (_ & _ & Hall_b & _).
  destruct (C6_nested_first_match_concat_sum repr_str 1 ex_state ex_view
              [ex_d1; ex_d2] "z" ex_view_is_nested) as (_ & Hnone & _).
  split; [|split; [|split; [|split]]].
  - destruct (Hfirst [] ex_d1 [ex_d2] eq_refl (Forall_nil_2 _) eq_refl)
      as (v & Hv & Hview).
    assert (v = 1) as -> by (vm_compute in Hv; congruence).
    exact Hview.
  - apply (Hall_a [[1]; [2]]). repeat constructor.
  - apply (Hall_b [[]; [3]]). repeat constructor.
  - apply (Hlen [1; 2]). repeat constructor.
  - apply Hnone. repeat constructor.
Defined.

(** [view['a'] = 9] raises the read-only [KeyError] and changes nothing. *)
Lemma C7_witness :
  heap ex_state !! ex_view = Some (NestedObj [ex_d1; ex_d2])
  ∧ is_extend (m_setitem "a" 9) = false
  ∧ call ex_view (m_setitem "a" 9) ex_state =
    (inl (KeyError (MsgArg "NestedMultiDict objects are read-only")), ex_state).
Proof.
  split; [exact ex_view_is_nested|]. split; [reflexivity|].
  exact (C7_nested_mutations_raise_readonly ex_state ex_view [ex_d1; ex_d2]
           (m_setitem "a" 9) ex_view_is_nested eq_refl).
Defined.

Lemma ex_novars_is_novars :
  heap ex_state !! ex_novars = Some (NoVarsObj "no request body").
Proof. reflexivity. Defined.

(** [novars['x']] raises, [novars.getall('x')] is empty, ['x' in novars] is
    false, [len(novars)] is 0, and [novars.add('x', 1)] raises with the
    reason in its message; [novars.extend([('x', 1)])] raises
    [AttributeError]. *)
Lemma C8_witness :
  heap ex_state !! ex_novars = Some (NoVarsObj "no request body")
  ∧ getitem repr_str 1 ex_novars "x" ex_state =
    (inl (KeyError (MsgArg "No key 'x': no request body")), ex_state)
  ∧ getall 1 ex_novars "x" ex_state = (inr [], ex_state)
  ∧ contains 1 ex_novars "x" ex_state = (inr false, ex_state)
  ∧ len 1 ex_novars ex_state = (inr 0, ex_state)
  ∧ (∃ msg, call ex_novars (m_add "x" 1) ex_state =
            (inl (KeyError (MsgArg msg)), ex_state)
          ∧ includes msg "no request body")
  ∧ call ex_novars (m_extend (Some [("x", 1)])) ex_state =
    (inl (AttributeError "'NoVars' object has no attribute 'extend'"), ex_state).
Proof.
  split; [exact ex_novars_is_novars|].
  destruct (C8_novars_empty_and_readonly repr_str 0 ex_state ex_novars
              "no request body" "x" ex_novars_is_novars)
    as (Hget & Hall & Hin & Hlen & Hmut & Hext & _).
  split; [exact Hget|]. split; [exact Hall|]. split; [exact Hin|].
  split; [exact Hlen|]. split; [exact (Hmut (m_add "x" 1) eq_refl)|].
  exact (Hext (Some [("x", 1)])).
Defined.

Lemma ex_tracked_is_tracked : is_tracked ex_state ex_tracked 7 0 None ex_pairs.
Proof. split; reflexivity. Defined.

Lemma ex_plain_is_plain : is_plain ex_state ex_plain 9 ex_pairs.
Proof. split; reflexivity. Defined.

(** [tracked['b'] = 9] tells the tracker of the deletion of ['b'] and then
    of the assignment; [tracked.extend([('c', 4)])] appends the pair and
    tells it nothing. *)
Lemma C9_witness :
  is_tracked ex_state ex_tracked 7 0 None ex_pairs
  ∧ is_plain ex_state ex_plain 9 ex_pairs
  ∧ (∃ s', call ex_tracked (m_setitem "b" 9) ex_state = (inr RNone, s')
         ∧ entries s' ex_tracked = Some [("a", 1); ("b", 9)]
         ∧ calls s' = [Call 0 ex_tracked [AKey "b"];
                       Call 0 ex_tracked [AKey "b"; AVal 9]])
  ∧ (∃ s', call ex_tracked (m_extend (Some [("c", 4)])) ex_state = (inr RNone, s')
         ∧ entries s' ex_tracked = Some (ex_pairs ++ [("c", 4)])
         ∧ calls s' = []).
Proof.
  split; [exact ex_tracked_is_tracked|]. split; [exact ex_plain_is_plain|].
  destruct (C9_tracked_calls_notify_but_extend ex_state ex_tracked 7 0 None
              ex_pairs ex_state ex_plain 9 (m_setitem "b" 9)
              ex_tracked_is_tracked ex_plain_is_plain) as (Hset & Hextend).
  split.
  - specialize (Hset eq_refl).
    destruct (call ex_plain (m_setitem "b" 9) ex_state) as [[e|r] s0'] eqn:Hplain;
      [vm_compute in Hplain; congruence|].
    destruct Hset as (s' & Hcall & Hentries & _ & Hcalls).
    assert (r = RNone) as -> by (vm_compute in Hplain; congruence).
    assert (entries s0' ex_plain = Some [("a", 1); ("b", 9)]) as Hentries0.
    { assert (s0' = (call ex_plain (m_setitem "b" 9) ex_state).2) as ->
        by (by rewrite Hplain).
      reflexivity. }
    exists s'. split; [exact Hcall|]. split; [congruence|]. exact Hcalls.
  - exact (Hextend [("c", 4)]).
Defined.

(** [novars.copy()] is [novars]. *)
Lemma C10_witness :
  heap ex_state !! ex_novars = Some (NoVarsObj "no request body")
  ∧ copy 1 ex_novars ex_state = (inr ex_novars, ex_state).
Proof.
  split; [exact ex_novars_is_novars|].
  exact (proj1 (C10_novars_copy_is_self repr_str 1 ex_state ex_novars
                  "no request body" ex_novars_is_novars)).
Defined.

(** ** The further properties *)

Lemma ex_b_present : "b" ∈ ex_pairs.*1.
Proof. apply (bool_decide_unpack _). by vm_compute. Defined.

(** [plain['b'] = 9] leaves [('a', 1), ('b', 9)]. *)
Lemma X1_witness :
  is_plain ex_state ex_plain 9 ex_pairs
  ∧ MultiDict_setitem ex_plain "b" 9 ex_state =
    (inr (), store 9 [("a", 1); ("b", 9)] ex_state)
  ∧ MultiDict_getall ex_plain "b" (store 9 [("a", 1); ("b", 9)] ex_state) =
    (inr [9], store 9 [("a", 1); ("b", 9)] ex_state).
Proof.
  split; [exact ex_plain_is_plain|].
  destruct (X1_setitem_collapses_to_one_value ex_state ex_plain 9 ex_pairs "b" 9
              ex_plain_is_plain) as (Hset & Hall & _).
  exact (conj Hset Hall).
Defined.

(** [del plain['b']] leaves [('a', 1)]; [del plain['z']] raises
    [KeyError('z')]. *)
Lemma X2_witness :
  has_items ex_state ex_plain 9 ex_pairs
  ∧ MultiDict_delitem ex_plain "b" ex_state = (inr (), store 9 [("a", 1)] ex_state)
  ∧ MultiDict_delitem ex_plain "z" ex_state =
    (inl (KeyError (KeyArg "z")), ex_state).
Proof.
  split; [exact ex_plain_has_items|].
  destruct (X2_delitem_removes_every_pair ex_state ex_plain 9 ex_pairs "b"
              ex_plain_has_items) as [Hin _].
  destruct (X2_delitem_removes_every_pair ex_state ex_plain 9 ex_pairs "z"
              ex_plain_has_items) as [_ Hout].
  split; [exact (proj1 (Hin ex_b_present)) | exact (Hout ex_absent_z)].
Defined.

(** ['b' in plain] is [True] and [plain['b']] returns. *)
Lemma X3_witness :
  has_items ex_state ex_plain 9 ex_pairs
  ∧ MultiDict_contains ex_plain "b" ex_state = (inr true, ex_state)
  ∧ ∃ v, MultiDict_getitem ex_plain "b" ex_state = (inr v, ex_state).
Proof.
  split; [exact ex_plain_has_items|].
  destruct (X3_contains_iff_getitem_returns ex_state ex_plain 9 ex_pairs "b"
              ex_plain_has_items) as (b & Hc & Hget & _).
  assert (b = true) as -> by (vm_compute in Hc; congruence).
  split; [exact Hc | exact (proj1 Hget eq_refl)].
Defined.

(** [plain.setdefault('b', 7)] is 2 and changes nothing;
    [plain.setdefault('z', 7)] appends [('z', 7)]. *)
Lemma X4_witness :
  has_items ex_state ex_plain 9 ex_pairs
  ∧ MultiDict_setdefault ex_plain "b" 7 ex_state = (inr 2, ex_state)
  ∧ MultiDict_setdefault ex_plain "z" 7 ex_state =
    (inr 7, store 9 (ex_pairs ++ [("z", 7)]) ex_state).
Proof.
  split; [exact ex_plain_has_items|].
  destruct (X4_setdefault_first_value_or_append ex_state ex_plain 9 ex_pairs "b" 7
              ex_plain_has_items) as [Hthere _].
  destruct (X4_setdefault_first_value_or_append ex_state ex_plain 9 ex_pairs "z" 7
              ex_plain_has_items) as [_ Hnot].
  split; [exact (proj1 (Hthere 2 [3] eq_refl)) | exact (proj1 (Hnot eq_refl))].
Defined.

(** [plain.clear()] leaves the list object [9] with its three pairs. *)
Lemma X5_witness :
  has_items ex_state ex_plain 9 ex_pairs
  ∧ ∃ l' s', MultiDict_clear ex_plain ex_state = (inr (), s')
           ∧ has_items s' ex_plain l' []
           ∧ heap s' !! 9%positive = Some (PyList ex_pairs).
Proof.
  split; [exact ex_plain_has_items|].
  destruct (X5_clear_rebinds_to_a_new_list ex_state ex_plain 9 ex_pairs
              ex_plain_has_items)
    as (l' & s' & Hrun & Hnew & _ & _ & _ & Hold & _).
  exists l', s'. exact (conj Hrun (conj Hnew Hold)).
Defined.

(** [MultiDict.view_list] on the list of [plain], and on [plain] itself. *)
Lemma X6_witness :
  heap ex_state !! 9%positive = Some (PyList ex_pairs)
  ∧ (∃ obj s', MultiDict_view_list 9 ex_state = (inr obj, s')
             ∧ is_plain s' obj 9 ex_pairs)
  ∧ ∃ msg, @MultiDict_view_list string nat ex_plain ex_state =
           (inl (TypeError msg), ex_state).
Proof.
  split; [reflexivity|].
  destruct (X6_view_list_shares_the_list ex_state 9) as [Hlist _].
  destruct (X6_view_list_shares_the_list ex_state ex_plain) as [_ Hother].
  split.
  - destruct (Hlist ex_pairs eq_refl) as (obj & s' & Hrun & Hp & _).
    exists obj, s'. exact (conj Hrun Hp).
  - apply Hother. intros xs Hxs. vm_compute in Hxs. discriminate.
Defined.

(** [plain.copy()] *)
Lemma X7_witness :
  has_items ex_state ex_plain 9 ex_pairs
  ∧ ∃ c l' s', copy 1 ex_plain ex_state = (inr c, s')
             ∧ is_plain s' c l' ex_pairs ∧ c ≠ ex_plain ∧ l' ≠ 9%positive.
Proof.
  split; [exact ex_plain_has_items|].
  destruct (X7_copy_is_independent_and_untracked 0 ex_state ex_plain 9 ex_pairs
              ex_plain_has_items) as (c & l' & s' & Hrun & Hp & Hc & Hl & _).
  exists c, l', s'. exact (conj Hrun (conj Hp (conj Hc Hl))).
Defined.



(** [plain.add('c', 4)] and then [plain.popitem()]. *)
Lemma X10_witness :
  has_items ex_state ex_plain 9 ex_pairs
  ∧ (MultiDict_add ex_plain "c" 4 ;;; MultiDict_popitem ex_plain) ex_state =
    (inr ("c", 4), ex_state).
Proof.
  split; [exact ex_plain_has_items|].
  exact (X10_add_then_popitem_restores ex_state ex_plain 9 ex_pairs "c" 4
           ex_plain_has_items).
Defined.

Lemma ex_untracked_is_untracked :
  is_untracked ex_state_untracked ex_untracked 1 None ex_pairs.
Proof. split; reflexivity. Defined.

(** [untracked['b'] = 9] raises [TypeError] and leaves [('a', 1)]: the
    values of ['b'] are gone and 9 is not stored; [untracked.popitem()]
    raises it with [('b', 3)] removed. *)
Lemma X11_witness :
  is_untracked ex_state_untracked ex_untracked 1 None ex_pairs
  ∧ TrackableMultiDict_setitem ex_untracked "b" 9 ex_state_untracked =
    (inl (TypeError "'NoneType' object is not callable"),
     store 1 [("a", 1)] ex_state_untracked)
  ∧ TrackableMultiDict_add ex_untracked "c" 4 ex_state_untracked =
    (inl (TypeError "'NoneType' object is not callable"),
     store 1 (ex_pairs ++ [("c", 4)]) ex_state_untracked)
  ∧ ∃ s', call ex_untracked m_popitem ex_state_untracked =
          (inl (TypeError "'NoneType' object is not callable"), s')
        ∧ entries s' ex_untracked = Some [("a", 1); ("b", 2)].
Proof.
  split; [exact ex_untracked_is_untracked|].
  destruct (X11_without_tracker_changes_then_raises ex_state_untracked ex_untracked
              1 None ex_pairs "b" 9 [] ex_untracked_is_untracked)
    as (_ & Hthere & _ & Hall & _).
  destruct (X11_without_tracker_changes_then_raises ex_state_untracked ex_untracked
              1 None ex_pairs "c" 4 [] ex_untracked_is_untracked)
    as (Hadd & _).
  destruct (Hthere ex_b_present) as (_ & Hset & _).
  split; [exact Hset|]. split; [exact Hadd|].
  destruct (Hall m_popitem eq_refl) as (s' & Hrun & Hentries & _).
  exists s'. exact (conj Hrun Hentries).
Defined.

(** [tracked.setdefault('b', 7)] is 2, changes nothing and calls the
    tracker with [('b', 2)]. *)
Lemma X12_witness :
  is_tracked ex_state ex_tracked 7 0 None ex_pairs
  ∧ TrackableMultiDict_setdefault ex_tracked "b" 7 ex_state =
    (inr 2, notified [Call 0 ex_tracked [AKey "b"; AVal 2]] ex_state)
  ∧ TrackableMultiDict_pop ex_tracked "z" [7] ex_state =
    (inr 7, notified [Call 0 ex_tracked [AKey "z"]] ex_state).
Proof.
  split; [exact ex_tracked_is_tracked|].
  destruct (X12_tracker_called_without_a_change ex_state ex_tracked 7 0 None
              ex_pairs "b" 7 ex_tracked_is_tracked) as (Hsd & _).
  destruct (X12_tracker_called_without_a_change ex_state ex_tracked 7 0 None
              ex_pairs "z" 7 ex_tracked_is_tracked) as (_ & Hpop & _).
  exact (conj (Hsd 2 [3] eq_refl) (Hpop ex_absent_z)).
Defined.

(** [TrackableMultiDict(plain, __tracker=cb)] *)
Lemma X13_witness :
  has_items ex_state ex_plain 9 ex_pairs
  ∧ ∃ t l' s',
      TrackableMultiDict_new 1 [ex_plain] (Some 5) None ex_state = (inr t, s')
      ∧ is_tracked s' t l' 5 None ex_pairs
      ∧ calls s' = calls ex_state.
Proof.
  split; [exact ex_plain_has_items|].
  destruct (X13_tracked_construction_is_silent 0 ex_state ex_plain 9 ex_pairs 5
              None ex_plain_has_items)
    as [(t & l' & s' & Hrun & Ht & _ & _ & _ & Hcalls) _].
  exists t, l', s'. exact (conj Hrun (conj Ht Hcalls)).
Defined.

Lemma ex_view_iteritems :
  iteritems 2 ex_view ex_state = (inr [("a", 1); ("a", 2); ("b", 3)], ex_state).
Proof. reflexivity. Defined.

(** Over [[{a:1}, {a:2, b:3}]]: [view.getall('a')] is [[1, 2]], [len(view)]
    is 3 and ['a' in view]. *)
Lemma X14_witness :
  iteritems 2 ex_view ex_state = (inr [("a", 1); ("a", 2); ("b", 3)], ex_state)
  ∧ getall 2 ex_view "a" ex_state = (inr [1; 2], ex_state)
  ∧ len 2 ex_view ex_state = (inr 3, ex_state)
  ∧ contains 2 ex_view "a" ex_state = (inr true, ex_state).
Proof.
  split; [exact ex_view_iteritems|].
  destruct (X14_reads_follow_the_enumeration repr_str 2 ex_view ex_state
              [("a", 1); ("a", 2); ("b", 3)] "a" ex_view_iteritems)
    as (Hall & Hlen & Hc & _).
  exact (conj Hall (conj Hlen Hc)).
Defined.

(** [view.copy()['a']] is 2 while [view['a']] is 1. *)
Lemma X15_witness :
  heap ex_state !! ex_view = Some (NestedObj [ex_d1; ex_d2])
  ∧ iteritems 2 ex_view ex_state = (inr [("a", 1); ("a", 2); ("b", 3)], ex_state)
  ∧ ∃ c l' s',
      copy 2 ex_view ex_state = (inr c, s')
      ∧ is_plain s' c l' [("a", 1); ("a", 2); ("b", 3)]
      ∧ MultiDict_getitem c "a" s' = (inr 2, s')
      ∧ getitem repr_str 2 ex_view "a" ex_state = (inr 1, ex_state).
Proof.
  split; [exact ex_view_is_nested|]. split; [exact ex_view_iteritems|].
  destruct (X15_copy_of_a_view_is_flat repr_str 1 ex_state ex_view [ex_d1; ex_d2]
              [("a", 1); ("a", 2); ("b", 3)] ex_view_is_nested ex_view_iteritems)
    as (c & l' & s' & Hrun & Hp & _ & _ & _ & _ & Hget & _ & Hfirst).
  exists c, l', s'. split; [exact Hrun|]. split; [exact Hp|].
  split; [exact (Hget "a")|].
  apply (Hfirst ex_d1 [ex_d2] 1%positive [("a", 1)] "a" 1 eq_refl);
    [split; reflexivity | reflexivity].
Defined.

(** [view.getone('b')] is 3; [view.getone('a')] raises [KeyError], the two
    values being in two components. *)
Lemma X16_witness :
  heap ex_state !! ex_view = Some (NestedObj [ex_d1; ex_d2])
  ∧ iteritems 2 ex_view ex_state = (inr [("a", 1); ("a", 2); ("b", 3)], ex_state)
  ∧ getone repr_str repr_nat not_a_tuple 2 ex_view "b" ex_state = (inr 3, ex_state)
  ∧ getone repr_str repr_nat not_a_tuple 2 ex_view "a" ex_state =
    (inl (KeyError (MsgArg "Multiple values match 'a': [1, 2]")), ex_state).
Proof.
  split; [exact ex_view_is_nested|]. split; [exact ex_view_iteritems|].
  split.
  - exact (X16_getone_on_a_view_counts_every_component repr_str repr_nat
             not_a_tuple 2 ex_state ex_view [ex_d1; ex_d2]
             [("a", 1); ("a", 2); ("b", 3)] "b" ex_view_is_nested
             ex_view_iteritems).
  - exact (X16_getone_on_a_view_counts_every_component repr_str repr_nat
             not_a_tuple 2 ex_state ex_view [ex_d1; ex_d2]
             [("a", 1); ("a", 2); ("b", 3)] "a" ex_view_is_nested
             ex_view_iteritems).
Defined.

(** [bool(view)] is [True], [bool(empty)] is [False]. *)
Lemma X17_witness :
  len 2 ex_view ex_state = (inr 3, ex_state)
  ∧ truth 2 ex_view ex_state = (inr true, ex_state)
  ∧ truth 1 ex_empty ex_state = (inr false, ex_state).
Proof.
  split; [reflexivity|]. split.
  - exact (X17_truth_is_len_not_zero 2 ex_view ex_state 3 eq_refl).
  - exact (X17_truth_is_len_not_zero 1 ex_empty ex_state 0 eq_refl).
Defined.

(** [NestedMultiDict(d1, novars, d2)] reads as [NestedMultiDict(d1, d2)]. *)
Lemma X18_witness :
  heap ex_state_nv !! ex_view_nv = Some (NestedObj ([ex_d1] ++ ex_novars :: [ex_d2]))
  ∧ heap ex_state_nv !! ex_view = Some (NestedObj ([ex_d1] ++ [ex_d2]))
  ∧ heap ex_state_nv !! ex_novars = Some (NoVarsObj "no request body")
  ∧ getitem repr_str 2 ex_view_nv "a" ex_state_nv =
    getitem repr_str 2 ex_view "a" ex_state_nv
  ∧ getall 2 ex_view_nv "a" ex_state_nv = getall 2 ex_view "a" ex_state_nv.
Proof.
  split; [reflexivity|]. split; [reflexivity|]. split; [reflexivity|].
  destruct (X18_novars_component_is_neutral repr_str 0 ex_state_nv ex_view_nv
              ex_view [ex_d1] ex_novars [ex_d2] "no request body" "a"
              eq_refl eq_refl eq_refl) as (Hget & Hall & _).
  exact (conj Hget Hall).
Defined.



Lemma ex_forms_same_shown :
  same_shown [("user", "ann"); ("password", "hunter2")]
             [("user", "ann"); ("password", "12345")].
Proof.
  constructor; [split; [reflexivity | reflexivity]|].
  constructor; [split; [reflexivity | discriminate]|].
  constructor.
Defined.

(** The two login forms have the same [repr]. *)
Lemma X21_witness :
  is_plain ex_state_forms ex_form1 1 [("user", "ann"); ("password", "hunter2")]
  ∧ is_plain ex_state_forms ex_form2 3 [("user", "ann"); ("password", "12345")]
  ∧ same_shown [("user", "ann"); ("password", "hunter2")]
               [("user", "ann"); ("password", "12345")]
  ∧ ∃ text, repr repr_str repr_str 1 ex_form1 ex_state_forms =
              (inr text, ex_state_forms)
          ∧ repr repr_str repr_str 1 ex_form2 ex_state_forms =
              (inr text, ex_state_forms).
Proof.
  split; [split; reflexivity|]. split; [split; reflexivity|].
  split; [exact ex_forms_same_shown|].
  exact (proj1 (X21_repr_hides_password_values repr_str repr_str 0 ex_state_forms
                  ex_state_forms ex_form1 1 ex_form2 3 _ _
                  (conj eq_refl eq_refl) (conj eq_refl eq_refl)
                  ex_forms_same_shown)).
Defined.
